(** * libgit2 remotes: a shallow embedding of [src/remote.c]

    The functions of [remote.c] are embedded as Rocq functions over explicit
    state.  The stores the file talks to (refspec engine, reference store,
    object database, configuration store) are not part of the sources; they
    enter the development as an interface ([Collaborators]) and the theorems
    hold for every implementation of it.  A small executable implementation
    ([Model]) is given at the end of the definitions and is used to run the
    embedded functions on concrete inputs.

    Conventions
    - a C [int] result is a [Z]; [x < 0] is [x <? 0];
    - a [char *] that may be [NULL] is an [option string];
    - a result of [None] of an embedded function stands for undefined
      behaviour of the C code (a [NULL] dereference, a read outside a
      buffer); allocation is assumed to succeed, so the
      [GITERR_CHECK_ALLOC] exits are outside the model;
    - user callbacks are functions to their [int] status, and every
      invocation is recorded in the returned trace. *)

From stdpp Require Import base option list strings.
From Stdlib Require Import ZArith Lia Ascii.

Open Scope string_scope.
Open Scope list_scope.
Open Scope Z_scope.

(** ** Result codes and names

    Modelled from the spec: the result codes of [git2/errors.h] and the
    reference names of [refs.h] and [refspec.h] are not among the sources.
    The spec asks for a "distinguished" [Cancelled] code next to [NotFound]
    and [AlreadyExists], a symbolic HEAD name, a fetch-head pseudo-ref name
    and the implicit tag refspec [refs/tags/*:refs/tags/*]; the values are
    those of the library headers. *)

Definition GIT_ENOTFOUND : Z := -3.
Definition GIT_EEXISTS : Z := -4.
Definition GIT_EUSER : Z := -7.

Definition GIT_HEAD_FILE : string := "HEAD".
Definition GIT_FETCH_HEAD_FILE : string := "FETCH_HEAD".
Definition GIT_REFS_REMOTES_DIR : string := "refs/remotes/".
Definition GIT_REFSPEC_TAGS : string := "refs/tags/*:refs/tags/*".

Inductive git_error_class := GITERR_CONFIG | GITERR_NET | GITERR_OS.

(** ** Data *)

(** [git_oid]: [unsigned char id[GIT_OID_RAWSZ]]. *)
Definition git_oid := list Byte.byte.
Definition GIT_OID_RAWSZ : nat := 20.

(** [memset(&old, 0, GIT_OID_RAWSZ)] *)
Definition zero_oid : git_oid := replicate GIT_OID_RAWSZ Byte.x00.

(** [git_oid_cmp] is [memcmp] over the raw bytes; ids of different length do
    not occur in C and are ordered by length here. *)
Fixpoint git_oid_cmp (a b : git_oid) : Z :=
  match a, b with
  | [], [] => 0
  | [], _ :: _ => -1
  | _ :: _, [] => 1
  | x :: a', y :: b' =>
      let d := Z.of_N (Byte.to_N x) - Z.of_N (Byte.to_N y) in
      if d =? 0 then git_oid_cmp a' b' else d
  end.

Record git_remote_head := {
  head_name : string;
  head_oid : git_oid
}.

(** Packets of the advertisement: only [GIT_PKT_REF] packets carry a head. *)
Inductive git_pkt :=
| PktRef (head : git_remote_head)
| PktOther.

Record git_refspec := {
  rs_src : option string;
  rs_dst : option string;
  rs_force : bool
}.

(** [memset(remote, 0x0, sizeof(git_remote))] leaves both pointers [NULL]. *)
Definition empty_refspec : git_refspec :=
  {| rs_src := None; rs_dst := None; rs_force := false |}.

Inductive git_remote_autotag_option_t :=
| GIT_REMOTE_DOWNLOAD_TAGS_UNSET
| GIT_REMOTE_DOWNLOAD_TAGS_NONE
| GIT_REMOTE_DOWNLOAD_TAGS_AUTO
| GIT_REMOTE_DOWNLOAD_TAGS_ALL.

Definition autotag_eqb (a b : git_remote_autotag_option_t) : bool :=
  match a, b with
  | GIT_REMOTE_DOWNLOAD_TAGS_UNSET, GIT_REMOTE_DOWNLOAD_TAGS_UNSET
  | GIT_REMOTE_DOWNLOAD_TAGS_NONE, GIT_REMOTE_DOWNLOAD_TAGS_NONE
  | GIT_REMOTE_DOWNLOAD_TAGS_AUTO, GIT_REMOTE_DOWNLOAD_TAGS_AUTO
  | GIT_REMOTE_DOWNLOAD_TAGS_ALL, GIT_REMOTE_DOWNLOAD_TAGS_ALL => true
  | _, _ => false
  end.

(** The tip-update callback [(refname, old, new, payload) -> status]; the
    payload is closed over. *)
Record git_remote_callbacks := {
  cb_update_tips : option (string → git_oid → git_oid → Z)
}.

Record git_transport := {
  t_connected : bool;
  t_refs : list git_pkt
}.

Record git_remote := {
  r_name : option string;
  r_url : string;
  r_pushurl : option string;
  r_fetch : git_refspec;
  r_push : git_refspec;
  r_download_tags : git_remote_autotag_option_t;
  r_check_cert : Z;
  r_callbacks : git_remote_callbacks;
  r_transport : option git_transport
}.

(** ** The collaborators

    Everything [remote.c] calls and does not define.  A store operation
    returns its [int] result together with the store it leaves behind. *)

Class Collaborators := {
  odb_t : Type;
  refdb_t : Type;
  config_t : Type;
  (* refspec.c *)
  git_refspec__parse : string → bool → Z * git_refspec;
  git_refspec__serialize : git_refspec → option string;
  git_refspec_src_matches : git_refspec → string → bool;
  git_refspec_transform_r : git_refspec → string → option string;
  (* refs.c *)
  git_reference_is_valid_name : string → bool;
  git_reference_name_to_oid : refdb_t → string → Z * git_oid;
  git_reference_create_oid : refdb_t → string → git_oid → bool → Z * refdb_t;
  git_reference_list : refdb_t → Z * list string;
  git_reference_lookup : refdb_t → string → Z;
  git_reference_rename : refdb_t → string → string → bool → Z * refdb_t;
  (* odb.c *)
  git_odb_exists : odb_t → git_oid → bool;
  (* config.c *)
  git_config_get_string : config_t → string → Z * option string;
  git_config_set_string : config_t → string → string → Z * config_t;
  git_config_delete : config_t → string → Z * config_t;
  git_config_rename_section : config_t → string → string → Z * config_t;
  git_config_entries_match : config_t → string → list (string * string)
}.

(** The repository a remote points to: [git_repository_odb__weakptr] and
    [git_repository_config__weakptr] fail when the component is [None]. *)
Record git_repository `{Collaborators} := {
  repo_odb : option odb_t;
  repo_config : option config_t;
  repo_refdb : refdb_t
}.

(** ** Tip synchronization: [git_remote_update_tips] *)

Inductive tip_event :=
| RefCreate (refname : string) (id : git_oid) (force : bool) (rc : Z)
| TipCallback (refname : string) (old new : git_oid) (rc : Z).

(** Outcome of one turn of the [for] loop: [continue] (or falling off the
    end of the body), or [goto on_error]. *)
Inductive loop_exit := Next | OnError.

Section UpdateTips.
Context `{Collaborators}.

(** Lines 589-605: which destination an advertised name is written to, and
    whether it is an automatic tag. *)
Inductive target :=
| Untracked
| TransformFailed
| Tracked (refname : string) (autotag : bool).

Definition tip_target (spec tagspec : git_refspec)
    (download_tags : git_remote_autotag_option_t) (name : string) : target :=
  if git_refspec_src_matches spec name then
    match git_refspec_transform_r spec name with
    | Some refname => Tracked refname false
    | None => TransformFailed
    end
  else if negb (autotag_eqb download_tags GIT_REMOTE_DOWNLOAD_TAGS_NONE) then
    let autotag := negb (autotag_eqb download_tags GIT_REMOTE_DOWNLOAD_TAGS_ALL) in
    if negb (git_refspec_src_matches tagspec name) then Untracked
    else Tracked name autotag
  else Untracked.

(** Lines 607-630: the write and the notification for one destination.
    The reference handle [ref] and its release are not modelled. *)
Definition update_ref (remote : git_remote) (odb : odb_t)
    (refname : string) (autotag : bool) (id : git_oid) (rdb : refdb_t)
  : loop_exit * refdb_t * list tip_event :=
  if autotag && negb (git_odb_exists odb id) then (Next, rdb, [])
  else
    let '(error, found) := git_reference_name_to_oid rdb refname in
    if (error <? 0) && negb (error =? GIT_ENOTFOUND) then (OnError, rdb, [])
    else
      let old := if error =? GIT_ENOTFOUND then zero_oid else found in
      if git_oid_cmp old id =? 0 then (Next, rdb, [])
      else
        let '(error, rdb') := git_reference_create_oid rdb refname id (negb autotag) in
        let created := RefCreate refname id (negb autotag) error in
        if (error <? 0) && negb (error =? GIT_EEXISTS) then (OnError, rdb', [created])
        else
          match cb_update_tips (r_callbacks remote) with
          | None => (Next, rdb', [created])
          | Some update_tips =>
              let rc := update_tips refname old id in
              let called := TipCallback refname old id rc in
              if rc <? 0 then (OnError, rdb', [created; called])
              else (Next, rdb', [created; called])
          end.

(** The body of the [for] loop, lines 577-630. *)
Definition update_one (remote : git_remote) (odb : odb_t) (tagspec : git_refspec)
    (pkt : git_pkt) (rdb : refdb_t) : loop_exit * refdb_t * list tip_event :=
  match pkt with
  | PktOther => (Next, rdb, [])
  | PktRef head =>
      if negb (git_reference_is_valid_name (head_name head)) then (Next, rdb, [])
      else
        match tip_target (r_fetch remote) tagspec (r_download_tags remote) (head_name head) with
        | Untracked => (Next, rdb, [])
        | TransformFailed => (OnError, rdb, [])
        | Tracked refname autotag => update_ref remote odb refname autotag (head_oid head) rdb
        end
  end.

(** [for (; i < refs->length; ++i)] over [refs->contents[i..]]; every event
    carries the index of the entry that caused it. *)
Fixpoint update_tips_scan (remote : git_remote) (odb : odb_t) (tagspec : git_refspec)
    (i : nat) (pkts : list git_pkt) (rdb : refdb_t)
  : Z * refdb_t * list (nat * tip_event) :=
  match pkts with
  | [] => (0, rdb, [])
  | pkt :: rest =>
      match update_one remote odb tagspec pkt rdb with
      | (Next, rdb', evs) =>
          let '(rc, rdb'', tr) := update_tips_scan remote odb tagspec (S i) rest rdb' in
          (rc, rdb'', map (pair i) evs ++ tr)
      | (OnError, rdb', evs) => (-1, rdb', map (pair i) evs)
      end
  end.

(** The repository after the reference store changed. *)
Definition repo_with_refdb (repo : git_repository) (rdb : refdb_t) : git_repository :=
  {| repo_odb := repo_odb repo; repo_config := repo_config repo; repo_refdb := rdb |}.

(** The result is [None] when [remote->transport] is [NULL], and when the
    first packet, which line 567 reads as a ref packet without a look at its
    type, is not one. *)
Definition git_remote_update_tips (remote : git_remote) (repo : git_repository)
  : option (Z * git_repository * list (nat * tip_event)) :=
  match r_transport remote with
  | None => None
  | Some transport =>
      match t_refs transport with
      | [] => Some (0, repo, [])
      | pkt0 :: rest =>
          match repo_odb repo with
          | None => Some (-1, repo, [])
          | Some odb =>
              let '(error, tagspec) := git_refspec__parse GIT_REFSPEC_TAGS true in
              if error <? 0 then Some (-1, repo, [])
              else
                (* HEAD is only allowed to be the first in the list *)
                match pkt0 with
                | PktOther => None
                | PktRef head =>
                    if String.eqb (head_name head) GIT_HEAD_FILE then
                      let '(error, rdb) :=
                        git_reference_create_oid (repo_refdb repo)
                          GIT_FETCH_HEAD_FILE (head_oid head) true in
                      let fetch_head :=
                        (0%nat, RefCreate GIT_FETCH_HEAD_FILE (head_oid head) true error) in
                      if error <? 0 then Some (-1, repo_with_refdb repo rdb, [fetch_head])
                      else
                        let '(rc, rdb', tr) :=
                          update_tips_scan remote odb tagspec 1 rest rdb in
                        Some (rc, repo_with_refdb repo rdb', fetch_head :: tr)
                    else
                      let '(rc, rdb', tr) :=
                        update_tips_scan remote odb tagspec 0 (pkt0 :: rest) (repo_refdb repo) in
                      Some (rc, repo_with_refdb repo rdb', tr)
                end
          end
      end
  end.

End UpdateTips.

(** ** Listing advertised refs: [git_remote_ls] *)

Section Listing.
Context {P : Type}.

(** [git_vector_foreach(refs, i, p)]: the visitor sees the heads of the ref
    packets in order, threading its payload; the third component lists the
    heads it was called with. *)
Fixpoint ls_foreach (list_cb : git_remote_head → P → Z * P) (refs : list git_pkt)
    (payload : P) : Z * P * list git_remote_head :=
  match refs with
  | [] => (0, payload, [])
  | PktOther :: rest => ls_foreach list_cb rest payload
  | PktRef head :: rest =>
      let '(rc, payload') := list_cb head payload in
      if negb (rc =? 0) then (GIT_EUSER, payload', [head])
      else
        let '(rc', payload'', seen) := ls_foreach list_cb rest payload' in
        (rc', payload'', head :: seen)
  end.

(** The last [giterr_set] is returned next to the result. *)
Definition git_remote_ls (remote : git_remote)
    (list_cb : git_remote_head → P → Z * P) (payload : P)
  : Z * option (git_error_class * string) * P * list git_remote_head :=
  match r_transport remote with
  | None => (-1, Some (GITERR_NET, "The remote is not connected"), payload, [])
  | Some transport =>
      if negb (t_connected transport) then
        (-1, Some (GITERR_NET, "The remote is not connected"), payload, [])
      else
        let '(rc, payload', seen) := ls_foreach list_cb (t_refs transport) payload in
        (rc, None, payload', seen)
  end.

End Listing.

(** ** Persistence and rename: the state they run in *)

(** What the functions below do to the stores and to the caller, in order. *)
Inductive store_event :=
| ConfigSet (key value : string) (rc : Z)
| ConfigDelete (key : string) (rc : Z)
| ConfigRenameSection (old_section new_section : string) (rc : Z)
| RefRename (old_name new_name : string) (rc : Z)
| ProblematicRefspec (refspec : string) (rc : Z)
| RemoteFree (remote : git_remote).

Record world `{Collaborators} := {
  w_repo : git_repository;
  w_err : option (git_error_class * string);
  w_log : list store_event
}.

Section Persistence.
Context `{Collaborators}.

Definition with_config (c : config_t) (w : world) : world :=
  {| w_repo := {| repo_odb := repo_odb (w_repo w);
                  repo_config := Some c;
                  repo_refdb := repo_refdb (w_repo w) |};
     w_err := w_err w;
     w_log := w_log w |}.

Definition with_refdb (rdb : refdb_t) (w : world) : world :=
  {| w_repo := {| repo_odb := repo_odb (w_repo w);
                  repo_config := repo_config (w_repo w);
                  repo_refdb := rdb |};
     w_err := w_err w;
     w_log := w_log w |}.

Definition record_event (ev : store_event) (w : world) : world :=
  {| w_repo := w_repo w; w_err := w_err w; w_log := w_log w ++ [ev] |}.

(** A computation over the world; [None] is undefined behaviour. *)
Definition M (A : Type) : Type := world → option (A * world).

Definition ret {A} (a : A) : M A := λ w, Some (a, w).

Definition bind {A B} (m : M A) (k : A → M B) : M B :=
  λ w, match m w with
       | Some (a, w') => k a w'
       | None => None
       end.

Definition undefined {A} : M A := λ _, None.

Notation "x <- m ;; k" := (bind m (λ x, k))
  (at level 100, m at next level, right associativity).

Definition giterr_set (cls : git_error_class) (msg : string) : M unit :=
  λ w, Some (tt, {| w_repo := w_repo w; w_err := Some (cls, msg); w_log := w_log w |}).

Definition git_remote_free (remote : option git_remote) : M unit :=
  λ w, match remote with
       | None => Some (tt, w)
       | Some r => Some (tt, record_event (RemoteFree r) w)
       end.

Definition git_repository_config__weakptr : M Z :=
  λ w, Some (match repo_config (w_repo w) with Some _ => 0 | None => -1 end, w).

(** The store operations on the configuration the weak pointer refers to. *)
Definition config_get_string (key : string) : M (Z * option string) :=
  λ w, match repo_config (w_repo w) with
       | None => None
       | Some c => Some (git_config_get_string c key, w)
       end.

Definition config_set_string (key value : string) : M Z :=
  λ w, match repo_config (w_repo w) with
       | None => None
       | Some c =>
           let '(rc, c') := git_config_set_string c key value in
           Some (rc, record_event (ConfigSet key value rc) (with_config c' w))
       end.

Definition config_delete (key : string) : M Z :=
  λ w, match repo_config (w_repo w) with
       | None => None
       | Some c =>
           let '(rc, c') := git_config_delete c key in
           Some (rc, record_event (ConfigDelete key rc) (with_config c' w))
       end.

(** [printf("%s", name)] for a [name] that may be [NULL]. *)
Definition show_name (name : option string) : string := default "(null)" name.

Definition ensure_remote_name_is_valid (name : option string) : M Z :=
  let error :=
    match name with
    | None => -1
    | Some "" => -1
    | Some n =>
        fst (git_refspec__parse ("refs/heads/test:refs/remotes/" +:+ n +:+ "/test") true)
    end in
  if negb (error =? 0) then
    _ <- giterr_set GITERR_CONFIG ("'" +:+ show_name name +:+ "' is not a valid remote name.") ;;
    ret error
  else ret error.

Inductive git_direction := GIT_DIR_FETCH | GIT_DIR_PUSH.

Definition update_config_refspec (remote_name : string) (refspec : git_refspec)
    (direction : git_direction) : M Z :=
  match rs_src refspec, rs_dst refspec with
  | Some _, Some _ =>
      let name := "remote." +:+ remote_name +:+ "." +:+
                  match direction with GIT_DIR_FETCH => "fetch" | GIT_DIR_PUSH => "push" end in
      match git_refspec__serialize refspec with
      | None => ret (-1)
      | Some value => config_set_string name value
      end
  | _, _ => ret 0
  end.

(** Lines 332-349 of [git_remote_save]: the tag option. *)
Definition save_tagopt (remote : git_remote) (name : string) : M Z :=
  let key := "remote." +:+ name +:+ ".tagopt" in
  got <- config_get_string key ;;
  let '(error, tagopt) := got in
  if (error <? 0) && negb (error =? GIT_ENOTFOUND) then ret (-1)
  else
    match r_download_tags remote with
    | GIT_REMOTE_DOWNLOAD_TAGS_ALL =>
        rc <- config_set_string key "--tags" ;;
        if rc <? 0 then ret (-1) else ret 0
    | GIT_REMOTE_DOWNLOAD_TAGS_NONE =>
        rc <- config_set_string key "--no-tags" ;;
        if rc <? 0 then ret (-1) else ret 0
    | _ =>
        match tagopt with
        | Some _ =>
            rc <- config_delete key ;;
            if rc <? 0 then ret (-1) else ret 0
        | None => ret 0
        end
    end.

Definition git_remote_save (remote : git_remote) : M Z :=
  valid <- ensure_remote_name_is_valid (r_name remote) ;;
  if valid <? 0 then ret (-1)
  else
    have_config <- git_repository_config__weakptr ;;
    if have_config <? 0 then ret (-1)
    else
      match r_name remote with
      | None => undefined
      | Some name =>
          rc <- config_set_string ("remote." +:+ name +:+ ".url") (r_url remote) ;;
          if rc <? 0 then ret (-1)
          else
            error <- match r_pushurl remote with
                     | Some pushurl =>
                         config_set_string ("remote." +:+ name +:+ ".pushurl") pushurl
                     | None =>
                         error <- config_delete ("remote." +:+ name +:+ ".pushurl") ;;
                         ret (if error =? GIT_ENOTFOUND then 0 else error)
                     end ;;
            if error <? 0 then ret (-1)
            else
              rc <- update_config_refspec name (r_fetch remote) GIT_DIR_FETCH ;;
              if rc <? 0 then ret (-1)
              else
                rc <- update_config_refspec name (r_push remote) GIT_DIR_PUSH ;;
                if rc <? 0 then ret (-1)
                else save_tagopt remote name
      end.

(** ** Construction: [git_remote_new], [git_remote_add], [git_remote_load] *)

(** The remote after [memset], [check_cert = 1] and the copied strings. *)
Definition blank_remote (name : option string) (url : string) : git_remote :=
  {| r_name := name;
     r_url := url;
     r_pushurl := None;
     r_fetch := empty_refspec;
     r_push := empty_refspec;
     r_download_tags := GIT_REMOTE_DOWNLOAD_TAGS_UNSET;
     r_check_cert := 1;
     r_callbacks := {| cb_update_tips := None |};
     r_transport := None |}.

Definition set_fetch (remote : git_remote) (fetch : git_refspec) : git_remote :=
  {| r_name := r_name remote; r_url := r_url remote; r_pushurl := r_pushurl remote;
     r_fetch := fetch; r_push := r_push remote;
     r_download_tags := r_download_tags remote; r_check_cert := r_check_cert remote;
     r_callbacks := r_callbacks remote; r_transport := r_transport remote |}.

Definition set_push (remote : git_remote) (push : git_refspec) : git_remote :=
  {| r_name := r_name remote; r_url := r_url remote; r_pushurl := r_pushurl remote;
     r_fetch := r_fetch remote; r_push := push;
     r_download_tags := r_download_tags remote; r_check_cert := r_check_cert remote;
     r_callbacks := r_callbacks remote; r_transport := r_transport remote |}.

Definition set_name (remote : git_remote) (name : option string) : git_remote :=
  {| r_name := name; r_url := r_url remote; r_pushurl := r_pushurl remote;
     r_fetch := r_fetch remote; r_push := r_push remote;
     r_download_tags := r_download_tags remote; r_check_cert := r_check_cert remote;
     r_callbacks := r_callbacks remote; r_transport := r_transport remote |}.

Definition set_pushurl (remote : git_remote) (pushurl : option string) : git_remote :=
  {| r_name := r_name remote; r_url := r_url remote; r_pushurl := pushurl;
     r_fetch := r_fetch remote; r_push := r_push remote;
     r_download_tags := r_download_tags remote; r_check_cert := r_check_cert remote;
     r_callbacks := r_callbacks remote; r_transport := r_transport remote |}.

Definition set_download_tags (remote : git_remote)
    (value : git_remote_autotag_option_t) : git_remote :=
  {| r_name := r_name remote; r_url := r_url remote; r_pushurl := r_pushurl remote;
     r_fetch := r_fetch remote; r_push := r_push remote;
     r_download_tags := value; r_check_cert := r_check_cert remote;
     r_callbacks := r_callbacks remote; r_transport := r_transport remote |}.

(** What the caller's [git_remote *] variable holds, the one [out] points
    to: a pointer ([None] for [NULL]), or, when the caller never assigned
    it, nothing that may be used. *)
Inductive slot :=
| Indeterminate
| Holds (pointer : option git_remote).

(** Reading the variable through [out]. *)
Definition slot_read (out : slot) : M (option git_remote) :=
  match out with
  | Indeterminate => undefined
  | Holds pointer => ret pointer
  end.

(** [out] is the caller's variable before the call; the result holds it
    after the call.  It is written on success only. *)
Definition git_remote_new (out : slot) (name : option string)
    (url : string) (fetch : option string) : M (Z * slot) :=
  let remote := blank_remote name url in
  let '(error, remote) :=
    match fetch with
    | Some text =>
        let '(error, parsed) := git_refspec__parse text true in
        (error, set_fetch remote parsed)
    | None => (0, remote)
    end in
  if error <? 0 then
    _ <- git_remote_free (Some remote) ;;
    ret (-1, out)
  else
    (* A remote without a name doesn't download tags *)
    let remote :=
      match name with
      | None => set_download_tags remote GIT_REMOTE_DOWNLOAD_TAGS_NONE
      | Some _ => remote
      end in
    ret (0, Holds (Some remote)).

(** [on_error:] of [git_remote_add], which frees what the caller's variable
    holds. *)
Definition add_on_error (out : slot) : M (Z * slot) :=
  held <- slot_read out ;;
  _ <- git_remote_free held ;;
  ret (-1, out).

Definition git_remote_add (out : slot) (name url : string) : M (Z * slot) :=
  let buf := "+refs/heads/*:refs/remotes/" +:+ name +:+ "/*" in
  made <- git_remote_new out (Some name) url (Some buf) ;;
  let '(rc, out) := made in
  if rc <? 0 then add_on_error out
  else
    held <- slot_read out ;;
    match held with
    | None => undefined
    | Some remote =>
        rc <- git_remote_save remote ;;
        if rc <? 0 then add_on_error out
        else ret (0, out)
    end.

(** [parse_remote_refspec]: the result and what is left in [*refspec]. *)
Definition parse_remote_refspec (refspec : git_refspec) (var : string) (is_fetch : bool)
  : M (Z * git_refspec) :=
  got <- config_get_string var ;;
  let '(error, val) := got in
  if error <? 0 then ret (error, refspec)
  else
    match val with
    | None => undefined
    | Some text => ret (git_refspec__parse text is_fetch)
    end.

Definition download_tags_value (remote : git_remote) : M (Z * git_remote) :=
  match r_download_tags remote with
  | GIT_REMOTE_DOWNLOAD_TAGS_UNSET =>
      (* This is the default, let's see if we need to change it *)
      let remote := set_download_tags remote GIT_REMOTE_DOWNLOAD_TAGS_AUTO in
      got <- config_get_string ("remote." +:+ show_name (r_name remote) +:+ ".tagopt") ;;
      let '(error, val) := got in
      if error =? 0 then
        match val with
        | None => undefined
        | Some text =>
            if String.eqb text "--no-tags" then
              ret (0, set_download_tags remote GIT_REMOTE_DOWNLOAD_TAGS_NONE)
            else if String.eqb text "--tags" then
              ret (0, set_download_tags remote GIT_REMOTE_DOWNLOAD_TAGS_ALL)
            else ret (0, remote)
        end
      else ret (if error =? GIT_ENOTFOUND then 0 else error, remote)
  | _ => ret (0, remote)
  end.

(** [cleanup:] of [git_remote_load]. *)
Definition load_cleanup (error : Z) (remote : git_remote) (out : option git_remote)
  : M (Z * option git_remote) :=
  if error <? 0 then
    _ <- git_remote_free (Some remote) ;;
    ret (error, out)
  else ret (error, out).

(** [out] is the pointer in the caller's variable, before and after the
    call ([None] for [NULL], and for a variable not assigned yet, which the
    function does not read). *)
Definition git_remote_load (out : option git_remote) (name : string)
  : M (Z * option git_remote) :=
  have_config <- git_repository_config__weakptr ;;
  if have_config <? 0 then ret (-1, out)
  else
    let remote := blank_remote (Some name) "" in
    got <- config_get_string ("remote." +:+ name +:+ ".url") ;;
    let '(error, val) := got in
    if error <? 0 then load_cleanup error remote out
    else
      match val with
      | None => undefined
      | Some url =>
          let remote := blank_remote (Some name) url in
          got <- config_get_string ("remote." +:+ name +:+ ".pushurl") ;;
          let '(error, val) := got in
          let error := if error =? GIT_ENOTFOUND then 0 else error in
          if error <? 0 then load_cleanup (-1) remote out
          else
            let remote := match val with
                          | Some pushurl => set_pushurl remote (Some pushurl)
                          | None => remote
                          end in
            parsed <- parse_remote_refspec (r_fetch remote)
                        ("remote." +:+ name +:+ ".fetch") true ;;
            let '(error, fetch) := parsed in
            let remote := set_fetch remote fetch in
            let error := if error =? GIT_ENOTFOUND then 0 else error in
            if error <? 0 then load_cleanup (-1) remote out
            else
              parsed <- parse_remote_refspec (r_push remote)
                          ("remote." +:+ name +:+ ".push") false ;;
              let '(error, push) := parsed in
              let remote := set_push remote push in
              let error := if error =? GIT_ENOTFOUND then 0 else error in
              if error <? 0 then load_cleanup (-1) remote out
              else
                tagged <- download_tags_value remote ;;
                let '(rc, remote) := tagged in
                if rc <? 0 then load_cleanup error remote out
                else load_cleanup error remote (Some remote)
      end.

(** ** Rename: [git_remote_rename] and its steps *)

(** [strstr(haystack, needle)]: offset of the first occurrence. *)
Definition strstr (haystack needle : string) : option nat :=
  String.index 0 needle haystack.

(** [s + n] for [n <= strlen(s)]. *)
Definition string_from (n : nat) (s : string) : string :=
  String.substring n (String.length s - n) s.

(** [git_buf_splice(buf, where, nb_to_remove, data, strlen(data))] *)
Definition git_buf_splice (buf : string) (where_ nb_to_remove : nat) (data : string)
  : string :=
  String.substring 0 where_ buf +:+ data +:+ string_from (where_ + nb_to_remove) buf.

Definition ensure_remote_doesnot_exist (name : string) : M Z :=
  loaded <- git_remote_load None name ;;
  let '(error, remote) := loaded in
  if error =? GIT_ENOTFOUND then ret 0
  else if error <? 0 then ret error
  else
    match remote with
    | None => undefined
    | Some _ =>
        _ <- git_remote_free remote ;;
        _ <- giterr_set GITERR_CONFIG ("Remote '" +:+ name +:+ "' already exists.") ;;
        ret GIT_EEXISTS
    end.

Definition rename_remote_config_section (old_name new_name : string) : M Z :=
  λ w, match repo_config (w_repo w) with
       | None => Some (-1, w)
       | Some c =>
           let old_section_name := "remote." +:+ old_name in
           let new_section_name := "remote." +:+ new_name in
           let '(rc, c') := git_config_rename_section c old_section_name new_section_name in
           Some (rc, record_event (ConfigRenameSection old_section_name new_section_name rc)
                       (with_config c' w))
       end.

Definition update_config_entries_cb (old_remote_name new_remote_name : string)
    (entry : string * string) : M Z :=
  if negb (String.eqb (snd entry) old_remote_name) then ret 0
  else config_set_string (fst entry) new_remote_name.

(** Modelled from the spec: [git_config_foreach_match] is the store's
    [enumerate_matching(pattern, visitor)]; it visits the matching entries
    in the store's order and, as the comment in [git_remote_list] says of
    [git_config_foreach], turns a visitor's non-zero result into
    [GIT_EUSER]. *)
Fixpoint config_foreach (cb : string * string → M Z) (entries : list (string * string))
  : M Z :=
  match entries with
  | [] => ret 0
  | entry :: rest =>
      rc <- cb entry ;;
      if negb (rc =? 0) then ret GIT_EUSER else config_foreach cb rest
  end.

Definition git_config_foreach_match (regexp : string) (cb : string * string → M Z) : M Z :=
  λ w, match repo_config (w_repo w) with
       | None => None
       | Some c => config_foreach cb (git_config_entries_match c regexp) w
       end.

Definition update_branch_remote_config_entry (old_name new_name : string) : M Z :=
  have_config <- git_repository_config__weakptr ;;
  if have_config <? 0 then ret (-1)
  else git_config_foreach_match "branch\..+\.remote"
         (update_config_entries_cb old_name new_name).

(** [rename_cb] keeps the names below [GIT_REFS_REMOTES_DIR]. *)
Definition rename_cb (ref : string) : bool := String.prefix GIT_REFS_REMOTES_DIR ref.

Definition rename_one_remote_reference (reference_name old_remote_name new_remote_name : string)
  : M Z :=
  let skip := (String.length GIT_REFS_REMOTES_DIR + String.length old_remote_name)%nat in
  if (String.length reference_name <? skip)%nat then undefined
  else
    let new_name :=
      GIT_REFS_REMOTES_DIR +:+ new_remote_name +:+ string_from skip reference_name in
    λ w, let rdb := repo_refdb (w_repo w) in
         if git_reference_lookup rdb reference_name <? 0 then Some (-1, w)
         else
           let '(error, rdb') := git_reference_rename rdb reference_name new_name false in
           Some (error, record_event (RefRename reference_name new_name error)
                          (with_refdb rdb' w)).

Fixpoint rename_each (refnames : list string) (old_name new_name : string) : M Z :=
  match refnames with
  | [] => ret 0
  | name :: rest =>
      error <- rename_one_remote_reference name old_name new_name ;;
      if error <? 0 then ret error else rename_each rest old_name new_name
  end.

Definition rename_remote_references (old_name new_name : string) : M Z :=
  λ w, let '(rc, names) := git_reference_list (repo_refdb (w_repo w)) in
       if rc <? 0 then Some (-1, w)
       else rename_each (List.filter rename_cb names) old_name new_name w.

(** [callback(git_buf_cstr(&serialized), payload) < 0 ? GIT_EUSER : 0] *)
Definition report_problematic (callback : option (string → Z)) (serialized : string)
  : M Z :=
  match callback with
  | None => undefined
  | Some cb =>
      let rc := cb serialized in
      λ w, Some (if rc <? 0 then GIT_EUSER else 0,
                 record_event (ProblematicRefspec serialized rc) w)
  end.

Definition rename_fetch_refspecs (remote : git_remote) (new_name : string)
    (callback : option (string → Z)) : M (Z * git_remote) :=
  match rs_src (r_fetch remote), rs_dst (r_fetch remote) with
  | None, None => ret (0, remote)   (* Is there a refspec to deal with? *)
  | _, _ =>
      match git_refspec__serialize (r_fetch remote) with
      | None => ret (-1, remote)
      | Some serialized =>
          match r_name remote with
          | None =>                 (* Is it an in-memory remote? *)
              error <- report_problematic callback serialized ;;
              ret (error, remote)
          | Some name =>
              let dst_prefix := ":refs/remotes/" +:+ name +:+ "/" in
              match strstr serialized dst_prefix with
              | None =>
                  error <- report_problematic callback serialized ;;
                  ret (error, remote)
              | Some pos =>
                  let spliced :=
                    git_buf_splice serialized (pos + String.length ":refs/remotes/")
                      (String.length name) new_name in
                  let '(error, fetch) := git_refspec__parse spliced true in
                  let remote := set_fetch remote fetch in
                  if error <? 0 then ret (-1, remote)
                  else
                    have_config <- git_repository_config__weakptr ;;
                    if have_config <? 0 then ret (-1, remote)
                    else
                      error <- update_config_refspec new_name (r_fetch remote) GIT_DIR_FETCH ;;
                      ret (error, remote)
              end
          end
      end
  end.

Definition git_remote_rename (remote : git_remote) (new_name : string)
    (callback : option (string → Z)) : M (Z * git_remote) :=
  error <- ensure_remote_doesnot_exist new_name ;;
  if error <? 0 then ret (error, remote)
  else
    error <- ensure_remote_name_is_valid (Some new_name) ;;
    if error <? 0 then ret (error, remote)
    else
      match r_name remote with
      | None =>
          renamed <- rename_fetch_refspecs remote new_name callback ;;
          let '(error, remote) := renamed in
          if error <? 0 then ret (error, remote)
          else
            let remote := set_name remote (Some new_name) in
            rc <- git_remote_save remote ;;
            ret (rc, remote)
      | Some name =>
          error <- rename_remote_config_section name new_name ;;
          if error <? 0 then ret (error, remote)
          else
            error <- update_branch_remote_config_entry name new_name ;;
            if error <? 0 then ret (error, remote)
            else
              error <- rename_remote_references name new_name ;;
              if error <? 0 then ret (error, remote)
              else
                renamed <- rename_fetch_refspecs remote new_name callback ;;
                let '(error, remote) := renamed in
                if error <? 0 then ret (error, remote)
                else ret (0, set_name remote (Some new_name))
      end.

(** The steps of [git_remote_rename] on a persisted remote that precede
    [rename_fetch_refspecs]: the first negative result, or 0. *)
Definition rename_steps_before_refspec (old_name new_name : string) : M Z :=
  error <- ensure_remote_doesnot_exist new_name ;;
  if error <? 0 then ret error
  else
    error <- ensure_remote_name_is_valid (Some new_name) ;;
    if error <? 0 then ret error
    else
      error <- rename_remote_config_section old_name new_name ;;
      if error <? 0 then ret error
      else
        error <- update_branch_remote_config_entry old_name new_name ;;
        if error <? 0 then ret error
        else
          error <- rename_remote_references old_name new_name ;;
          if error <? 0 then ret error else ret 0.

End Persistence.

(** ** An executable implementation of the collaborators *)

Module Model.

(** Modelled from the spec: reference names are slash-separated components
    without decorations ("rejects decorated names such as peel markers");
    [refs.c] is not among the sources.  A star is accepted only inside a
    refspec pattern. *)
Definition forbidden_char (c : ascii) : bool :=
  (Ascii.eqb c " " || Ascii.eqb c "~" || Ascii.eqb c "^" || Ascii.eqb c ":"
   || Ascii.eqb c "?" || Ascii.eqb c "[" || Ascii.eqb c "\")%char.

Fixpoint string_forallb (p : ascii → bool) (s : string) : bool :=
  match s with
  | EmptyString => true
  | String c rest => p c && string_forallb p rest
  end.

Definition ends_with (suffix s : string) : bool :=
  (String.length suffix <=? String.length s)%nat
  && String.eqb (string_from (String.length s - String.length suffix) s) suffix.

Definition valid_name (allow_star : bool) (s : string) : bool :=
  negb (String.eqb s "")
  && string_forallb (λ c, negb (forbidden_char c) && (allow_star || negb (Ascii.eqb c "*"%char))) s
  && negb (String.prefix "/" s)
  && negb (ends_with "/" s)
  && negb (bool_decide (is_Some (String.index 0 "//" s))).

(** Modelled from the spec: the refspec engine "parses a [src:dst[+force]]
    pattern, matches a source name, transforms a matched source name to a
    destination name, serializes back to text"; [refspec.c] is not among the
    sources.  Patterns are literal names or a prefix followed by one star. *)
Definition parse (text : string) (is_fetch : bool) : Z * git_refspec :=
  let '(force, lhs) :=
    match text with
    | String "+"%char rest => (true, rest)
    | _ => (false, text)
    end in
  let '(src, dst) :=
    match String.index 0 ":" lhs with
    | Some p => (String.substring 0 p lhs, Some (string_from (S p) lhs))
    | None => (lhs, None)
    end in
  let side_ok s := String.eqb s "" || valid_name true s in
  let spec := {| rs_src := Some src; rs_dst := dst; rs_force := force |} in
  if side_ok src && from_option side_ok true dst
     && from_option (λ d, Bool.eqb (ends_with "*" src) (ends_with "*" d)) (negb (ends_with "*" src)) dst
  then (0, spec) else (-1, spec).

Definition serialize (spec : git_refspec) : option string :=
  Some ((if rs_force spec then "+" else "")
        +:+ default "" (rs_src spec) +:+ ":" +:+ default "" (rs_dst spec)).

Definition chop (s : string) : string := String.substring 0 (String.length s - 1) s.

Definition src_matches (spec : git_refspec) (refname : string) : bool :=
  match rs_src spec with
  | None => false
  | Some pattern =>
      if ends_with "*" pattern then String.prefix (chop pattern) refname
      else String.eqb pattern refname
  end.

Definition transform_r (spec : git_refspec) (refname : string) : option string :=
  match rs_src spec, rs_dst spec with
  | Some from, Some to =>
      if ends_with "*" from && ends_with "*" to then
        Some (chop to +:+ string_from (String.length (chop from)) refname)
      else if negb (ends_with "*" from) && negb (ends_with "*" to) then Some to
      else None
  | _, _ => None
  end.

(** Stores are association lists in insertion order: the first entry of a
    key is its value. *)
Fixpoint lookup_key {V : Type} (key : string) (store : list (string * V)) : option V :=
  match store with
  | [] => None
  | (k, v) :: rest => if String.eqb k key then Some v else lookup_key key rest
  end.

Fixpoint set_key {V : Type} (key : string) (value : V) (store : list (string * V))
  : list (string * V) :=
  match store with
  | [] => [(key, value)]
  | (k, v) :: rest =>
      if String.eqb k key then (k, value) :: rest else (k, v) :: set_key key value rest
  end.

Definition delete_key {V : Type} (key : string) (store : list (string * V))
  : list (string * V) :=
  List.filter (λ entry, negb (String.eqb (fst entry) key)) store.

(** Modelled from the spec: the reference store is a "name→object-id
    mapping" with "lookup, create-with-old-value-check, rename, and a
    list-all enumerator"; a non-forced creation over an existing name is
    [AlreadyExists] and leaves the store as it is. *)
Definition name_to_oid (rdb : list (string * git_oid)) (refname : string) : Z * git_oid :=
  match lookup_key refname rdb with
  | Some id => (0, id)
  | None => (GIT_ENOTFOUND, [])
  end.

Definition create_oid (rdb : list (string * git_oid)) (refname : string) (id : git_oid)
    (force : bool) : Z * list (string * git_oid) :=
  match lookup_key refname rdb with
  | Some _ => if force then (0, set_key refname id rdb) else (GIT_EEXISTS, rdb)
  | None => (0, set_key refname id rdb)
  end.

Definition reference_list (rdb : list (string * git_oid)) : Z * list string :=
  (0, map fst rdb).

Definition reference_lookup (rdb : list (string * git_oid)) (refname : string) : Z :=
  match lookup_key refname rdb with
  | Some _ => 0
  | None => GIT_ENOTFOUND
  end.

Definition reference_rename (rdb : list (string * git_oid)) (old_name new_name : string)
    (force : bool) : Z * list (string * git_oid) :=
  match lookup_key old_name rdb with
  | None => (GIT_ENOTFOUND, rdb)
  | Some id =>
      match lookup_key new_name rdb with
      | Some _ =>
          if force then (0, set_key new_name id (delete_key old_name rdb))
          else (GIT_EEXISTS, rdb)
      | None => (0, set_key new_name id (delete_key old_name rdb))
      end
  end.

(** Modelled from the spec: the object database answers an existence check
    only; [odb.c] is not among the sources. *)
Definition odb_exists (odb : list git_oid) (id : git_oid) : bool :=
  existsb (λ have, git_oid_cmp have id =? 0) odb.

(** Modelled from the spec: the configuration store is a "key/value store
    ... section-addressed strings, supports get/set/delete/rename-section/
    enumerate-matching"; [config.c] is not among the sources.  The only
    pattern [remote.c] enumerates with is [branch\..+\.remote]. *)
Definition config_get (cfg : list (string * string)) (key : string) : Z * option string :=
  match lookup_key key cfg with
  | Some value => (0, Some value)
  | None => (GIT_ENOTFOUND, None)
  end.

Definition config_set (cfg : list (string * string)) (key value : string)
  : Z * list (string * string) :=
  (0, set_key key value cfg).

Definition config_delete (cfg : list (string * string)) (key : string)
  : Z * list (string * string) :=
  match lookup_key key cfg with
  | Some _ => (0, delete_key key cfg)
  | None => (GIT_ENOTFOUND, cfg)
  end.

Definition move_key (old_section new_section : string) (entry : string * string)
  : string * string :=
  if String.prefix (old_section +:+ ".") (fst entry)
  then (new_section +:+ string_from (String.length old_section) (fst entry), snd entry)
  else entry.

Definition config_rename_section (cfg : list (string * string))
    (old_section new_section : string) : Z * list (string * string) :=
  (0, map (move_key old_section new_section) cfg).

Definition branch_remote_key (key : string) : bool :=
  String.prefix "branch." key && ends_with ".remote" key
  && (String.length "branch..remote" <? String.length key)%nat.

Definition config_entries_match (cfg : list (string * string)) (regexp : string)
  : list (string * string) :=
  List.filter (λ entry, branch_remote_key (fst entry)) cfg.

Definition collaborators : Collaborators :=
  {| odb_t := list git_oid;
     refdb_t := list (string * git_oid);
     config_t := list (string * string);
     git_refspec__parse := parse;
     git_refspec__serialize := serialize;
     git_refspec_src_matches := src_matches;
     git_refspec_transform_r := transform_r;
     git_reference_is_valid_name := valid_name false;
     git_reference_name_to_oid := name_to_oid;
     git_reference_create_oid := create_oid;
     git_reference_list := reference_list;
     git_reference_lookup := reference_lookup;
     git_reference_rename := reference_rename;
     git_odb_exists := odb_exists;
     git_config_get_string := config_get;
     git_config_set_string := config_set;
     git_config_delete := config_delete;
     git_config_rename_section := config_rename_section;
     git_config_entries_match := config_entries_match |}.

(** Sample data. *)
Definition oid_of (b : Byte.byte) : git_oid := replicate GIT_OID_RAWSZ b.
Definition oid_X : git_oid := oid_of Byte.x01.
Definition oid_Y : git_oid := oid_of Byte.x02.
Definition oid_Z : git_oid := oid_of Byte.x03.

Definition origin_fetch : git_refspec :=
  {| rs_src := Some "refs/heads/*"; rs_dst := Some "refs/remotes/origin/*"; rs_force := true |}.

Definition origin (download_tags : git_remote_autotag_option_t)
    (update_tips : option (string → git_oid → git_oid → Z)) (refs : list git_pkt)
  : git_remote :=
  {| r_name := Some "origin";
     r_url := "git://example.com/repo.git";
     r_pushurl := None;
     r_fetch := origin_fetch;
     r_push := empty_refspec;
     r_download_tags := download_tags;
     r_check_cert := 1;
     r_callbacks := {| cb_update_tips := update_tips |};
     r_transport := Some {| t_connected := true; t_refs := refs |} |}.

Definition repository (odb : list git_oid) (cfg : list (string * string))
    (rdb : list (string * git_oid)) : @git_repository collaborators :=
  @Build_git_repository collaborators (Some odb) (Some cfg) rdb.

Definition adv (name : string) (id : git_oid) : git_pkt :=
  PktRef {| head_name := name; head_oid := id |}.

Definition accept : string → git_oid → git_oid → Z := λ _ _ _, 0.
Definition cancel : string → git_oid → git_oid → Z := λ _ _ _, -1.

Definition tagspec : git_refspec := snd (parse GIT_REFSPEC_TAGS true).

(** Two branches, the first of which is refused by the callback. *)
Definition two_branches : list git_pkt :=
  [adv "refs/heads/master" oid_X; adv "refs/heads/next" oid_Y].

(** A local tag [v1] that differs from the advertised one. *)
Definition local_v1 : list (string * git_oid) := [("refs/tags/v1", oid_Z)].

(** The advertisement of the spec's scenario. *)
Definition v1 : git_remote_head := {| head_name := "refs/tags/v1"; head_oid := oid_Y |}.
Definition scenario : list git_pkt :=
  [adv "HEAD" oid_X; adv "refs/heads/master" oid_X; PktRef v1].

(** A transport that received a capability record between two refs, and a
    visitor that counts its calls and stops at [refs/heads/master]. *)
Definition listed : list git_pkt :=
  [adv "HEAD" oid_X; PktOther; adv "refs/heads/master" oid_X; PktRef v1].

Definition stop_at_master (head : git_remote_head) (calls : nat) : Z * nat :=
  (if String.eqb (head_name head) "refs/heads/master" then 1 else 0, S calls).

(** A fresh world over a configuration and a reference store. *)
Definition world_of (cfg : list (string * string)) (rdb : list (string * git_oid))
  : @world collaborators :=
  @Build_world collaborators (repository [] cfg rdb) None [].

(** An in-memory remote, as [git_remote_new] builds it without a name. *)
Definition anonymous (fetch : git_refspec) : git_remote :=
  {| r_name := None;
     r_url := "git://example.com/repo.git";
     r_pushurl := None;
     r_fetch := fetch;
     r_push := empty_refspec;
     r_download_tags := GIT_REMOTE_DOWNLOAD_TAGS_NONE;
     r_check_cert := 1;
     r_callbacks := {| cb_update_tips := None |};
     r_transport := None |}.

(** Renames: an in-memory remote tracking below [refs/remotes/upstream/],
    a persisted [origin] whose refspec does not track below
    [refs/remotes/origin/], and a persisted [origin] without a refspec. *)
Definition upstream_fetch : git_refspec :=
  {| rs_src := Some "refs/heads/*"; rs_dst := Some "refs/remotes/upstream/*"; rs_force := true |}.

Definition mirror_fetch : git_refspec :=
  {| rs_src := Some "refs/heads/*"; rs_dst := Some "refs/heads/*"; rs_force := true |}.

Definition keep : string → Z := λ _, 0.

Definition persisted (fetch : git_refspec) : git_remote :=
  {| r_name := Some "origin";
     r_url := "git://example.com/repo.git";
     r_pushurl := None;
     r_fetch := fetch;
     r_push := empty_refspec;
     r_download_tags := GIT_REMOTE_DOWNLOAD_TAGS_AUTO;
     r_check_cert := 1;
     r_callbacks := {| cb_update_tips := None |};
     r_transport := None |}.

Definition origin_config (fetch : list (string * string)) : list (string * string) :=
  [("remote.origin.url", "git://example.com/repo.git");
   ("branch.master.remote", "origin")] ++ fetch.

Definition mirror_world : @world collaborators :=
  world_of (origin_config [("remote.origin.fetch", "+refs/heads/*:refs/heads/*")])
    [("refs/remotes/origin/master", oid_X)].

Definition bare_world : @world collaborators :=
  world_of (origin_config []) [("refs/remotes/origin/master", oid_X)].

Definition renamed_anonymous : Z * git_remote * @world collaborators :=
  default ((-1, anonymous upstream_fetch), world_of [] [])
    (@git_remote_rename collaborators (anonymous upstream_fetch) "origin" (Some keep)
       (world_of [] [])).

Definition mirror_steps : Z * @world collaborators :=
  default (-1, mirror_world)
    (@rename_steps_before_refspec collaborators "origin" "upstream" mirror_world).

(** The spec's second scenario (the object of the tag is present), run
    once. *)
Definition synced_remote : git_remote :=
  origin GIT_REMOTE_DOWNLOAD_TAGS_AUTO (Some accept) scenario.

Definition first_run
  : option (Z * @git_repository collaborators * list (nat * tip_event)) :=
  @git_remote_update_tips collaborators synced_remote (repository [oid_Y] [] []).

Definition after_first_run : @git_repository collaborators :=
  match first_run with
  | Some (_, repo, _) => repo
  | None => repository [oid_Y] [] []
  end.

Definition first_trace : list (nat * tip_event) :=
  match first_run with
  | Some (_, _, tr) => tr
  | None => []
  end.

(** The same branch advertised twice with different ids. *)
Definition twice_master : list git_pkt :=
  [adv "refs/heads/master" oid_X; adv "refs/heads/master" oid_Y].

End Model.

(** ** What the statements below speak about *)

(** [git_remote_connected], line 644. *)
Definition git_remote_connected (remote : git_remote) : bool :=
  match r_transport remote with
  | None => false
  | Some transport => t_connected transport
  end.

(** The advertised list: [remote->transport->refs]. *)
Definition advertised (remote : git_remote) : list git_pkt :=
  match r_transport remote with
  | None => []
  | Some transport => t_refs transport
  end.

(** The heads of the ref packets, in order. *)
Definition ref_heads (pkts : list git_pkt) : list git_remote_head :=
  omap (λ pkt, match pkt with PktRef head => Some head | PktOther => None end) pkts.

Definition is_callback (ev : tip_event) : bool :=
  match ev with
  | TipCallback _ _ _ _ => true
  | RefCreate _ _ _ _ => false
  end.

(** An event after which the function leaves through [on_error]: a tip
    callback that returned a negative value, or a reference creation that
    failed with anything but [GIT_EEXISTS]. *)
Definition aborts (ev : tip_event) : bool :=
  match ev with
  | RefCreate _ _ _ e => (e <? 0) && negb (e =? GIT_EEXISTS)
  | TipCallback _ _ _ rc => rc <? 0
  end.

(** Every reference creation of the trace succeeded. *)
Definition creations_succeeded (tr : list (nat * tip_event)) : bool :=
  forallb (λ entry, match snd entry with
                    | RefCreate _ _ _ e => 0 <=? e
                    | TipCallback _ _ _ _ => true
                    end) tr.

Definition is_free (ev : store_event) : bool :=
  match ev with RemoteFree _ => true | _ => false end.

Definition is_problematic (ev : store_event) : bool :=
  match ev with ProblematicRefspec _ _ => true | _ => false end.

(** Any event but the report of a refspec. *)
Definition quiet_step (ev : store_event) : bool := negb (is_problematic ev).

(** A configuration write to a key that starts with [prefix]. *)
Definition writes_below (prefix : string) (ev : store_event) : bool :=
  match ev with
  | ConfigSet key _ _ | ConfigDelete key _ => String.prefix prefix key
  | _ => false
  end.

(** What renaming an anonymous remote to [new_name] may log: releases of
    remotes, the report of the refspec, and configuration writes below
    [remote.<new_name>.]; no section rename and no reference rename. *)
Definition anonymous_rename_event (new_name : string) (ev : store_event) : bool :=
  is_free ev || is_problematic ev || writes_below ("remote." +:+ new_name +:+ ".") ev.

Section Observations.
Context `{Collaborators}.

(** The reference the scan may write for a packet, if any. *)
Definition destination (remote : git_remote) (tagspec : git_refspec) (pkt : git_pkt)
  : option string :=
  match pkt with
  | PktOther => None
  | PktRef head =>
      if git_reference_is_valid_name (head_name head) then
        match tip_target (r_fetch remote) tagspec (r_download_tags remote) (head_name head) with
        | Tracked refname _ => Some refname
        | _ => None
        end
      else None
  end.

(** Every reference one run may write: the fetch-head for a leading HEAD,
    and the destinations of the scanned packets. *)
Definition written_names (remote : git_remote) (tagspec : git_refspec)
    (pkts : list git_pkt) : list string :=
  match pkts with
  | PktRef head :: rest =>
      if String.eqb (head_name head) GIT_HEAD_FILE
      then GIT_FETCH_HEAD_FILE :: omap (destination remote tagspec) rest
      else omap (destination remote tagspec) pkts
  | _ => omap (destination remote tagspec) pkts
  end.

(** What the reference store promises (the spec's "name→object-id
    mapping"): a successful creation is read back, and a creation leaves
    every other name as it was. *)
Definition refdb_keeps_its_word : Prop :=
  (∀ rdb refname id force e rdb',
      git_reference_create_oid rdb refname id force = (e, rdb') → 0 ≤ e →
      ∃ e', 0 ≤ e' ∧ git_reference_name_to_oid rdb' refname = (e', id))
  ∧ (∀ rdb refname id force e rdb' other,
      git_reference_create_oid rdb refname id force = (e, rdb') → other ≠ refname →
      git_reference_name_to_oid rdb' other = git_reference_name_to_oid rdb other).

(** What the refspec engine promises on a forced pattern pair: the text
    [+src:dst], when accepted as a fetch refspec, is read as the pair with
    the force flag. *)
Definition parse_reads_forced_pair (src dst : string) : Prop :=
  ∀ e spec,
    git_refspec__parse ("+" +:+ src +:+ ":" +:+ dst) true = (e, spec) → 0 ≤ e →
    spec = {| rs_src := Some src; rs_dst := Some dst; rs_force := true |}.

(** The reference store and the object database are the same. *)
Definition same_refs (repo repo' : git_repository) : Prop :=
  repo_refdb repo' = repo_refdb repo ∧ repo_odb repo' = repo_odb repo.

(** A computation relates the repository it leaves to the one it found by
    [R], and logs only events accepted by [ok]. *)
Definition frames (R : git_repository → git_repository → Prop) (ok : store_event → bool)
    {A : Type} (m : M A) : Prop :=
  ∀ w a w', m w = Some (a, w') →
    R (w_repo w) (w_repo w')
    ∧ ∃ evs, w_log w' = w_log w ++ evs ∧ forallb ok evs = true.

(** A computation that, started with a configuration, returns and leaves
    a configuration. *)
Definition configured {A : Type} (m : M A) : Prop :=
  ∀ w, is_Some (repo_config (w_repo w)) →
       ∃ a w', m w = Some (a, w') ∧ is_Some (repo_config (w_repo w')).

End Observations.

(** ** More of [remote.c] *)

(** ** Setters and the connection, lines 372-492 *)

Definition set_transport (remote : git_remote) (transport : option git_transport)
  : git_remote :=
  {| r_name := r_name remote; r_url := r_url remote; r_pushurl := r_pushurl remote;
     r_fetch := r_fetch remote; r_push := r_push remote;
     r_download_tags := r_download_tags remote; r_check_cert := r_check_cert remote;
     r_callbacks := r_callbacks remote; r_transport := transport |}.

(** The remote with the advertisement cut to its first [n] entries. *)
Definition first_entries (n : nat) (remote : git_remote) : git_remote :=
  set_transport remote
    (match r_transport remote with
     | None => None
     | Some transport =>
         Some {| t_connected := t_connected transport;
                 t_refs := take n (t_refs transport) |}
     end).

Section Refspecs.
Context `{Collaborators}.

(** [git_remote_set_fetchspec] and [git_remote_set_pushspec], lines 404-440.
    [git_refspec__free] releases the two strings of the old refspec; the two
    assignments that follow replace them, and nothing assigns the other
    fields of the refspec, the force flag among them. *)
Definition git_remote_set_fetchspec (remote : git_remote) (spec : string)
  : Z * git_remote :=
  let '(error, refspec) := git_refspec__parse spec true in
  if error <? 0 then (-1, remote)
  else
    (0, set_fetch remote {| rs_src := rs_src refspec;
                            rs_dst := rs_dst refspec;
                            rs_force := rs_force (r_fetch remote) |}).

Definition git_remote_set_pushspec (remote : git_remote) (spec : string)
  : Z * git_remote :=
  let '(error, refspec) := git_refspec__parse spec false in
  if error <? 0 then (-1, remote)
  else
    (0, set_push remote {| rs_src := rs_src refspec;
                           rs_dst := rs_dst refspec;
                           rs_force := rs_force (r_push remote) |}).

End Refspecs.

(** Modelled from the spec: the directions are the [GIT_DIR_FETCH] and
    [GIT_DIR_PUSH] of [git2/net.h], which is not among the sources; "any
    other direction value yields no URL". *)
Definition direction_code (direction : git_direction) : Z :=
  match direction with
  | GIT_DIR_FETCH => 0
  | GIT_DIR_PUSH => 1
  end.

(** [git_remote__urlfordirection], line 448. *)
Definition git_remote__urlfordirection (remote : git_remote) (direction : Z)
  : option string :=
  if direction =? direction_code GIT_DIR_FETCH then Some (r_url remote)
  else if direction =? direction_code GIT_DIR_PUSH then
    Some (match r_pushurl remote with
          | Some pushurl => pushurl
          | None => r_url remote
          end)
  else None.

(** What [git_remote_connect] asks of the transport layer, in order. *)
Inductive transport_event :=
| TransportNew (url : string) (rc : Z)
| TransportConnect (check_cert direction rc : Z)
| TransportFree.

Section Connection.

(** The transport layer: [git_transport_new] and the [connect] of the
    transport it made, which is given the certificate check the remote asks
    for and the direction. *)
Variable git_transport_new : string → Z * git_transport.
Variable transport_connect : git_transport → Z → Z → Z * git_transport.

(** [git_remote_connect], line 463. *)
Definition git_remote_connect (remote : git_remote) (direction : Z)
  : Z * git_remote * list transport_event :=
  match git_remote__urlfordirection remote direction with
  | None => (-1, remote, [])
  | Some url =>
      let '(error, t) := git_transport_new url in
      if error <? 0 then (-1, remote, [TransportNew url error])
      else
        let '(rc, t) := transport_connect t (r_check_cert remote) direction in
        if rc <? 0 then
          (-1, remote,
           [TransportNew url error; TransportConnect (r_check_cert remote) direction rc;
            TransportFree])
        else
          (0, set_transport remote (Some t),
           [TransportNew url error; TransportConnect (r_check_cert remote) direction rc])
  end.

End Connection.

(** ** Enumeration: [git_remote_list], lines 685-751 *)

(** Whether [s] ends with [suffix]. *)
Definition has_suffix (suffix s : string) : bool :=
  (String.length suffix <=? String.length s)%nat
  && String.eqb (string_from (String.length s - String.length suffix) s) suffix.

(** [regexec] of the pattern compiled at line 722, which is anchored at
    both ends: [remote.], any text (the group that is captured), [.url].
    A name matches when it starts with [remote.] and ends with [.url], the
    two parts not overlapping, and the group is what lies between them. *)
Definition remote_url_match (name : string) : option string :=
  if String.prefix "remote." name && has_suffix ".url" name
     && (String.length "remote." + String.length ".url" <=? String.length name)%nat
  then Some (String.substring (String.length "remote.")
               (String.length name - String.length "remote." - String.length ".url") name)
  else None.

(** [remote_list_cb], line 690: the result and the vector after the call. *)
Definition remote_list_cb (entry : string * string) (found : list string)
  : Z * list string :=
  match remote_url_match (fst entry) with
  | Some remote_name => (0, found ++ [remote_name])
  | None => (0, found)
  end.

(** Modelled from the spec: [git_config_foreach] is the store's enumerator;
    it visits the entries in the store's order and, as the comment at line
    740 says, turns a failure of the callback into [GIT_EUSER]. *)
Fixpoint remote_list_foreach (entries : list (string * string)) (found : list string)
  : Z * list string :=
  match entries with
  | [] => (0, found)
  | entry :: rest =>
      let '(rc, found) := remote_list_cb entry found in
      if negb (rc =? 0) then (GIT_EUSER, found) else remote_list_foreach rest found
  end.

Section Enumeration.
Context `{Collaborators}.

(** The entries [git_config_foreach] walks through, with the result of a
    walk that the store itself fails. *)
Variable git_config_entries : config_t → Z * list (string * string).

(** [remotes_list] is what the caller's array holds, before and after. *)
Definition git_remote_list (remotes_list : list string) (repo : git_repository)
  : Z * list string :=
  match repo_config repo with
  | None => (-1, remotes_list)
  | Some cfg =>
      let '(failed, entries) := git_config_entries cfg in
      let '(error, found) :=
        if failed <? 0 then (failed, []) else remote_list_foreach entries [] in
      if error <? 0 then (if error =? GIT_EUSER then -1 else error, remotes_list)
      else (0, found)
  end.

End Enumeration.

(** ** What the store laws and the round trips speak about *)

(** A write to the configuration: a value put under a key, or a key
    dropped. *)
Inductive config_write :=
| ConfigPut (key value : string)
| ConfigDrop (key : string).

(** The last write of a script to [key]: [Some (Some v)] for a value put,
    [Some None] for a drop, [None] when the script leaves the key alone. *)
Fixpoint last_write (key : string) (script : list config_write) : option (option string) :=
  match script with
  | [] => None
  | write :: rest =>
      match last_write key rest with
      | Some found => Some found
      | None =>
          match write with
          | ConfigPut k value => if String.eqb k key then Some (Some value) else None
          | ConfigDrop k => if String.eqb k key then Some None else None
          end
      end
  end.

Section StoreLaws.
Context `{Collaborators}.

(** What the configuration store promises (the spec's "key/value store
    ... supports get/set/delete"): a lookup finds a value or fails without
    one; a value that was set is read back; a key that was deleted, or that
    the deletion did not find, is absent; and a write leaves every other
    key as it was. *)
Definition config_keeps_its_word : Prop :=
  (∀ c key e v, git_config_get_string c key = (e, v) →
     (e = 0 ∧ is_Some v) ∨ (e < 0 ∧ v = None))
  ∧ (∀ c key value e c', git_config_set_string c key value = (e, c') → 0 ≤ e →
       git_config_get_string c' key = (0, Some value)
       ∧ ∀ other, other ≠ key →
           git_config_get_string c' other = git_config_get_string c other)
  ∧ (∀ c key e c', git_config_delete c key = (e, c') → 0 ≤ e ∨ e = GIT_ENOTFOUND →
       git_config_get_string c' key = (GIT_ENOTFOUND, None)
       ∧ ∀ other, other ≠ key →
           git_config_get_string c' other = git_config_get_string c other).

(** The store [c'] is what the writes of [script], each of which went
    through, make of [c]. *)
Fixpoint config_written (c : config_t) (script : list config_write) (c' : config_t) : Prop :=
  match script with
  | [] => c' = c
  | ConfigPut key value :: rest =>
      ∃ e c1, git_config_set_string c key value = (e, c1) ∧ 0 ≤ e
              ∧ config_written c1 rest c'
  | ConfigDrop key :: rest =>
      ∃ e c1, git_config_delete c key = (e, c1) ∧ (0 ≤ e ∨ e = GIT_ENOTFOUND)
              ∧ config_written c1 rest c'
  end.

(** The writes of a [git_remote_save] that returns 0, lines 277-349;
    [tagopt] is what the store held under [remote.<name>.tagopt]. *)
Definition refspec_script (name : string) (refspec : git_refspec) (direction : git_direction)
  : list config_write :=
  match rs_src refspec, rs_dst refspec, git_refspec__serialize refspec with
  | Some _, Some _, Some value =>
      [ConfigPut ("remote." +:+ name +:+ "." +:+
                  match direction with GIT_DIR_FETCH => "fetch" | GIT_DIR_PUSH => "push" end)
         value]
  | _, _, _ => []
  end.

Definition tagopt_script (name : string) (tags : git_remote_autotag_option_t)
    (tagopt : option string) : list config_write :=
  let key := "remote." +:+ name +:+ ".tagopt" in
  match tags with
  | GIT_REMOTE_DOWNLOAD_TAGS_ALL => [ConfigPut key "--tags"]
  | GIT_REMOTE_DOWNLOAD_TAGS_NONE => [ConfigPut key "--no-tags"]
  | _ => match tagopt with Some _ => [ConfigDrop key] | None => [] end
  end.

Definition save_script (remote : git_remote) (name : string) (tagopt : option string)
  : list config_write :=
  [ConfigPut ("remote." +:+ name +:+ ".url") (r_url remote);
   match r_pushurl remote with
   | Some pushurl => ConfigPut ("remote." +:+ name +:+ ".pushurl") pushurl
   | None => ConfigDrop ("remote." +:+ name +:+ ".pushurl")
   end]
  ++ refspec_script name (r_fetch remote) GIT_DIR_FETCH
  ++ refspec_script name (r_push remote) GIT_DIR_PUSH
  ++ tagopt_script name (r_download_tags remote) tagopt.

(** A refspec that a save followed by a load carries through the key
    [key] of the configuration [c]: it has both sides and is read back from
    its own serialization, or it is empty and the key is absent. *)
Definition carried_refspec (c : config_t) (key : string) (is_fetch : bool)
    (refspec : git_refspec) : Prop :=
  (is_Some (rs_src refspec) ∧ is_Some (rs_dst refspec)
   ∧ ∃ text, git_refspec__serialize refspec = Some text
             ∧ git_refspec__parse text is_fetch = (0, refspec))
  ∨ (refspec = empty_refspec ∧ fst (git_config_get_string c key) = GIT_ENOTFOUND).

End StoreLaws.

(** The name [rename_one_remote_reference] renames a reference to, lines
    921-925: [refs/remotes/<new>] followed by what the old name holds after
    its first [strlen("refs/remotes/") + strlen(<old>)] characters. *)
Definition renamed_reference (old_remote_name new_remote_name reference_name : string)
  : string :=
  GIT_REFS_REMOTES_DIR +:+ new_remote_name +:+
  string_from (String.length GIT_REFS_REMOTES_DIR + String.length old_remote_name)
    reference_name.

(** The remote [git_remote_load] builds from what [git_remote_save] wrote
    for [remote]: the persisted fields, a [download_tags] that is no longer
    [UNSET], and a fresh remote otherwise. *)
Definition as_loaded (remote : git_remote) : git_remote :=
  {| r_name := r_name remote;
     r_url := r_url remote;
     r_pushurl := r_pushurl remote;
     r_fetch := r_fetch remote;
     r_push := r_push remote;
     r_download_tags :=
       match r_download_tags remote with
       | GIT_REMOTE_DOWNLOAD_TAGS_UNSET => GIT_REMOTE_DOWNLOAD_TAGS_AUTO
       | tags => tags
       end;
     r_check_cert := 1;
     r_callbacks := {| cb_update_tips := None |};
     r_transport := None |}.

Module Cases.

(** An advertisement with a peeled tag, whose name is not a valid reference
    name, and a capability record. *)
Definition peeled : list git_pkt :=
  [Model.adv "refs/heads/master" Model.oid_X; Model.adv "refs/tags/v1^{}" Model.oid_Y;
   PktOther].

Definition peeled_remote : git_remote :=
  Model.origin GIT_REMOTE_DOWNLOAD_TAGS_ALL (Some Model.accept) peeled.

(** The scenario over a store whose [refs/remotes/origin/master] was left
    at an older id. *)
Definition behind : @git_repository Model.collaborators :=
  Model.repository [Model.oid_Y] [] [("refs/remotes/origin/master", Model.oid_Z)].

Definition behind_run
  : Z * @git_repository Model.collaborators * list (nat * tip_event) :=
  default (0, behind, [])
    (@git_remote_update_tips Model.collaborators Model.synced_remote behind).

(** A remote whose fetch refspec has no destination, saved over a
    configuration that still holds an older refspec. *)
Definition half_fetch : git_refspec :=
  {| rs_src := Some "refs/heads/master"; rs_dst := None; rs_force := false |}.

Definition stale_config : list (string * string) :=
  [("remote.origin.fetch", "+refs/heads/*:refs/remotes/origin/*")].

(** The world a save leaves. *)
Definition saved (remote : git_remote) (w : @world Model.collaborators)
  : @world Model.collaborators :=
  match @git_remote_save Model.collaborators remote w with
  | Some (_, w') => w'
  | None => w
  end.

(** A configuration store whose lookups of a [tagopt] key fail with an
    error that is not [GIT_ENOTFOUND]. *)
Definition unreadable_tagopt_get (cfg : list (string * string)) (key : string)
  : Z * option string :=
  if Model.ends_with ".tagopt" key then (-1, None) else Model.config_get cfg key.

Definition unreadable_tagopt : Collaborators :=
  {| odb_t := list git_oid;
     refdb_t := list (string * git_oid);
     config_t := list (string * string);
     git_refspec__parse := Model.parse;
     git_refspec__serialize := Model.serialize;
     git_refspec_src_matches := Model.src_matches;
     git_refspec_transform_r := Model.transform_r;
     git_reference_is_valid_name := Model.valid_name false;
     git_reference_name_to_oid := Model.name_to_oid;
     git_reference_create_oid := Model.create_oid;
     git_reference_list := Model.reference_list;
     git_reference_lookup := Model.reference_lookup;
     git_reference_rename := Model.reference_rename;
     git_odb_exists := Model.odb_exists;
     git_config_get_string := unreadable_tagopt_get;
     git_config_set_string := Model.config_set;
     git_config_delete := Model.config_delete;
     git_config_rename_section := Model.config_rename_section;
     git_config_entries_match := Model.config_entries_match |}.

Definition url_only : list (string * string) :=
  [("remote.origin.url", "git://example.com/repo.git")].

Definition unreadable_world : @world unreadable_tagopt :=
  @Build_world unreadable_tagopt
    (@Build_git_repository unreadable_tagopt (Some []) (Some url_only) []) None [].

(** A reference store with the tracking branches of two remotes and a
    local branch. *)
Definition two_remotes : list (string * git_oid) :=
  [("refs/remotes/origin/master", Model.oid_X);
   ("refs/heads/master", Model.oid_X);
   ("refs/remotes/other/master", Model.oid_Y)].

(** A tracking branch of a remote with a shorter name than [origin]. *)
Definition short_remote : list (string * git_oid) :=
  [("refs/remotes/up/x", Model.oid_X)].

(** Two branches that follow [origin] and one that follows [other]. *)
Definition branches : list (string * string) :=
  [("branch.master.remote", "origin");
   ("branch.next.remote", "other");
   ("branch.topic.remote", "origin");
   ("remote.origin.url", "git://example.com/repo.git")].

(** The persisted [origin] in a repository that holds its remote section,
    with the default refspec, and its tracking branch. *)
Definition origin_world : @world Model.collaborators :=
  Model.world_of
    (Model.origin_config [("remote.origin.fetch", "+refs/heads/*:refs/remotes/origin/*")])
    [("refs/remotes/origin/master", Model.oid_X)].

Definition origin_steps : Z * @world Model.collaborators :=
  default (-1, origin_world)
    (@rename_steps_before_refspec Model.collaborators "origin" "upstream" origin_world).

Definition renamed_origin : Z * git_remote * @world Model.collaborators :=
  default ((-1, Model.persisted Model.origin_fetch), origin_world)
    (@git_remote_rename Model.collaborators (Model.persisted Model.origin_fetch) "upstream"
       None origin_world).

Definition added_again : Z * slot * @world Model.collaborators :=
  default ((-1, Indeterminate), origin_world)
    (@git_remote_add Model.collaborators Indeterminate "origin" "git://example.org/other.git"
       origin_world).

Definition two_remotes_renamed : Z * @world Model.collaborators :=
  default (-1, Model.world_of [] two_remotes)
    (@rename_remote_references Model.collaborators "origin" "upstream"
       (Model.world_of [] two_remotes)).

Definition branches_retargeted : Z * @world Model.collaborators :=
  default (-1, Model.world_of branches [])
    (@update_branch_remote_config_entry Model.collaborators "origin" "upstream"
       (Model.world_of branches [])).

(** A transport layer that opens any url and whose connect succeeds and
    receives the advertisement of the spec's scenario. *)
Definition open_transport (url : string) : Z * git_transport :=
  (0, {| t_connected := false; t_refs := [] |}).

Definition connect_transport (t : git_transport) (check_cert direction : Z)
  : Z * git_transport :=
  (0, {| t_connected := true; t_refs := Model.scenario |}).

Definition connected_anonymous : git_remote :=
  set_transport (Model.anonymous Model.upstream_fetch)
    (Some {| t_connected := true; t_refs := Model.scenario |}).

Definition anonymous_run
  : Z * @git_repository Model.collaborators * list (nat * tip_event) :=
  default (-1, Model.repository [Model.oid_Y] [] [], [])
    (@git_remote_update_tips Model.collaborators connected_anonymous
       (Model.repository [Model.oid_Y] [] [])).

(** A configuration with two remotes, one of which has a dot in its name,
    and a key that only looks like the url of a remote. *)
Definition listing : list (string * string) :=
  [("core.bare", "false");
   ("remote.origin.url", "git://example.com/repo.git");
   ("remote.origin.fetch", "+refs/heads/*:refs/remotes/origin/*");
   ("remote.my.fork.url", "git://example.com/fork.git");
   ("remote.url", "nothing")].

Definition all_entries (cfg : list (string * string)) : Z * list (string * string) :=
  (0, cfg).

End Cases.

(** * Theorems *)

Lemma git_oid_cmp_refl (a : git_oid) : git_oid_cmp a a = 0.
Proof.
  induction a as [|x a IH]; simpl; [reflexivity|].
  rewrite Z.sub_diag. simpl. exact IH.
Qed.

Lemma git_oid_cmp_eq (a b : git_oid) : git_oid_cmp a b = 0 ↔ a = b.
Proof.
  split; [|intros ->; apply git_oid_cmp_refl].
  revert b. induction a as [|x a IH]; intros [|y b]; simpl; try discriminate; [reflexivity|].
  destruct (Z.eqb_spec (Z.of_N (Byte.to_N x) - Z.of_N (Byte.to_N y)) 0) as [Hd|Hd];
    [|intros Hc; contradiction].
  intros Hc. f_equal; [|apply IH, Hc].
  assert (Hn : Byte.to_N x = Byte.to_N y) by lia.
  pose proof (Byte.of_to_N x) as Hx. pose proof (Byte.of_to_N y) as Hy.
  rewrite Hn in Hx. congruence.
Qed.

Section TipFacts.
Context `{Collaborators}.
Variables (remote : git_remote) (odb : odb_t) (tagspec : git_refspec).

(** What one destination can log: nothing, a creation, or a creation
    followed by the notification. *)
Lemma update_ref_cases refname autotag id rdb x rdb' evs :
  update_ref remote odb refname autotag id rdb = (x, rdb', evs) →
  (evs = [] ∧ rdb' = rdb)
  ∨ ∃ e, git_reference_create_oid rdb refname id (negb autotag) = (e, rdb')
         ∧ (autotag = true → git_odb_exists odb id = true)
         ∧ (evs = [RefCreate refname id (negb autotag) e]
            ∨ ∃ old rc update_tips,
                cb_update_tips (r_callbacks remote) = Some update_tips
                ∧ rc = update_tips refname old id
                ∧ ¬ (e < 0 ∧ e ≠ GIT_EEXISTS)
                ∧ evs = [RefCreate refname id (negb autotag) e; TipCallback refname old id rc]).
Proof.
  unfold update_ref. intros Hrun.
  destruct (autotag && negb (git_odb_exists odb id)) eqn:Hauto.
  { inversion Hrun; subst. left. split; reflexivity. }
  destruct (git_reference_name_to_oid rdb refname) as [error found].
  destruct ((error <? 0) && negb (error =? GIT_ENOTFOUND)).
  { inversion Hrun; subst. left. split; reflexivity. }
  destruct (git_oid_cmp _ id =? 0).
  { inversion Hrun; subst. left. split; reflexivity. }
  destruct (git_reference_create_oid rdb refname id (negb autotag)) as [e rdb1] eqn:Hcreate.
  right. exists e.
  assert (Hexists : autotag = true → git_odb_exists odb id = true).
  { intros ->. simpl in Hauto. destruct (git_odb_exists odb id); [reflexivity|discriminate]. }
  destruct ((e <? 0) && negb (e =? GIT_EEXISTS)) eqn:Hfail.
  { inversion Hrun; subst. split; [reflexivity|]. split; [exact Hexists|]. left. reflexivity. }
  assert (Hok : ¬ (e < 0 ∧ e ≠ GIT_EEXISTS)).
  { intros [Hneg Hne]. apply andb_false_iff in Hfail as [Hf|Hf].
    - apply Z.ltb_ge in Hf. lia.
    - apply negb_false_iff, Z.eqb_eq in Hf. contradiction. }
  destruct (cb_update_tips (r_callbacks remote)) as [update_tips|] eqn:Hcb.
  - destruct (update_tips refname _ id <? 0); inversion Hrun; subst;
      (split; [reflexivity|]); (split; [exact Hexists|]); right; eauto 8.
  - inversion Hrun; subst. split; [reflexivity|]. split; [exact Hexists|]. left. reflexivity.
Qed.

(** An event of the scan comes from the turn of the packet at its index. *)
Lemma scan_event_origin pkts : ∀ i rdb rc rdb' tr j ev,
  update_tips_scan remote odb tagspec i pkts rdb = (rc, rdb', tr) →
  (j, ev) ∈ tr →
  (i ≤ j)%nat ∧
  ∃ pkt rdb0 x rdb1 evs,
    pkts !! (j - i)%nat = Some pkt
    ∧ update_one remote odb tagspec pkt rdb0 = (x, rdb1, evs)
    ∧ ev ∈ evs.
Proof.
  induction pkts as [|pkt rest IH]; intros i rdb rc rdb' tr j ev Hrun Hin; simpl in Hrun.
  { inversion Hrun; subst. inversion Hin. }
  destruct (update_one remote odb tagspec pkt rdb) as [[x rdb1] evs] eqn:Hone.
  assert (Hhere : (j, ev) ∈ map (pair i) evs →
    (i ≤ j)%nat ∧ ∃ pkt0 rdb0 x0 rdb2 evs0,
      (pkt :: rest) !! (j - i)%nat = Some pkt0
      ∧ update_one remote odb tagspec pkt0 rdb0 = (x0, rdb2, evs0) ∧ ev ∈ evs0).
  { intros Hmem. apply list_elem_of_fmap in Hmem as [ev' [Heq Hev]].
    inversion Heq; subst. split; [lia|].
    exists pkt, rdb, x, rdb1, evs. rewrite Nat.sub_diag. auto. }
  destruct x.
  - destruct (update_tips_scan remote odb tagspec (S i) rest rdb1) as [[rc2 rdb2] tr2] eqn:Hrest.
    inversion Hrun; subst. apply elem_of_app in Hin as [Hin|Hin]; [auto|].
    destruct (IH _ _ _ _ _ _ _ Hrest Hin) as [Hle (pkt0 & rdb0 & x0 & rdb3 & evs0 & Hlook & Hstep & Hev)].
    split; [lia|]. exists pkt0, rdb0, x0, rdb3, evs0.
    replace (j - i)%nat with (S (j - S i)) by lia. auto.
  - inversion Hrun; subst. auto.
Qed.


(** An aborting event is the last thing its turn does, and the turn leaves
    through [on_error]. *)
Lemma update_one_abort pkt rdb x rdb' evs pre post ev :
  update_one remote odb tagspec pkt rdb = (x, rdb', evs) →
  evs = pre ++ ev :: post →
  aborts ev = true →
  x = OnError ∧ post = [].
Proof.
  unfold update_one, update_ref. intros Hone Hevs Habort.
  assert (Hnil : ∀ l1 l2, [] = l1 ++ ev :: l2 → False)
    by (intros [|] l2; discriminate).
  destruct pkt as [head|]; [|injection Hone as _ _ <-; exfalso; eauto].
  destruct (negb _); [injection Hone as _ _ <-; exfalso; eauto|].
  destruct (tip_target _ _ _ _) as [| |dest autotag];
    try (injection Hone as _ _ <-; exfalso; eauto; fail).
  destruct (autotag && _); [injection Hone as _ _ <-; exfalso; eauto|].
  destruct (git_reference_name_to_oid rdb dest) as [error found].
  destruct ((error <? 0) && _); [injection Hone as _ _ <-; exfalso; eauto|].
  destruct (git_oid_cmp _ _ =? 0); [injection Hone as _ _ <-; exfalso; eauto|].
  destruct (git_reference_create_oid _ _ _ _) as [e rdb1].
  destruct ((e <? 0) && negb (e =? GIT_EEXISTS)) eqn:Hfatal.
  { injection Hone as <- _ Hlog. rewrite Hevs in Hlog.
    destruct pre as [|? [|]]; try discriminate. injection Hlog as _ Hpost. auto. }
  destruct (cb_update_tips _) as [update_tips|].
  - destruct (update_tips dest _ (head_oid head) <? 0) eqn:Hrc;
      injection Hone as <- _ Hlog; rewrite Hevs in Hlog;
      destruct pre as [|? [|? [|]]]; try discriminate; simpl in Hlog.
    + injection Hlog as Hev _. subst ev. simpl in Habort. congruence.
    + injection Hlog as _ _ Hpost. auto.
    + injection Hlog as Hev _. subst ev. simpl in Habort. congruence.
    + injection Hlog as _ Hev _. subst ev. simpl in Habort. congruence.
  - injection Hone as _ _ Hlog. rewrite Hevs in Hlog.
    destruct pre as [|? [|]]; try discriminate.
    injection Hlog as Hev _. subst ev. simpl in Habort. congruence.
Qed.

(** The scan returns [-1] at the first aborting event, and the trace ends
    there: no later entry is looked at. *)
Lemma scan_abort pkts : ∀ i rdb rc rdb' tr pre post j ev,
  update_tips_scan remote odb tagspec i pkts rdb = (rc, rdb', tr) →
  tr = pre ++ (j, ev) :: post →
  aborts ev = true →
  rc = -1 ∧ post = [].
Proof.
  induction pkts as [|pkt rest IH]; intros i rdb rc rdb' tr pre post j ev Hrun Htr Habort;
    simpl in Hrun.
  { injection Hrun as _ _ Htrace. rewrite Htr in Htrace. destruct pre; discriminate. }
  destruct (update_one remote odb tagspec pkt rdb) as [[x rdb1] evs] eqn:Hone.
  assert (Hsplit : ∀ tail, map (pair i) evs ++ tail = pre ++ (j, ev) :: post →
    (∃ pre' post', evs = pre' ++ ev :: post' ∧ post = map (pair i) post' ++ tail)
    ∨ (∃ pre', tail = pre' ++ (j, ev) :: post)).
  { clear. revert pre. induction evs as [|ev0 evs IHevs]; intros pre tail Heq; simpl in Heq.
    - right. eauto.
    - destruct pre as [|p pre]; simpl in Heq.
      + injection Heq as _ Hev Htail. subst ev0 post. left. exists [], evs.
        split; reflexivity.
      + injection Heq as _ Htail.
        destruct (IHevs _ _ Htail) as [(pre' & post' & -> & ->)|(pre' & ->)].
        * left. exists (ev0 :: pre'), post'. split; reflexivity.
        * right. eauto. }
  destruct x.
  - destruct (update_tips_scan remote odb tagspec (S i) rest rdb1) as [[rc2 rdb2] tr2] eqn:Hrest.
    injection Hrun as Hrc Hrdb Htrace. rewrite Htr in Htrace.
    destruct (Hsplit _ Htrace) as [(pre' & post' & Hevs & _)|(pre' & Htail)].
    + destruct (update_one_abort _ _ _ _ _ _ _ _ Hone Hevs Habort). discriminate.
    + subst rc. eapply IH; eauto.
  - injection Hrun as Hrc Hrdb Htrace. rewrite Htr in Htrace.
    split; [symmetry; exact Hrc|].
    rewrite <- (app_nil_r (map (pair i) evs)) in Htrace.
    destruct (Hsplit _ Htrace) as [(pre' & post' & Hevs & ->)|(pre' & Htail)].
    + destruct (update_one_abort _ _ _ _ _ _ _ _ Hone Hevs Habort) as [_ ->]. reflexivity.
    + destruct pre'; discriminate.
Qed.

End TipFacts.

Section RunFacts.
Context `{Collaborators}.

(** An event of a run is the fetch-head creation for a leading HEAD, or
    comes from the scan's turn of the packet at its index. *)
Lemma run_event_origin remote repo rc repo' tr j ev :
  git_remote_update_tips remote repo = Some (rc, repo', tr) →
  (j, ev) ∈ tr →
  ∃ odb tagspec,
    repo_odb repo = Some odb
    ∧ tagspec = snd (git_refspec__parse GIT_REFSPEC_TAGS true)
    ∧ ((j = 0%nat
        ∧ ∃ head e, advertised remote !! 0%nat = Some (PktRef head)
                    ∧ head_name head = GIT_HEAD_FILE
                    ∧ ev = RefCreate GIT_FETCH_HEAD_FILE (head_oid head) true e)
       ∨ ∃ pkt rdb0 x rdb1 evs,
           advertised remote !! j = Some pkt
           ∧ update_one remote odb tagspec pkt rdb0 = (x, rdb1, evs)
           ∧ ev ∈ evs
           ∧ (∀ head, advertised remote !! 0%nat = Some (PktRef head) →
                      head_name head = GIT_HEAD_FILE → (1 ≤ j)%nat)).
Proof.
  unfold git_remote_update_tips, advertised. intros Hrun Hin.
  destruct (r_transport remote) as [transport|]; [|discriminate].
  destruct (t_refs transport) as [|pkt0 rest] eqn:Hrefs.
  { inversion Hrun; subst. inversion Hin. }
  destruct (repo_odb repo) as [odb|]; [|inversion Hrun; subst; inversion Hin].
  destruct (git_refspec__parse GIT_REFSPEC_TAGS true) as [error tagspec].
  exists odb, tagspec. split; [reflexivity|]. split; [reflexivity|].
  destruct (error <? 0); [inversion Hrun; subst; inversion Hin|].
  destruct pkt0 as [head0|]; [|discriminate].
  destruct (String.eqb (head_name head0) GIT_HEAD_FILE) eqn:Hhead.
  - apply String.eqb_eq in Hhead.
    destruct (git_reference_create_oid _ _ _ _) as [e rdb].
    destruct (e <? 0).
    + inversion Hrun; subst. apply list_elem_of_singleton in Hin. inversion Hin; subst.
      left. split; [reflexivity|]. exists head0, e. auto.
    + destruct (update_tips_scan remote odb tagspec 1 rest rdb) as [[rc1 rdb1] tr1] eqn:Hscan.
      inversion Hrun; subst. apply elem_of_cons in Hin as [Hin|Hin].
      * inversion Hin; subst. left. split; [reflexivity|]. exists head0, e. auto.
      * destruct (scan_event_origin _ _ _ _ _ _ _ _ _ _ _ Hscan Hin)
          as [Hle (pkt & rdb0 & x & rdb2 & evs & Hlook & Hstep & Hev)].
        right. exists pkt, rdb0, x, rdb2, evs.
        replace j with (S (j - 1)) at 1 by lia. simpl. auto.
  - destruct (update_tips_scan remote odb tagspec 0 (PktRef head0 :: rest) (repo_refdb repo))
      as [[rc1 rdb1] tr1] eqn:Hscan.
    inversion Hrun; subst.
    destruct (scan_event_origin _ _ _ _ _ _ _ _ _ _ _ Hscan Hin)
      as [Hle (pkt & rdb0 & x & rdb2 & evs & Hlook & Hstep & Hev)].
    right. exists pkt, rdb0, x, rdb2, evs. rewrite Nat.sub_0_r in Hlook.
    repeat split; auto.
    intros head Hfirst Hname. simpl in Hfirst. inversion Hfirst; subst.
    rewrite Hname in Hhead. discriminate.
Qed.

(** C1. With [download_tags = Auto], an advertised entry matched by the
    implicit tag refspec and not by the fetch refspec, whose object is absent
    from the object database, leaves the reference store as it is in its turn
    of the scan, and no event of the run (reference creation or tip
    callback) comes from it.  The tag refspec is assumed not to match the
    name HEAD. *)
Theorem auto_tag_without_object_is_skipped remote repo odb tagspec i head :
  r_download_tags remote = GIT_REMOTE_DOWNLOAD_TAGS_AUTO →
  repo_odb repo = Some odb →
  tagspec = snd (git_refspec__parse GIT_REFSPEC_TAGS true) →
  git_refspec_src_matches tagspec GIT_HEAD_FILE = false →
  advertised remote !! i = Some (PktRef head) →
  git_refspec_src_matches tagspec (head_name head) = true →
  git_refspec_src_matches (r_fetch remote) (head_name head) = false →
  git_odb_exists odb (head_oid head) = false →
  (∀ rdb, update_one remote odb tagspec (PktRef head) rdb = (Next, rdb, []))
  ∧ (∀ rc repo' tr,
       git_remote_update_tips remote repo = Some (rc, repo', tr) →
       ∀ ev, (i, ev) ∉ tr).
Proof.
  intros Hauto Hodb Htag Hnohead Hadv Hmatch Hnofetch Habsent.
  assert (Hskip : ∀ rdb, update_one remote odb tagspec (PktRef head) rdb = (Next, rdb, [])).
  { intros rdb. unfold update_one, tip_target, update_ref.
    destruct (git_reference_is_valid_name (head_name head)); [|reflexivity]. simpl.
    rewrite Hnofetch, Hauto, Hmatch, Habsent. reflexivity. }
  split; [exact Hskip|].
  intros rc repo' tr Hrun ev Hin.
  destruct (run_event_origin _ _ _ _ _ _ _ Hrun Hin) as (odb' & tagspec' & Hodb' & Htag' & Horigin).
  rewrite Hodb in Hodb'. inversion Hodb'; subst odb'. rewrite <- Htag in Htag'. subst tagspec'.
  destruct Horigin as [[-> (head0 & e & Hfirst & Hname & _)]
                      |(pkt & rdb0 & x & rdb1 & evs & Hlook & Hstep & Hev & _)].
  - rewrite Hadv in Hfirst. inversion Hfirst; subst head0.
    rewrite Hname, Hnohead in Hmatch. discriminate.
  - rewrite Hadv in Hlook. inversion Hlook; subst pkt.
    rewrite Hskip in Hstep. inversion Hstep; subst. inversion Hev.
Qed.

(** A negative tip callback, or a reference creation that failed with
    anything but [GIT_EEXISTS], ends the run: the result is [-1] and nothing
    is logged after it. *)
Lemma run_abort remote repo rc repo' tr pre post j ev :
  git_remote_update_tips remote repo = Some (rc, repo', tr) →
  tr = pre ++ (j, ev) :: post →
  aborts ev = true →
  rc = -1 ∧ post = [].
Proof.
  unfold git_remote_update_tips. intros Hrun Htr Habort.
  destruct (r_transport remote) as [transport|]; [|discriminate].
  destruct (t_refs transport) as [|pkt0 rest].
  { injection Hrun as _ _ Htrace. rewrite Htr in Htrace. destruct pre; discriminate. }
  destruct (repo_odb repo) as [odb|];
    [|injection Hrun as _ _ Htrace; rewrite Htr in Htrace; destruct pre; discriminate].
  destruct (git_refspec__parse GIT_REFSPEC_TAGS true) as [error tagspec].
  destruct (error <? 0);
    [injection Hrun as _ _ Htrace; rewrite Htr in Htrace; destruct pre; discriminate|].
  destruct pkt0 as [head0|]; [|discriminate].
  destruct (String.eqb (head_name head0) GIT_HEAD_FILE).
  - destruct (git_reference_create_oid _ _ _ _) as [e rdb].
    destruct (e <? 0) eqn:He.
    + injection Hrun as Hrc _ Htrace. rewrite Htr in Htrace.
      destruct pre as [|? [|]]; try discriminate. injection Htrace as _ Hpost. auto.
    + destruct (update_tips_scan remote odb tagspec 1 rest rdb) as [[rc1 rdb1] tr1] eqn:Hscan.
      injection Hrun as Hrc _ Htrace. rewrite Htr in Htrace. subst rc.
      destruct pre as [|p pre].
      * injection Htrace as _ Hev _. subst ev.
        simpl in Habort. rewrite He in Habort. discriminate.
      * injection Htrace as _ Htail. eapply scan_abort; eauto.
  - destruct (update_tips_scan remote odb tagspec 0 (PktRef head0 :: rest) (repo_refdb repo))
      as [[rc1 rdb1] tr1] eqn:Hscan.
    injection Hrun as Hrc _ Htrace. rewrite Htr in Htrace. subst rc.
    eapply scan_abort; eauto.
Qed.


End RunFacts.

(** On the spec's scenario: the tag [refs/tags/v1], whose object is absent,
    is entry 2 and causes no event. *)
Lemma auto_tag_without_object_is_skipped_witness :
  let remote := Model.origin GIT_REMOTE_DOWNLOAD_TAGS_AUTO (Some Model.accept) Model.scenario in
  (∀ rdb, @update_one Model.collaborators remote [] Model.tagspec (PktRef Model.v1) rdb
          = (Next, rdb, []))
  ∧ (∀ rc repo' tr,
       @git_remote_update_tips Model.collaborators remote (Model.repository [] [] [])
       = Some (rc, repo', tr) →
       ∀ ev, (2%nat, ev) ∉ tr).
Proof.
  apply (@auto_tag_without_object_is_skipped Model.collaborators
           (Model.origin GIT_REMOTE_DOWNLOAD_TAGS_AUTO (Some Model.accept) Model.scenario)
           (Model.repository [] [] []) [] Model.tagspec 2 Model.v1);
    reflexivity.
Defined.


(** C2. A tip callback that returns a negative value stops the run at once
    (the second advertised branch is never looked at), but the run returns
    the generic [-1] of [on_error], not the [GIT_EUSER] that [git_remote_ls]
    and [rename_fetch_refspecs] return for a cancelling callback. *)
Theorem cancelled_tip_update_returns_generic_error :
  @git_remote_update_tips Model.collaborators
    (Model.origin GIT_REMOTE_DOWNLOAD_TAGS_AUTO (Some Model.cancel) Model.two_branches)
    (Model.repository [] [] [])
  = Some (-1,
          Model.repository [] [] [("refs/remotes/origin/master", Model.oid_X)],
          [(0%nat, RefCreate "refs/remotes/origin/master" Model.oid_X true 0);
           (0%nat, TipCallback "refs/remotes/origin/master" zero_oid Model.oid_X (-1))])
  ∧ -1 ≠ GIT_EUSER.
Proof.
  split; [vm_compute; reflexivity|discriminate].
Qed.

(** C6. An automatic tag that collides with a local tag of another value:
    the creation is not forced and is refused with [GIT_EEXISTS], the local
    tag keeps its value, yet the turn goes on to the tip callback as after a
    successful write; with a callback that returns a negative value the run
    fails with [-1]. *)
Theorem auto_tag_collision_is_not_skipped :
  let collision := [(0%nat, RefCreate "refs/tags/v1" Model.oid_Y false GIT_EEXISTS)] in
  @git_remote_update_tips Model.collaborators
    (Model.origin GIT_REMOTE_DOWNLOAD_TAGS_AUTO (Some Model.cancel) [PktRef Model.v1])
    (Model.repository [Model.oid_Y] [] Model.local_v1)
  = Some (-1, Model.repository [Model.oid_Y] [] Model.local_v1,
          collision ++ [(0%nat, TipCallback "refs/tags/v1" Model.oid_Z Model.oid_Y (-1))])
  ∧ @git_remote_update_tips Model.collaborators
      (Model.origin GIT_REMOTE_DOWNLOAD_TAGS_AUTO (Some Model.accept) [PktRef Model.v1])
      (Model.repository [Model.oid_Y] [] Model.local_v1)
    = Some (0, Model.repository [Model.oid_Y] [] Model.local_v1,
            collision ++ [(0%nat, TipCallback "refs/tags/v1" Model.oid_Z Model.oid_Y 0)])
  ∧ @git_remote_update_tips Model.collaborators
      (Model.origin GIT_REMOTE_DOWNLOAD_TAGS_AUTO None [PktRef Model.v1])
      (Model.repository [Model.oid_Y] [] Model.local_v1)
    = Some (0, Model.repository [Model.oid_Y] [] Model.local_v1, collision).
Proof.
  repeat split; vm_compute; reflexivity.
Qed.

Section Idempotence.
Context `{Collaborators}.
Variables (remote : git_remote) (odb : odb_t) (tagspec : git_refspec).
Hypothesis Hstore : refdb_keeps_its_word.

(** A turn that does nothing depends on the store only through the value
    of its destination. *)
Lemma quiet_turn_reads_destination pkt rdb1 rdb2 :
  (∀ d, destination remote tagspec pkt = Some d →
        git_reference_name_to_oid rdb2 d = git_reference_name_to_oid rdb1 d) →
  update_one remote odb tagspec pkt rdb1 = (Next, rdb1, []) →
  update_one remote odb tagspec pkt rdb2 = (Next, rdb2, []).
Proof.
  unfold destination, update_one, update_ref. intros Hsame Hquiet.
  destruct pkt as [head|]; [|reflexivity].
  destruct (git_reference_is_valid_name (head_name head)); [|reflexivity]. simpl in *.
  destruct (tip_target _ _ _ _) as [| |dest autotag]; try reflexivity; [discriminate|].
  rewrite (Hsame dest eq_refl).
  destruct (autotag && _); [reflexivity|].
  destruct (git_reference_name_to_oid rdb1 dest) as [error found].
  destruct ((error <? 0) && _); [discriminate|].
  destruct (git_oid_cmp _ _ =? 0); [reflexivity|].
  destruct (git_reference_create_oid rdb1 _ _ _) as [e rdb'].
  destruct ((e <? 0) && _); [discriminate|].
  destruct (cb_update_tips _) as [update_tips|]; [|discriminate].
  destruct (update_tips _ _ _ <? 0); discriminate.
Qed.

(** After a turn whose creation succeeded, the same turn does nothing. *)
Lemma turn_settles pkt rdb rdb' evs :
  update_one remote odb tagspec pkt rdb = (Next, rdb', evs) →
  (∀ refname id force e, RefCreate refname id force e ∈ evs → 0 ≤ e) →
  update_one remote odb tagspec pkt rdb' = (Next, rdb', []).
Proof.
  unfold update_one. intros Hone Hok.
  destruct pkt as [head|]; [|injection Hone as <- _; reflexivity].
  destruct (negb _); [injection Hone as <- _; reflexivity|].
  destruct (tip_target _ _ _ _) as [| |dest autotag];
    [injection Hone as <- _; reflexivity|discriminate|].
  destruct (update_ref_cases _ _ _ _ _ _ _ _ _ Hone) as [[-> ->]|(e & Hcreate & Hexists & Hevs)].
  { exact Hone. }
  assert (He : 0 ≤ e).
  { destruct Hevs as [->|(old & rc & cb & _ & _ & _ & ->)];
      apply (Hok dest (head_oid head) (negb autotag)); apply elem_of_cons; left; reflexivity. }
  destruct Hstore as [Hread _].
  destruct (Hread _ _ _ _ _ _ Hcreate He) as (e' & He' & Hlookup).
  unfold update_ref. rewrite Hlookup.
  replace (autotag && negb (git_odb_exists odb (head_oid head))) with false
    by (destruct autotag; [rewrite Hexists by reflexivity|]; reflexivity).
  replace (e' <? 0) with false by (symmetry; apply Z.ltb_ge; exact He').
  replace (e' =? GIT_ENOTFOUND) with false
    by (symmetry; apply Z.eqb_neq; unfold GIT_ENOTFOUND; lia).
  simpl. rewrite git_oid_cmp_refl. reflexivity.
Qed.

(** A turn leaves the value of every name but its destination alone. *)
Lemma turn_frame pkt rdb x rdb' evs d :
  update_one remote odb tagspec pkt rdb = (x, rdb', evs) →
  destination remote tagspec pkt ≠ Some d →
  git_reference_name_to_oid rdb' d = git_reference_name_to_oid rdb d.
Proof.
  unfold update_one, destination. intros Hone Hother.
  destruct pkt as [head|]; [|injection Hone as _ <- _; reflexivity].
  destruct (git_reference_is_valid_name (head_name head));
    [|injection Hone as _ <- _; reflexivity].
  simpl in Hone.
  destruct (tip_target _ _ _ _) as [| |dest autotag];
    try (injection Hone as _ <- _; reflexivity).
  destruct (update_ref_cases _ _ _ _ _ _ _ _ _ Hone) as [[_ ->]|(e & Hcreate & _)];
    [reflexivity|].
  destruct Hstore as [_ Hframe].
  apply (Hframe _ _ _ _ _ _ _ Hcreate). congruence.
Qed.

Lemma scan_frame pkts : ∀ i rdb rc rdb' tr d,
  update_tips_scan remote odb tagspec i pkts rdb = (rc, rdb', tr) →
  d ∉ omap (destination remote tagspec) pkts →
  git_reference_name_to_oid rdb' d = git_reference_name_to_oid rdb d.
Proof.
  induction pkts as [|pkt rest IH]; intros i rdb rc rdb' tr d Hrun Hfresh; simpl in Hrun.
  { injection Hrun as _ <- _. reflexivity. }
  destruct (update_one remote odb tagspec pkt rdb) as [[x rdb1] evs] eqn:Hone.
  assert (Hhere : destination remote tagspec pkt ≠ Some d).
  { intros Hd. apply Hfresh. simpl. rewrite Hd. apply elem_of_cons. left. reflexivity. }
  assert (Hrest : d ∉ omap (destination remote tagspec) rest).
  { intros Hd. apply Hfresh. simpl. destruct (destination remote tagspec pkt);
      [apply elem_of_cons; right|]; exact Hd. }
  destruct x.
  - destruct (update_tips_scan remote odb tagspec (S i) rest rdb1) as [[rc2 rdb2] tr2] eqn:Hscan.
    injection Hrun as _ <- _.
    rewrite (IH _ _ _ _ _ _ Hscan Hrest). eapply turn_frame; eauto.
  - injection Hrun as _ <- _. eapply turn_frame; eauto.
Qed.

(** After a successful scan over distinct destinations, every turn of it
    would do nothing. *)
Lemma scan_settles pkts : ∀ i rdb rdb' tr,
  update_tips_scan remote odb tagspec i pkts rdb = (0, rdb', tr) →
  creations_succeeded tr = true →
  NoDup (omap (destination remote tagspec) pkts) →
  ∀ pkt, pkt ∈ pkts → update_one remote odb tagspec pkt rdb' = (Next, rdb', []).
Proof.
  induction pkts as [|pkt rest IH]; intros i rdb rdb' tr Hrun Hok Hnodup pkt0 Hin.
  { inversion Hin. }
  simpl in Hrun.
  destruct (update_one remote odb tagspec pkt rdb) as [[x rdb1] evs] eqn:Hone.
  destruct x; [|discriminate].
  destruct (update_tips_scan remote odb tagspec (S i) rest rdb1) as [[rc2 rdb2] tr2] eqn:Hscan.
  injection Hrun as -> -> <-.
  unfold creations_succeeded in Hok. rewrite forallb_app in Hok.
  apply andb_true_iff in Hok as [Hok1 Hok2].
  assert (Hrest : NoDup (omap (destination remote tagspec) rest)).
  { simpl in Hnodup. destruct (destination remote tagspec pkt);
      [apply NoDup_cons in Hnodup as [_ Hnodup]|]; exact Hnodup. }
  apply elem_of_cons in Hin as [->|Hin]; [|eapply IH; eauto].
  apply (quiet_turn_reads_destination pkt rdb1).
  - intros d Hd. eapply scan_frame; [exact Hscan|].
    simpl in Hnodup. rewrite Hd in Hnodup. apply NoDup_cons in Hnodup as [Hfresh _]. exact Hfresh.
  - eapply turn_settles; [exact Hone|].
    intros refname id force e Hev.
    rewrite forallb_forall in Hok1.
    specialize (Hok1 (i, RefCreate refname id force e)). simpl in Hok1.
    apply Z.leb_le, Hok1. apply in_map, list_elem_of_In, Hev.
Qed.

Lemma scan_quiet pkts : ∀ i rdb,
  (∀ pkt, pkt ∈ pkts → update_one remote odb tagspec pkt rdb = (Next, rdb, [])) →
  update_tips_scan remote odb tagspec i pkts rdb = (0, rdb, []).
Proof.
  induction pkts as [|pkt rest IH]; intros i rdb Hquiet; simpl; [reflexivity|].
  rewrite (Hquiet pkt) by (apply elem_of_cons; left; reflexivity).
  rewrite IH; [reflexivity|].
  intros pkt0 Hin. apply Hquiet. apply elem_of_cons. right. exact Hin.
Qed.

End Idempotence.

Section SecondRun.
Context `{Collaborators}.

Lemma repo_with_refdb_same (repo : git_repository) :
  repo_with_refdb repo (repo_refdb repo) = repo.
Proof. destruct repo; reflexivity. Qed.

(** C4 (amended). Over a reference store that keeps its word, when the
    names one run may write are pairwise distinct and the first run returned
    0 with every reference creation it attempted succeeding, a second run
    from the state the first one left invokes the tip callback zero times
    and writes no reference, except that a leading HEAD entry has the
    fetch-head pseudo-ref created again, forced, with the same id. *)
Theorem second_run_only_rewrites_fetch_head remote repo repo1 tr1 :
  refdb_keeps_its_word →
  NoDup (written_names remote (snd (git_refspec__parse GIT_REFSPEC_TAGS true))
           (advertised remote)) →
  git_remote_update_tips remote repo = Some (0, repo1, tr1) →
  creations_succeeded tr1 = true →
  ∃ rc repo2 tr2,
    git_remote_update_tips remote repo1 = Some (rc, repo2, tr2)
    ∧ ((tr2 = [] ∧ rc = 0 ∧ repo2 = repo1)
       ∨ ∃ head e rdb,
           advertised remote !! 0%nat = Some (PktRef head)
           ∧ head_name head = GIT_HEAD_FILE
           ∧ git_reference_create_oid (repo_refdb repo1) GIT_FETCH_HEAD_FILE
               (head_oid head) true = (e, rdb)
           ∧ tr2 = [(0%nat, RefCreate GIT_FETCH_HEAD_FILE (head_oid head) true e)]
           ∧ rc = (if e <? 0 then -1 else 0)
           ∧ repo2 = repo_with_refdb repo1 rdb).
Proof.
  intros Hstore Hnodup Hrun Hok.
  unfold git_remote_update_tips, advertised in *.
  destruct (r_transport remote) as [transport|]; [|discriminate].
  destruct (t_refs transport) as [|pkt0 rest].
  { injection Hrun as <- <-. exists 0, repo, []. split; [reflexivity|]. left. auto. }
  destruct (repo_odb repo) as [odb|] eqn:Hodb; [|discriminate].
  destruct (git_refspec__parse GIT_REFSPEC_TAGS true) as [error tagspec]. simpl in Hnodup.
  destruct (error <? 0); [discriminate|].
  destruct pkt0 as [head0|]; [|discriminate].
  destruct (String.eqb (head_name head0) GIT_HEAD_FILE) eqn:Hhead.
  - destruct (git_reference_create_oid (repo_refdb repo) _ _ _) as [e rdb].
    destruct (e <? 0) eqn:He; [discriminate|].
    destruct (update_tips_scan remote odb tagspec 1 rest rdb) as [[rc1 rdb1] tr] eqn:Hscan.
    injection Hrun as -> <- <-. simpl in Hok. apply andb_true_iff in Hok as [_ Hok].
    apply NoDup_cons in Hnodup as [Hfresh Hnodup].
    pose proof (scan_settles remote odb tagspec Hstore _ _ _ _ _ Hscan Hok Hnodup) as Hsettled.
    simpl. rewrite Hodb.
    destruct (git_reference_create_oid rdb1 GIT_FETCH_HEAD_FILE (head_oid head0) true)
      as [e2 rdb2] eqn:Hcreate.
    assert (Hquiet : update_tips_scan remote odb tagspec 1 rest rdb2 = (0, rdb2, [])).
    { apply scan_quiet. intros pkt Hin.
      apply (quiet_turn_reads_destination remote odb tagspec pkt rdb1); [|auto].
      intros d Hd. destruct Hstore as [_ Hframe].
      apply (Hframe _ _ _ _ _ _ _ Hcreate).
      intros ->. apply Hfresh. apply list_elem_of_omap. eauto. }
    apply String.eqb_eq in Hhead.
    destruct (e2 <? 0) eqn:He2.
    + eexists _, _, _. split; [reflexivity|]. right. exists head0, e2, rdb2.
      rewrite He2. auto 10.
    + rewrite Hquiet. eexists _, _, _. split; [reflexivity|]. right. exists head0, e2, rdb2.
      rewrite He2. auto 10.
  - destruct (update_tips_scan remote odb tagspec 0 (PktRef head0 :: rest) (repo_refdb repo))
      as [[rc1 rdb1] tr] eqn:Hscan.
    injection Hrun as -> <- <-.
    pose proof (scan_settles remote odb tagspec Hstore _ _ _ _ _ Hscan Hok Hnodup) as Hsettled.
    simpl repo_odb. simpl repo_refdb. rewrite Hodb.
    rewrite (scan_quiet remote odb tagspec _ 0%nat rdb1 Hsettled).
    eexists _, _, _. split; [reflexivity|]. left.
    split; [reflexivity|]. split; [reflexivity|]. reflexivity.
Qed.

End SecondRun.

(** The executable reference store keeps its word. *)
Lemma lookup_set_key_same {V} key (value : V) store :
  Model.lookup_key key (Model.set_key key value store) = Some value.
Proof.
  induction store as [|[k v] rest IH]; simpl.
  - rewrite String.eqb_refl. reflexivity.
  - destruct (String.eqb k key) eqn:Hk; simpl; rewrite Hk; [reflexivity|exact IH].
Qed.

Lemma lookup_set_key_other {V} key other (value : V) store :
  other ≠ key →
  Model.lookup_key other (Model.set_key key value store) = Model.lookup_key other store.
Proof.
  intros Hother. induction store as [|[k v] rest IH]; simpl.
  - destruct (String.eqb_spec key other); [congruence|reflexivity].
  - destruct (String.eqb_spec k key) as [->|Hk]; simpl.
    + destruct (String.eqb_spec key other); [congruence|reflexivity].
    + destruct (String.eqb k other); [reflexivity|exact IH].
Qed.

(** The executable reference store keeps its word. *)
Lemma model_refdb_keeps_its_word : @refdb_keeps_its_word Model.collaborators.
Proof.
  split; simpl; unfold Model.create_oid, Model.name_to_oid.
  - intros rdb refname id force e rdb' Hcreate He. exists 0. split; [lia|].
    destruct (Model.lookup_key refname rdb) as [old|]; [destruct force|];
      injection Hcreate as <- <-; try (unfold GIT_EEXISTS in He; lia);
      rewrite lookup_set_key_same; reflexivity.
  - intros rdb refname id force e rdb' other Hcreate Hother.
    destruct (Model.lookup_key refname rdb) as [old|]; [destruct force|];
      injection Hcreate as <- <-; try reflexivity;
      rewrite lookup_set_key_other by exact Hother; reflexivity.
Qed.

(** On the spec's second scenario, run twice. *)
Lemma second_run_only_rewrites_fetch_head_witness :
  ∃ rc repo2 tr2,
    @git_remote_update_tips Model.collaborators Model.synced_remote Model.after_first_run
    = Some (rc, repo2, tr2)
    ∧ ((tr2 = [] ∧ rc = 0 ∧ repo2 = Model.after_first_run)
       ∨ ∃ head e rdb,
           advertised Model.synced_remote !! 0%nat = Some (PktRef head)
           ∧ head_name head = GIT_HEAD_FILE
           ∧ Model.create_oid (repo_refdb Model.after_first_run) GIT_FETCH_HEAD_FILE
               (head_oid head) true = (e, rdb)
           ∧ tr2 = [(0%nat, RefCreate GIT_FETCH_HEAD_FILE (head_oid head) true e)]
           ∧ rc = (if e <? 0 then -1 else 0)
           ∧ repo2 = repo_with_refdb Model.after_first_run rdb).
Proof.
  apply (@second_run_only_rewrites_fetch_head Model.collaborators Model.synced_remote
           (Model.repository [Model.oid_Y] [] []) Model.after_first_run Model.first_trace).
  - exact model_refdb_keeps_its_word.
  - refine (bool_decide_unpack _ _). vm_compute. exact I.
  - vm_compute. reflexivity.
  - vm_compute. reflexivity.
Defined.

(** C4 as stated fails: after a first run over the single entry HEAD that
    returned 0, the second run creates the fetch-head pseudo-ref again. *)
Lemma second_run_rewrites_fetch_head :
  ¬ (∀ remote repo repo1 tr1 rc repo2 tr2,
       @git_remote_update_tips Model.collaborators remote repo = Some (0, repo1, tr1) →
       @git_remote_update_tips Model.collaborators remote repo1 = Some (rc, repo2, tr2) →
       tr2 = []).
Proof.
  intros Hsilent.
  pose (remote := Model.origin GIT_REMOTE_DOWNLOAD_TAGS_AUTO (Some Model.accept)
                    [Model.adv "HEAD" Model.oid_X]).
  pose (repo1 := Model.repository [] [] [("FETCH_HEAD", Model.oid_X)]).
  pose (fetch_head := [(0%nat, RefCreate "FETCH_HEAD" Model.oid_X true 0)]).
  assert (Hbad : fetch_head = []); [|discriminate].
  apply (Hsilent remote (Model.repository [] [] []) repo1 fetch_head 0 repo1 fetch_head);
    vm_compute; reflexivity.
Qed.

(** Why the amended statement asks for distinct destinations: a branch
    advertised twice with different ids is written and notified twice in
    every run. *)
Example second_run_repeats_duplicates :
  ∃ repo1 tr1 tr2,
    @git_remote_update_tips Model.collaborators
      (Model.origin GIT_REMOTE_DOWNLOAD_TAGS_AUTO (Some Model.accept) Model.twice_master)
      (Model.repository [] [] []) = Some (0, repo1, tr1)
    ∧ creations_succeeded tr1 = true
    ∧ @git_remote_update_tips Model.collaborators
        (Model.origin GIT_REMOTE_DOWNLOAD_TAGS_AUTO (Some Model.accept) Model.twice_master)
        repo1 = Some (0, repo1, tr2)
    ∧ length (List.filter (λ entry, is_callback (snd entry)) tr2) = 2%nat.
Proof.
  eexists _, _, _. repeat split; vm_compute; reflexivity.
Qed.

(** Why it asks for creations that succeeded: a refused automatic tag is
    notified again in every run. *)
Example second_run_repeats_refused_tag :
  let remote := Model.origin GIT_REMOTE_DOWNLOAD_TAGS_AUTO (Some Model.accept) [PktRef Model.v1] in
  let repo := Model.repository [Model.oid_Y] [] Model.local_v1 in
  ∃ tr,
    @git_remote_update_tips Model.collaborators remote repo = Some (0, repo, tr)
    ∧ creations_succeeded tr = false
    ∧ length (List.filter (λ entry, is_callback (snd entry)) tr) = 1%nat.
Proof.
  eexists. repeat split; vm_compute; reflexivity.
Qed.

Section ListingFacts.
Context {P : Type}.
Variable list_cb : git_remote_head → P → Z * P.

(** The enumeration over [pre ++ rest] is the one over [pre], continued
    over [rest] when it was not stopped. *)
Lemma ls_foreach_app pre : ∀ rest payload,
  ls_foreach list_cb (pre ++ rest) payload =
    let '(rc, payload1, seen1) := ls_foreach list_cb pre payload in
    if rc =? 0 then
      let '(rc', payload2, seen2) := ls_foreach list_cb rest payload1 in
      (rc', payload2, seen1 ++ seen2)
    else (rc, payload1, seen1).
Proof.
  induction pre as [|pkt pre IH]; intros rest payload; simpl.
  { destruct (ls_foreach list_cb rest payload) as [[rc p] seen]. reflexivity. }
  destruct pkt as [head|]; [|apply IH].
  destruct (list_cb head payload) as [rc payload1].
  destruct (rc =? 0) eqn:Hrc; simpl; [|reflexivity].
  rewrite IH. destruct (ls_foreach list_cb pre payload1) as [[rc1 p1] seen1].
  destruct (rc1 =? 0); [|reflexivity].
  destruct (ls_foreach list_cb rest p1) as [[rc2 p2] seen2]. reflexivity.
Qed.

(** The visitor only sees heads of ref packets, in order; the result is 0
    after all of them, or [GIT_EUSER]. *)
Lemma ls_foreach_seen pkts : ∀ payload rc payload' seen,
  ls_foreach list_cb pkts payload = (rc, payload', seen) →
  seen `prefix_of` ref_heads pkts
  ∧ ((rc = 0 ∧ seen = ref_heads pkts) ∨ rc = GIT_EUSER).
Proof.
  induction pkts as [|pkt rest IH]; intros payload rc payload' seen Hrun; simpl in Hrun.
  { injection Hrun as <- _ <-. split; [reflexivity|]. left. split; reflexivity. }
  destruct pkt as [head|]; [|apply (IH _ _ _ _ Hrun)].
  change (ref_heads (PktRef head :: rest)) with (head :: ref_heads rest).
  destruct (list_cb head payload) as [rc0 payload1].
  destruct (negb (rc0 =? 0)).
  - injection Hrun as <- _ <-. split; [|right; reflexivity].
    exists (ref_heads rest). reflexivity.
  - destruct (ls_foreach list_cb rest payload1) as [[rc1 p1] seen1] eqn:Hrest.
    injection Hrun as <- _ <-.
    destruct (IH _ _ _ _ Hrest) as [Hprefix Hrc]. split.
    + apply prefix_cons, Hprefix.
    + destruct Hrc as [[-> ->] | ->]; [left; split; reflexivity|right; reflexivity].
Qed.

(** C7. Listing the refs of a remote without a connected transport returns
    -1 with the error "The remote is not connected" (class [GITERR_NET]) and
    the visitor is not called.  On a connected remote the visitor is called
    on heads of ref packets only, in order; the first non-zero result of the
    visitor ends the enumeration with [GIT_EUSER]; when every call returned
    0 the result is 0 and every ref head was visited. *)
Theorem ls_needs_connection_and_visits_refs (remote : git_remote) (payload : P) :
  (git_remote_connected remote = false →
     git_remote_ls remote list_cb payload
     = (-1, Some (GITERR_NET, "The remote is not connected"), payload, []))
  ∧ (git_remote_connected remote = true →
       ∀ rc err payload' seen,
         git_remote_ls remote list_cb payload = (rc, err, payload', seen) →
         seen `prefix_of` ref_heads (advertised remote)
         ∧ ((rc = 0 ∧ seen = ref_heads (advertised remote)) ∨ rc = GIT_EUSER))
  ∧ (git_remote_connected remote = true →
       ∀ pre head post payload1 seen1,
         advertised remote = pre ++ PktRef head :: post →
         ls_foreach list_cb pre payload = (0, payload1, seen1) →
         fst (list_cb head payload1) ≠ 0 →
         git_remote_ls remote list_cb payload
         = (GIT_EUSER, None, snd (list_cb head payload1), seen1 ++ [head])).
Proof.
  unfold git_remote_connected, git_remote_ls, advertised.
  destruct (r_transport remote) as [transport|];
    [|split; [reflexivity|split; intros Hconnected; discriminate Hconnected]].
  destruct (t_connected transport); simpl;
    [|split; [reflexivity|split; intros Hconnected; discriminate Hconnected]].
  split; [intros Hconnected; discriminate Hconnected|split].
  - intros _ rc err payload' seen Hrun.
    destruct (ls_foreach list_cb (t_refs transport) payload) as [[rc0 p0] seen0] eqn:Hscan.
    injection Hrun as <- _ <- <-. apply (ls_foreach_seen _ _ _ _ _ Hscan).
  - intros _ pre head post payload1 seen1 -> Hpre Hstop.
    rewrite ls_foreach_app, Hpre. simpl.
    destruct (list_cb head payload1) as [rc1 payload2]. simpl in *.
    destruct (Z.eqb_spec rc1 0); [contradiction|reflexivity].
Qed.

End ListingFacts.

(** A visitor that stops at [refs/heads/master]: the capability record is
    not shown to it, the tag after the stop is not visited. *)
Lemma ls_needs_connection_and_visits_refs_witness :
  git_remote_ls
    (Model.origin GIT_REMOTE_DOWNLOAD_TAGS_AUTO None Model.listed) Model.stop_at_master 0%nat
  = (GIT_EUSER, None, 2%nat,
     [{| head_name := "HEAD"; head_oid := Model.oid_X |};
      {| head_name := "refs/heads/master"; head_oid := Model.oid_X |}]).
Proof.
  exact (proj2 (proj2 (ls_needs_connection_and_visits_refs Model.stop_at_master
                         (Model.origin GIT_REMOTE_DOWNLOAD_TAGS_AUTO None Model.listed) 0%nat))
           eq_refl
           [Model.adv "HEAD" Model.oid_X; PktOther]
           {| head_name := "refs/heads/master"; head_oid := Model.oid_X |}
           [PktRef Model.v1] 1%nat
           [{| head_name := "HEAD"; head_oid := Model.oid_X |}]
           eq_refl eq_refl ltac:(discriminate)).
Defined.

Section SaveFacts.
Context `{Collaborators}.

(** C10. Saving a remote whose name is absent or empty returns -1 with the
    error "'<name>' is not a valid remote name." (class [GITERR_CONFIG]) and
    does nothing else: the repository, its configuration included, is the
    one before the call, and no store operation is logged. *)
Theorem save_rejects_missing_name (remote : git_remote) (w : world) :
  r_name remote = None ∨ r_name remote = Some "" →
  git_remote_save remote w
  = Some (-1, {| w_repo := w_repo w;
                 w_err := Some (GITERR_CONFIG,
                                "'" +:+ show_name (r_name remote)
                                +:+ "' is not a valid remote name.");
                 w_log := w_log w |}).
Proof.
  intros [Hname|Hname]; unfold git_remote_save, ensure_remote_name_is_valid;
    rewrite Hname; reflexivity.
Qed.

End SaveFacts.

(** Saving an in-memory remote. *)
Lemma save_rejects_missing_name_witness :
  @git_remote_save Model.collaborators (Model.anonymous Model.origin_fetch)
    (Model.world_of [("remote.origin.url", "git://example.com/repo.git")] [])
  = Some (-1, @Build_world Model.collaborators
                (Model.repository [] [("remote.origin.url", "git://example.com/repo.git")] [])
                (Some (GITERR_CONFIG, "'(null)' is not a valid remote name."))
                []).
Proof.
  exact (@save_rejects_missing_name Model.collaborators (Model.anonymous Model.origin_fetch)
           (Model.world_of [("remote.origin.url", "git://example.com/repo.git")] [])
           (or_introl eq_refl)).
Defined.

Lemma prefix_cancel (n a b : string) : String.prefix (n +:+ a) (n +:+ b) = String.prefix a b.
Proof.
  induction n as [|c n IH]; simpl; [reflexivity|].
  destruct (ascii_dec c c); [exact IH|contradiction].
Qed.

(** The keys [remote.<name>.<suffix>] lie below [remote.<name>.]. *)
Lemma key_below_remote (name suffix : string) :
  String.prefix ("remote." +:+ name +:+ ".") ("remote." +:+ name +:+ String "." suffix) = true.
Proof.
  change (String.prefix ("remote." +:+ name +:+ ".") ("remote." +:+ name +:+ String "." suffix))
    with (String.prefix (name +:+ ".") (name +:+ String "." suffix)).
  rewrite prefix_cancel. simpl. destruct suffix; reflexivity.
Qed.

Section Frames.
Context `{Collaborators}.

Lemma bind_inv {A B} (m : M A) (k : A → M B) w r :
  bind m k w = Some r → ∃ a w1, m w = Some (a, w1) ∧ k a w1 = Some r.
Proof. unfold bind. destruct (m w) as [[a w1]|]; [eauto|discriminate]. Qed.

Lemma same_refs_refl repo : same_refs repo repo.
Proof. split; reflexivity. Qed.

Lemma same_refs_trans a b c : same_refs a b → same_refs b c → same_refs a c.
Proof. intros [Hr1 Ho1] [Hr2 Ho2]. split; congruence. Qed.

Section Generic.
Variable R : git_repository → git_repository → Prop.
Variable ok : store_event → bool.
Hypothesis Rrefl : ∀ repo, R repo repo.
Hypothesis Rtrans : ∀ a b c, R a b → R b c → R a c.

Lemma frames_ret {A} (a : A) : frames R ok (ret a).
Proof.
  intros w a' w' Hrun. injection Hrun as _ <-. split; [apply Rrefl|].
  exists []. rewrite app_nil_r. auto.
Qed.

Lemma frames_undefined {A} : frames R ok (@undefined _ A).
Proof. intros w a w' Hrun. discriminate. Qed.

Lemma frames_bind {A B} (m : M A) (k : A → M B) :
  frames R ok m → (∀ a, frames R ok (k a)) → frames R ok (bind m k).
Proof.
  intros Hm Hk w b w' Hrun.
  apply bind_inv in Hrun as (a & w1 & Hfirst & Hthen).
  destruct (Hm _ _ _ Hfirst) as [HR1 (evs1 & Hlog1 & Hok1)].
  destruct (Hk a _ _ _ Hthen) as [HR2 (evs2 & Hlog2 & Hok2)].
  split; [eapply Rtrans; eauto|].
  exists (evs1 ++ evs2). rewrite Hlog2, Hlog1, <- app_assoc, forallb_app, Hok1, Hok2. auto.
Qed.

Lemma frames_giterr_set cls msg : frames R ok (giterr_set cls msg).
Proof.
  intros w a w' Hrun. injection Hrun as _ <-. split; [apply Rrefl|].
  exists []. simpl. rewrite app_nil_r. auto.
Qed.

Lemma frames_free remote :
  (∀ r, ok (RemoteFree r) = true) → frames R ok (git_remote_free remote).
Proof.
  intros Hok w a w' Hrun. destruct remote as [r|]; injection Hrun as _ <-;
    (split; [apply Rrefl|]).
  - exists [RemoteFree r]. simpl. rewrite Hok. auto.
  - exists []. rewrite app_nil_r. auto.
Qed.

Lemma frames_weakptr : frames R ok git_repository_config__weakptr.
Proof.
  intros w a w' Hrun. injection Hrun as _ <-. split; [apply Rrefl|].
  exists []. rewrite app_nil_r. auto.
Qed.

Lemma frames_config_get key : frames R ok (config_get_string key).
Proof.
  intros w a w' Hrun. unfold config_get_string in Hrun.
  destruct (repo_config (w_repo w)); [|discriminate].
  injection Hrun as _ <-. split; [apply Rrefl|].
  exists []. rewrite app_nil_r. auto.
Qed.

End Generic.

Lemma frames_config_set ok key value :
  (∀ rc, ok (ConfigSet key value rc) = true) →
  frames same_refs ok (config_set_string key value).
Proof.
  intros Hok w a w' Hrun. unfold config_set_string in Hrun.
  destruct (repo_config (w_repo w)) as [c|]; [|discriminate].
  destruct (git_config_set_string c key value) as [rc c'].
  injection Hrun as <- <-. split; [split; reflexivity|].
  exists [ConfigSet key value rc]. simpl. rewrite Hok. auto.
Qed.

Lemma frames_config_delete ok key :
  (∀ rc, ok (ConfigDelete key rc) = true) →
  frames same_refs ok (config_delete key).
Proof.
  intros Hok w a w' Hrun. unfold config_delete in Hrun.
  destruct (repo_config (w_repo w)) as [c|]; [|discriminate].
  destruct (git_config_delete c key) as [rc c'].
  injection Hrun as <- <-. split; [split; reflexivity|].
  exists [ConfigDelete key rc]. simpl. rewrite Hok. auto.
Qed.

End Frames.

(** Walks through a computation built from [bind], [ret], conditionals and
    the primitives above; [side] proves that an event is accepted. *)
Ltac frames_walk Rrefl Rtrans side :=
  repeat first
    [ apply (frames_ret _ _ Rrefl)
    | apply frames_undefined
    | apply (frames_giterr_set _ _ Rrefl)
    | apply (frames_weakptr _ _ Rrefl)
    | apply (frames_config_get _ _ Rrefl)
    | apply (frames_free _ _ Rrefl); solve [side]
    | apply frames_config_set; solve [side]
    | apply frames_config_delete; solve [side]
    | apply (frames_bind _ _ Rtrans); [|intros ?]
    | match goal with
      | |- frames _ _ (if ?c then _ else _) => destruct c
      | |- frames _ _ (match ?x with _ => _ end) => destruct x
      end ].

Section PersistenceFrames.
Context `{Collaborators}.

Lemma eq_repo_refl (repo : git_repository) : repo = repo.
Proof. reflexivity. Qed.

Lemma eq_repo_trans (a b c : git_repository) : a = b → b = c → a = c.
Proof. congruence. Qed.

Lemma frames_weaken (R R' : git_repository → git_repository → Prop)
    (ok ok' : store_event → bool) {A} (m : M A) :
  (∀ a b, R a b → R' a b) → (∀ ev, ok ev = true → ok' ev = true) →
  frames R ok m → frames R' ok' m.
Proof.
  intros HR Hok Hm w a w' Hrun.
  destruct (Hm _ _ _ Hrun) as [Hrel (evs & Hlog & Hevs)].
  split; [auto|]. exists evs. split; [exact Hlog|].
  rewrite forallb_forall in *. auto.
Qed.

(** [git_remote_save] only writes the configuration, below
    [remote.<name>.]. *)
Lemma save_frames ok remote :
  (∀ name suffix value rc, r_name remote = Some name →
      ok (ConfigSet ("remote." +:+ name +:+ String "." suffix) value rc) = true) →
  (∀ name suffix rc, r_name remote = Some name →
      ok (ConfigDelete ("remote." +:+ name +:+ String "." suffix) rc) = true) →
  frames same_refs ok (git_remote_save remote).
Proof.
  intros Hset Hdel.
  unfold git_remote_save, ensure_remote_name_is_valid, save_tagopt, update_config_refspec.
  destruct (r_name remote) as [name|] eqn:Hname;
    frames_walk same_refs_refl same_refs_trans
      ltac:(first [intros; apply Hset; reflexivity | intros; apply Hdel; reflexivity]).
Qed.

(** Checking a name reads nothing and logs nothing. *)
Lemma ensure_valid_frames ok name : frames eq ok (ensure_remote_name_is_valid name).
Proof.
  unfold ensure_remote_name_is_valid.
  frames_walk eq_repo_refl eq_repo_trans idtac.
Qed.

(** Loading a remote only reads the configuration; it may release the
    remote it was building. *)
Lemma load_frames ok out name :
  (∀ r, ok (RemoteFree r) = true) → frames eq ok (git_remote_load out name).
Proof.
  intros Hfree.
  unfold git_remote_load, parse_remote_refspec, download_tags_value, load_cleanup.
  frames_walk eq_repo_refl eq_repo_trans ltac:(exact Hfree).
Qed.

Lemma ensure_doesnot_exist_frames ok name :
  (∀ r, ok (RemoteFree r) = true) → frames eq ok (ensure_remote_doesnot_exist name).
Proof.
  intros Hfree. unfold ensure_remote_doesnot_exist.
  apply (frames_bind _ _ eq_repo_trans); [apply load_frames, Hfree|intros [error remote]].
  frames_walk eq_repo_refl eq_repo_trans ltac:(exact Hfree).
Qed.

Lemma report_problematic_frames ok callback serialized :
  (∀ rc, ok (ProblematicRefspec serialized rc) = true) →
  frames eq ok (report_problematic callback serialized).
Proof.
  intros Hok w a w' Hrun. unfold report_problematic in Hrun.
  destruct callback as [cb|]; [|discriminate].
  injection Hrun as _ <-. split; [reflexivity|].
  exists [ProblematicRefspec serialized (cb serialized)]. simpl. rewrite Hok. auto.
Qed.

End PersistenceFrames.

Section RenameFrames.
Context `{Collaborators}.

Lemma any_repo_refl (repo : git_repository) : (λ _ _ : git_repository, True) repo repo.
Proof. exact I. Qed.

Lemma any_repo_trans (a b c : git_repository) :
  (λ _ _ : git_repository, True) a b → (λ _ _ : git_repository, True) b c →
  (λ _ _ : git_repository, True) a c.
Proof. auto. Qed.

Lemma rename_section_frames old_name new_name :
  frames (λ _ _, True) quiet_step (rename_remote_config_section old_name new_name).
Proof.
  intros w a w' Hrun. unfold rename_remote_config_section in Hrun. split; [exact I|].
  destruct (repo_config (w_repo w)) as [c|].
  - destruct (git_config_rename_section _ _ _) as [rc c'].
    injection Hrun as _ <-. eexists [_]. split; reflexivity.
  - injection Hrun as _ <-. exists []. rewrite app_nil_r. auto.
Qed.

Lemma config_foreach_frames cb entries :
  (∀ entry, frames (λ _ _, True) quiet_step (cb entry)) →
  frames (λ _ _, True) quiet_step (config_foreach cb entries).
Proof.
  intros Hcb. induction entries as [|entry rest IH]; simpl.
  - apply (frames_ret _ _ any_repo_refl).
  - apply (frames_bind _ _ any_repo_trans); [apply Hcb|intros rc].
    destruct (negb (rc =? 0)); [apply (frames_ret _ _ any_repo_refl)|exact IH].
Qed.

Lemma update_branch_frames old_name new_name :
  frames (λ _ _, True) quiet_step (update_branch_remote_config_entry old_name new_name).
Proof.
  unfold update_branch_remote_config_entry.
  apply (frames_bind _ _ any_repo_trans); [apply (frames_weakptr _ _ any_repo_refl)|intros rc].
  destruct (rc <? 0); [apply (frames_ret _ _ any_repo_refl)|].
  intros w a w' Hrun. unfold git_config_foreach_match in Hrun.
  destruct (repo_config (w_repo w)); [|discriminate].
  revert w a w' Hrun. apply config_foreach_frames. intros entry.
  unfold update_config_entries_cb.
  destruct (negb _); [apply (frames_ret _ _ any_repo_refl)|].
  apply (frames_weaken same_refs _ quiet_step quiet_step); auto.
  apply frames_config_set. reflexivity.
Qed.

Lemma rename_one_frames reference_name old_name new_name :
  frames (λ _ _, True) quiet_step
    (rename_one_remote_reference reference_name old_name new_name).
Proof.
  intros w a w' Hrun. unfold rename_one_remote_reference in Hrun. split; [exact I|].
  destruct (_ <? _)%nat; [discriminate|].
  destruct (git_reference_lookup _ _ <? 0).
  - injection Hrun as _ <-. exists []. rewrite app_nil_r. auto.
  - destruct (git_reference_rename _ _ _ _) as [error rdb'].
    injection Hrun as _ <-. eexists [_]. split; reflexivity.
Qed.

Lemma rename_references_frames old_name new_name :
  frames (λ _ _, True) quiet_step (rename_remote_references old_name new_name).
Proof.
  intros w a w' Hrun. unfold rename_remote_references in Hrun.
  destruct (git_reference_list _) as [rc names].
  destruct (rc <? 0).
  { injection Hrun as _ <-. split; [exact I|]. exists []. rewrite app_nil_r. auto. }
  revert w a w' Hrun. generalize (List.filter rename_cb names). clear names.
  intros refnames. induction refnames as [|name rest IH]; simpl.
  - apply (frames_ret _ _ any_repo_refl).
  - apply (frames_bind _ _ any_repo_trans); [apply rename_one_frames|intros error].
    destruct (error <? 0); [apply (frames_ret _ _ any_repo_refl)|exact IH].
Qed.

Lemma steps_before_refspec_frames old_name new_name :
  frames (λ _ _, True) quiet_step (rename_steps_before_refspec old_name new_name).
Proof.
  unfold rename_steps_before_refspec.
  apply (frames_bind _ _ any_repo_trans).
  { apply (frames_weaken eq _ quiet_step quiet_step); auto.
    apply ensure_doesnot_exist_frames. reflexivity. }
  intros e1. destruct (e1 <? 0); [apply (frames_ret _ _ any_repo_refl)|].
  apply (frames_bind _ _ any_repo_trans).
  { apply (frames_weaken eq _ quiet_step quiet_step); auto. apply ensure_valid_frames. }
  intros e2. destruct (e2 <? 0); [apply (frames_ret _ _ any_repo_refl)|].
  apply (frames_bind _ _ any_repo_trans); [apply rename_section_frames|].
  intros e3. destruct (e3 <? 0); [apply (frames_ret _ _ any_repo_refl)|].
  apply (frames_bind _ _ any_repo_trans); [apply update_branch_frames|].
  intros e4. destruct (e4 <? 0); [apply (frames_ret _ _ any_repo_refl)|].
  apply (frames_bind _ _ any_repo_trans); [apply rename_references_frames|].
  intros e5. destruct (e5 <? 0); apply (frames_ret _ _ any_repo_refl).
Qed.

End RenameFrames.

Section SaveIsDefined.
Context `{Collaborators}.

Lemma configured_ret {A} (a : A) : configured (ret a).
Proof. intros w Hcfg. exists a, w. auto. Qed.

Lemma configured_bind {A B} (m : M A) (k : A → M B) :
  configured m → (∀ a, configured (k a)) → configured (bind m k).
Proof.
  intros Hm Hk w Hcfg. destruct (Hm w Hcfg) as (a & w1 & Hrun & Hcfg1).
  destruct (Hk a w1 Hcfg1) as (b & w2 & Hthen & Hcfg2).
  exists b, w2. unfold bind. rewrite Hrun. auto.
Qed.

Lemma configured_giterr_set cls msg : configured (giterr_set cls msg).
Proof. intros w Hcfg. eexists _, _. split; [reflexivity|exact Hcfg]. Qed.

Lemma configured_weakptr : configured git_repository_config__weakptr.
Proof. intros w Hcfg. eexists _, _. split; [reflexivity|exact Hcfg]. Qed.

Lemma configured_get key : configured (config_get_string key).
Proof.
  intros w [c Hc]. unfold config_get_string. rewrite Hc.
  eexists _, _. split; [reflexivity|]. rewrite Hc. eauto.
Qed.

Lemma configured_set key value : configured (config_set_string key value).
Proof.
  intros w [c Hc]. unfold config_set_string. rewrite Hc.
  destruct (git_config_set_string c key value) as [rc c'].
  eexists _, _. split; [reflexivity|]. simpl. eauto.
Qed.

Lemma configured_delete key : configured (config_delete key).
Proof.
  intros w [c Hc]. unfold config_delete. rewrite Hc.
  destruct (git_config_delete c key) as [rc c'].
  eexists _, _. split; [reflexivity|]. simpl. eauto.
Qed.

(** [git_remote_save] always returns. *)
Lemma save_returns remote w : ∃ rc w', git_remote_save remote w = Some (rc, w').
Proof.
  destruct (r_name remote) as [name|] eqn:Hname.
  2: { unfold git_remote_save, ensure_remote_name_is_valid. rewrite Hname. simpl. eauto. }
  destruct (repo_config (w_repo w)) as [cfg|] eqn:Hcfg.
  - assert (Hsave : configured (git_remote_save remote)).
    { unfold git_remote_save, ensure_remote_name_is_valid, save_tagopt, update_config_refspec.
      rewrite Hname.
      repeat first
        [ apply configured_ret | apply configured_giterr_set | apply configured_weakptr
        | apply configured_get | apply configured_set | apply configured_delete
        | apply configured_bind; [|intros ?]
        | match goal with
          | |- configured (if ?c then _ else _) => destruct c
          | |- configured (match ?x with _ => _ end) => destruct x
          end ]. }
    destruct (Hsave w) as (rc & w' & Hrun & _); [rewrite Hcfg; eauto|eauto].
  - unfold git_remote_save, ensure_remote_name_is_valid, git_repository_config__weakptr,
      giterr_set, bind, ret.
    rewrite Hname. destruct (negb _); simpl; destruct (_ <? 0); simpl; rewrite ?Hcfg; simpl; eauto.
Qed.

End SaveIsDefined.

Section AddFacts.
Context `{Collaborators}.

(** What [git_remote_add] does when the construction succeeded: the remote
    built from the text [+refs/heads/*:refs/remotes/<name>/*] is stored in
    the caller's variable and handed to [git_remote_save]; when the refspec
    engine reads a forced pair as such, its fetch refspec has the force flag
    and the destination [refs/remotes/<name>/*].  When the save fails that
    remote is released and the result is -1. *)
Lemma add_builds_and_saves (out : slot) (name url : string) (w : world) error spec :
  parse_reads_forced_pair "refs/heads/*" ("refs/remotes/" +:+ name +:+ "/*") →
  git_refspec__parse ("+refs/heads/*:refs/remotes/" +:+ name +:+ "/*") true = (error, spec) →
  0 ≤ error →
  let remote := set_fetch (blank_remote (Some name) url) spec in
  r_fetch remote
  = {| rs_src := Some "refs/heads/*";
       rs_dst := Some ("refs/remotes/" +:+ name +:+ "/*");
       rs_force := true |}
  ∧ ∃ rc w',
      git_remote_save remote w = Some (rc, w')
      ∧ git_remote_add out name url w
        = if rc <? 0
          then Some ((-1, Holds (Some remote)), record_event (RemoteFree remote) w')
          else Some ((0, Holds (Some remote)), w').
Proof.
  intros Hengine Hparse Herror remote. split.
  - apply (Hengine error spec Hparse Herror).
  - destruct (save_returns remote w) as (rc & w' & Hsave).
    exists rc, w'. split; [exact Hsave|].
    unfold git_remote_add, git_remote_new, bind. rewrite Hparse.
    apply Z.ltb_ge in Herror. rewrite Herror. simpl. fold remote. rewrite Hsave.
    unfold add_on_error, slot_read, bind, ret, git_remote_free.
    destruct (rc <? 0); reflexivity.
Qed.

(** What [git_remote_add] does when the construction failed.
    [git_remote_new] has released the remote it was building and has not
    written the caller's variable; [on_error:] then frees what that variable
    holds. *)
Lemma add_after_failed_construction (name url : string) (w : world) error spec :
  git_refspec__parse ("+refs/heads/*:refs/remotes/" +:+ name +:+ "/*") true = (error, spec) →
  error < 0 →
  let partial := set_fetch (blank_remote (Some name) url) spec in
  git_remote_add Indeterminate name url w = None
  ∧ git_remote_add (Holds None) name url w
    = Some ((-1, Holds None), record_event (RemoteFree partial) w)
  ∧ ∀ old,
      git_remote_add (Holds (Some old)) name url w
      = Some ((-1, Holds (Some old)),
              record_event (RemoteFree old) (record_event (RemoteFree partial) w)).
Proof.
  intros Hparse Herror partial.
  apply Z.ltb_lt in Herror.
  unfold git_remote_add, git_remote_new, bind. rewrite Hparse, Herror.
  repeat split.
Qed.

End AddFacts.

(** C9. When the construction fails, [git_remote_add] frees what the
    caller's variable holds, not the remote that was being built, which
    [git_remote_new] has released already.  For the name [bad name], whose
    refspec text the engine rejects: with a variable that was never assigned
    the call is undefined; with a variable that holds a remote of the caller
    that remote is released; only with a [NULL] variable does the call
    release the partial remote alone and return -1. *)
Theorem add_frees_what_it_did_not_build :
  let add out :=
    @git_remote_add Model.collaborators out "bad name" "git://example.com/repo.git"
      (Model.world_of [] []) in
  let partial :=
    set_fetch (blank_remote (Some "bad name") "git://example.com/repo.git")
      (snd (Model.parse "+refs/heads/*:refs/remotes/bad name/*" true)) in
  fst (Model.parse "+refs/heads/*:refs/remotes/bad name/*" true) < 0
  ∧ add Indeterminate = None
  ∧ add (Holds None)
    = Some ((-1, Holds None), record_event (RemoteFree partial) (Model.world_of [] []))
  ∧ add (Holds (Some (Model.origin GIT_REMOTE_DOWNLOAD_TAGS_AUTO None [])))
    = Some ((-1, Holds (Some (Model.origin GIT_REMOTE_DOWNLOAD_TAGS_AUTO None []))),
            record_event (RemoteFree (Model.origin GIT_REMOTE_DOWNLOAD_TAGS_AUTO None []))
              (record_event (RemoteFree partial) (Model.world_of [] []))).
Proof.
  intros add partial.
  assert (Hneg : fst (Model.parse "+refs/heads/*:refs/remotes/bad name/*" true) < 0)
    by (vm_compute; reflexivity).
  split; [exact Hneg|].
  destruct (@add_after_failed_construction Model.collaborators "bad name"
              "git://example.com/repo.git" (Model.world_of [] []) _ _
              (surjective_pairing _) Hneg) as (Hnone & Hnull & Hlive).
  split; [exact Hnone|]. split; [exact Hnull|]. apply Hlive.
Qed.

Section RenameFacts.
Context `{Collaborators}.

Lemma forallb_false_nil {A} (l : list A) : forallb (λ _, false) l = true → l = [].
Proof. destruct l; [reflexivity|discriminate]. Qed.

(** On an in-memory remote [rename_fetch_refspecs] changes nothing: a
    refspec that is not empty is reported to the callback, once, and a
    negative result of the callback makes the result [GIT_EUSER]. *)
Lemma rename_fetch_refspecs_anonymous remote new_name callback w error remote' w' :
  r_name remote = None →
  rename_fetch_refspecs remote new_name callback w = Some ((error, remote'), w') →
  remote' = remote
  ∧ w_repo w' = w_repo w
  ∧ ∃ reported,
      w_log w' = w_log w ++ reported
      ∧ reported =
          match rs_src (r_fetch remote), rs_dst (r_fetch remote) with
          | None, None => []
          | _, _ =>
              match git_refspec__serialize (r_fetch remote), callback with
              | Some text, Some cb => [ProblematicRefspec text (cb text)]
              | _, _ => []
              end
          end
      ∧ ∀ text c, ProblematicRefspec text c ∈ reported → c < 0 → error = GIT_EUSER.
Proof.
  intros Hname Hrun. unfold rename_fetch_refspecs in Hrun. rewrite Hname in Hrun.
  split; [|split].
  - destruct (rs_src (r_fetch remote)), (rs_dst (r_fetch remote));
      destruct (git_refspec__serialize (r_fetch remote)) as [text|];
      try (injection Hrun as _ <- _; reflexivity);
      destruct callback as [cb|]; try discriminate;
      injection Hrun as _ <- _; reflexivity.
  - destruct (rs_src (r_fetch remote)), (rs_dst (r_fetch remote));
      destruct (git_refspec__serialize (r_fetch remote)) as [text|];
      try (injection Hrun as _ _ <-; reflexivity);
      destruct callback as [cb|]; try discriminate;
      injection Hrun as _ _ <-; reflexivity.
  - eexists. split; [|split; [reflexivity|]].
    + destruct (rs_src (r_fetch remote)), (rs_dst (r_fetch remote));
        destruct (git_refspec__serialize (r_fetch remote)) as [text|];
        try (injection Hrun as _ _ <-; rewrite app_nil_r; reflexivity);
        destruct callback as [cb|]; try discriminate;
        injection Hrun as _ _ <-; reflexivity.
    + intros text c Hin Hneg.
      destruct (rs_src (r_fetch remote)), (rs_dst (r_fetch remote));
        destruct (git_refspec__serialize (r_fetch remote)) as [text0|];
        try (inversion Hin; fail);
        destruct callback as [cb|]; try discriminate;
        apply list_elem_of_singleton in Hin; injection Hin as -> ->;
        injection Hrun as <- _ _;
        (destruct (Z.ltb_spec (cb text0) 0); [reflexivity|lia]).
Qed.

Lemma below_new_name_is_expected new_name ev :
  writes_below ("remote." +:+ new_name +:+ ".") ev = true →
  anonymous_rename_event new_name ev = true.
Proof. unfold anonymous_rename_event. intros ->. apply orb_true_r. Qed.

Lemma not_reported_among (ok : store_event → bool) evs text c :
  forallb ok evs = true → ok (ProblematicRefspec text c) = false →
  ProblematicRefspec text c ∉ evs.
Proof.
  intros Hall Hno Hin. rewrite forallb_forall in Hall.
  apply list_elem_of_In, Hall in Hin. congruence.
Qed.

(** C3 (amended). Renaming an in-memory remote does not remap its fetch
    refspec: the refspec is the same after the call, and when it is not
    empty it is reported, once, to the problematic-refspec callback; a
    negative result of the callback ends the call with [GIT_EUSER] and the
    remote as it was.  The reference store is not touched, and the only
    events are releases of remotes, that report, and configuration writes
    below [remote.<new_name>.]: no section is renamed, no
    [branch.<x>.remote] is rewritten and no reference is renamed.  When the
    call returns a non-negative result the in-memory name is the new one and
    the call ended with the one [git_remote_save] of the renamed remote,
    before which the repository was still as the call found it. *)
Theorem rename_of_anonymous_remote remote new_name callback w rc remote' w' :
  r_name remote = None →
  git_remote_rename remote new_name callback w = Some ((rc, remote'), w') →
  r_fetch remote' = r_fetch remote
  ∧ same_refs (w_repo w) (w_repo w')
  ∧ (∃ evs, w_log w' = w_log w ++ evs
            ∧ forallb (anonymous_rename_event new_name) evs = true
            ∧ ∀ text c, ProblematicRefspec text c ∈ evs → c < 0 →
                        rc = GIT_EUSER ∧ remote' = remote)
  ∧ (0 ≤ rc →
       remote' = set_name remote (Some new_name)
       ∧ ∃ w_mid released,
           git_remote_save remote' w_mid = Some (rc, w')
           ∧ w_repo w_mid = w_repo w
           ∧ forallb is_free released = true
           ∧ w_log w_mid = w_log w ++ released ++
               match rs_src (r_fetch remote), rs_dst (r_fetch remote) with
               | None, None => []
               | _, _ =>
                   match git_refspec__serialize (r_fetch remote), callback with
                   | Some text, Some cb => [ProblematicRefspec text (cb text)]
                   | _, _ => []
                   end
               end).
Proof.
  intros Hname Hrun. unfold git_remote_rename in Hrun.
  apply bind_inv in Hrun as (e1 & w1 & Hexist & Hrun).
  destruct (ensure_doesnot_exist_frames is_free new_name (λ _, eq_refl) _ _ _ Hexist)
    as [Hrepo1 (evs1 & Hlog1 & Hfree1)].
  assert (Hevs1 : forallb (anonymous_rename_event new_name) evs1 = true).
  { rewrite forallb_forall in *. intros ev Hev. unfold anonymous_rename_event.
    rewrite (Hfree1 ev Hev). reflexivity. }
  assert (Hquiet1 : ∀ text c, ProblematicRefspec text c ∉ evs1)
    by (intros text c; apply (not_reported_among is_free); auto).
  destruct (e1 <? 0) eqn:He1.
  { injection Hrun as <- <- <-. split; [reflexivity|].
    split; [rewrite <- Hrepo1; apply same_refs_refl|].
    split; [|intros Hok; apply Z.ltb_lt in He1; lia].
    exists evs1. split; [exact Hlog1|]. split; [exact Hevs1|].
    intros text c Hin. destruct (Hquiet1 _ _ Hin). }
  apply bind_inv in Hrun as (e2 & w2 & Hvalid & Hrun).
  destruct (ensure_valid_frames (λ _, false) _ _ _ _ Hvalid) as [Hrepo2 (evs2 & Hlog2 & Hnil)].
  apply forallb_false_nil in Hnil. subst evs2. rewrite app_nil_r in Hlog2.
  destruct (e2 <? 0) eqn:He2.
  { injection Hrun as <- <- <-. split; [reflexivity|].
    split; [rewrite <- Hrepo2, <- Hrepo1; apply same_refs_refl|].
    split; [|intros Hok; apply Z.ltb_lt in He2; lia].
    exists evs1. rewrite Hlog2. split; [exact Hlog1|]. split; [exact Hevs1|].
    intros text c Hin. destruct (Hquiet1 _ _ Hin). }
  rewrite Hname in Hrun.
  apply bind_inv in Hrun as ([e3 r3] & w3 & Hspec & Hrun).
  destruct (rename_fetch_refspecs_anonymous _ _ _ _ _ _ _ Hname Hspec)
    as (-> & Hrepo3 & reported & Hlog3 & Hreported & Hcancel).
  assert (Hexpected : forallb (anonymous_rename_event new_name) reported = true).
  { rewrite Hreported. clear.
    destruct (rs_src (r_fetch remote)), (rs_dst (r_fetch remote)),
      (git_refspec__serialize (r_fetch remote)), callback; reflexivity. }
  destruct (e3 <? 0) eqn:He3.
  { injection Hrun as <- <- <-. split; [reflexivity|].
    split; [rewrite Hrepo3, <- Hrepo2, <- Hrepo1; apply same_refs_refl|].
    split; [|intros Hok; apply Z.ltb_lt in He3; lia].
    exists (evs1 ++ reported). rewrite Hlog3, Hlog2, Hlog1, <- app_assoc.
    split; [reflexivity|]. split; [rewrite forallb_app, Hevs1, Hexpected; reflexivity|].
    intros text c Hin Hneg. apply elem_of_app in Hin as [Hin|Hin];
      [destruct (Hquiet1 _ _ Hin)|]. split; [eauto|reflexivity]. }
  apply bind_inv in Hrun as (rc' & w4 & Hsave & Hrun).
  injection Hrun as <- <- <-.
  destruct (save_frames (writes_below ("remote." +:+ new_name +:+ "."))
              (set_name remote (Some new_name))) with (w := w3) (a := rc') (w' := w4)
    as [Hrefs4 (evs4 & Hlog4 & Hevs4)]; [| |exact Hsave|].
  { intros name suffix value rc Heq. injection Heq as <-. apply key_below_remote. }
  { intros name suffix rc Heq. injection Heq as <-. apply key_below_remote. }
  assert (Hmid : w_repo w3 = w_repo w) by (rewrite Hrepo3, <- Hrepo2, <- Hrepo1; reflexivity).
  split; [reflexivity|]. split; [rewrite <- Hmid; exact Hrefs4|].
  split.
  - exists (evs1 ++ reported ++ evs4).
    split; [rewrite Hlog4, Hlog3, Hlog2, Hlog1, <- !app_assoc; reflexivity|].
    split.
    + rewrite !forallb_app, Hevs1, Hexpected. simpl.
      rewrite forallb_forall in *. intros ev Hev.
      apply below_new_name_is_expected, Hevs4, Hev.
    + intros text c Hin Hneg.
      apply elem_of_app in Hin as [Hin|Hin]; [destruct (Hquiet1 _ _ Hin)|].
      apply elem_of_app in Hin as [Hin|Hin].
      * rewrite (Hcancel _ _ Hin Hneg) in He3. discriminate.
      * exfalso. revert Hin.
        apply (not_reported_among (writes_below ("remote." +:+ new_name +:+ "."))); auto.
  - intros _. split; [reflexivity|]. exists w3, evs1.
    split; [exact Hsave|]. split; [exact Hmid|]. split; [exact Hfree1|].
    rewrite Hlog3, Hlog2, Hlog1, <- app_assoc, Hreported. reflexivity.
Qed.

Lemma quiet_steps_report_nothing (evs : list store_event) :
  forallb quiet_step evs = true → List.filter is_problematic evs = [].
Proof.
  induction evs as [|ev evs IH]; simpl; [reflexivity|].
  unfold quiet_step at 1. destruct (is_problematic ev); simpl; [discriminate|exact IH].
Qed.

(** On a persisted remote whose refspec does not contain
    [:refs/remotes/<name>/], [rename_fetch_refspecs] reports the refspec and
    changes nothing. *)
Lemma rename_fetch_refspecs_nonstandard remote name new_name cb text w :
  r_name remote = Some name →
  rs_src (r_fetch remote) ≠ None ∨ rs_dst (r_fetch remote) ≠ None →
  git_refspec__serialize (r_fetch remote) = Some text →
  strstr text (":refs/remotes/" +:+ name +:+ "/") = None →
  rename_fetch_refspecs remote new_name (Some cb) w
  = Some ((if cb text <? 0 then GIT_EUSER else 0, remote),
          record_event (ProblematicRefspec text (cb text)) w).
Proof.
  intros Hname Hspec Htext Hpos. unfold rename_fetch_refspecs.
  rewrite Htext, Hname, Hpos.
  destruct (rs_src (r_fetch remote)), (rs_dst (r_fetch remote)); try reflexivity.
  destruct Hspec; contradiction.
Qed.

(** C8 (amended). Renaming a persisted remote that has a fetch refspec
    whose serialization does not contain [:refs/remotes/<old>/]: once the
    steps before the refspec succeeded, the callback is called with the
    serialized refspec, and that is the only report of the whole rename;
    the remote keeps its refspec and the step leaves the repository, its
    configuration included, as the earlier steps left it.  The result is 0,
    with the in-memory name changed, unless the callback returned a negative
    value, in which case it is [GIT_EUSER] and the name is kept. *)
Theorem rename_reports_nonstandard_refspec remote old_name new_name cb text w e w3 :
  r_name remote = Some old_name →
  rs_src (r_fetch remote) ≠ None ∨ rs_dst (r_fetch remote) ≠ None →
  git_refspec__serialize (r_fetch remote) = Some text →
  strstr text (":refs/remotes/" +:+ old_name +:+ "/") = None →
  rename_steps_before_refspec old_name new_name w = Some (e, w3) →
  0 ≤ e →
  git_remote_rename remote new_name (Some cb) w
  = Some ((if cb text <? 0 then GIT_EUSER else 0,
           if cb text <? 0 then remote else set_name remote (Some new_name)),
          record_event (ProblematicRefspec text (cb text)) w3)
  ∧ ∃ evs, w_log w3 = w_log w ++ evs ∧ List.filter is_problematic evs = [].
Proof.
  intros Hname Hspec Htext Hpos Hsteps He. split.
  - unfold git_remote_rename, rename_steps_before_refspec, bind in *.
    destruct (ensure_remote_doesnot_exist new_name w) as [[e1 w1]|]; [|discriminate].
    destruct (e1 <? 0) eqn:He1;
      [injection Hsteps as <- <-; apply Z.ltb_lt in He1; lia|].
    destruct (ensure_remote_name_is_valid (Some new_name) w1) as [[e2 w2]|]; [|discriminate].
    destruct (e2 <? 0) eqn:He2;
      [injection Hsteps as <- <-; apply Z.ltb_lt in He2; lia|].
    rewrite Hname.
    destruct (rename_remote_config_section old_name new_name w2) as [[e3 w4]|]; [|discriminate].
    destruct (e3 <? 0) eqn:He3;
      [injection Hsteps as <- <-; apply Z.ltb_lt in He3; lia|].
    destruct (update_branch_remote_config_entry old_name new_name w4) as [[e4 w5]|];
      [|discriminate].
    destruct (e4 <? 0) eqn:He4;
      [injection Hsteps as <- <-; apply Z.ltb_lt in He4; lia|].
    destruct (rename_remote_references old_name new_name w5) as [[e5 w6]|]; [|discriminate].
    destruct (e5 <? 0) eqn:He5;
      [injection Hsteps as <- <-; apply Z.ltb_lt in He5; lia|].
    injection Hsteps as _ <-.
    rewrite (rename_fetch_refspecs_nonstandard _ _ _ _ _ _ Hname Hspec Htext Hpos).
    destruct (cb text <? 0); reflexivity.
  - destruct (steps_before_refspec_frames _ _ _ _ _ Hsteps) as [_ (evs & Hlog & Hquiet)].
    exists evs. split; [exact Hlog|]. apply quiet_steps_report_nothing, Hquiet.
Qed.

End RenameFacts.

(** Renaming an in-memory remote that tracks below [refs/remotes/upstream/]
    to [origin]. *)
Lemma rename_of_anonymous_remote_witness :
  let '(rc, remote', w') := Model.renamed_anonymous in
  r_fetch remote' = Model.upstream_fetch
  ∧ same_refs (w_repo (Model.world_of [] [])) (w_repo w')
  ∧ (∃ evs, w_log w' = w_log (Model.world_of [] []) ++ evs
            ∧ forallb (anonymous_rename_event "origin") evs = true
            ∧ ∀ text c, ProblematicRefspec text c ∈ evs → c < 0 →
                        rc = GIT_EUSER ∧ remote' = Model.anonymous Model.upstream_fetch)
  ∧ (0 ≤ rc →
       remote' = set_name (Model.anonymous Model.upstream_fetch) (Some "origin")
       ∧ ∃ w_mid released,
           @git_remote_save Model.collaborators remote' w_mid = Some (rc, w')
           ∧ w_repo w_mid = w_repo (Model.world_of [] [])
           ∧ forallb is_free released = true
           ∧ w_log w_mid = w_log (Model.world_of [] []) ++ released ++
               [ProblematicRefspec "+refs/heads/*:refs/remotes/upstream/*" 0]).
Proof.
  exact (@rename_of_anonymous_remote Model.collaborators
           (Model.anonymous Model.upstream_fetch) "origin" (Some Model.keep)
           (Model.world_of [] [])
           Model.renamed_anonymous.1.1 Model.renamed_anonymous.1.2 Model.renamed_anonymous.2
           eq_refl eq_refl).
Defined.


(** C3 as stated fails: an in-memory remote tracking below
    [refs/remotes/upstream/] is renamed to [origin] with result 0, and its
    fetch refspec still has the destination [refs/remotes/upstream/*]. *)
Lemma anonymous_rename_does_not_remap :
  ¬ (∀ remote new_name callback w rc remote' w',
       r_name remote = None →
       rs_dst (r_fetch remote) ≠ None →
       @git_remote_rename Model.collaborators remote new_name callback w
       = Some ((rc, remote'), w') →
       0 ≤ rc →
       ∃ rest, rs_dst (r_fetch remote') = Some (GIT_REFS_REMOTES_DIR +:+ new_name +:+ rest)).
Proof.
  intros Hremap.
  assert (Hrun : @git_remote_rename Model.collaborators (Model.anonymous Model.upstream_fetch)
                   "origin" (Some Model.keep) (Model.world_of [] [])
                 = Some ((Model.renamed_anonymous.1.1, Model.renamed_anonymous.1.2),
                         Model.renamed_anonymous.2))
    by (vm_compute; reflexivity).
  assert (Hok : 0 ≤ Model.renamed_anonymous.1.1) by (vm_compute; discriminate).
  assert (Hdst0 : rs_dst (r_fetch (Model.anonymous Model.upstream_fetch)) ≠ None)
    by discriminate.
  destruct (Hremap (Model.anonymous Model.upstream_fetch) _ _ _ _ _ _ eq_refl Hdst0 Hrun Hok)
    as [rest Hdst].
  vm_compute in Hdst. discriminate Hdst.
Qed.

(** Renaming a persisted [origin] that mirrors [refs/heads/*] to
    [upstream]. *)
Lemma rename_reports_nonstandard_refspec_witness :
  @git_remote_rename Model.collaborators (Model.persisted Model.mirror_fetch) "upstream"
    (Some Model.keep) Model.mirror_world
  = Some ((if Model.keep "+refs/heads/*:refs/heads/*" <? 0 then GIT_EUSER else 0,
           if Model.keep "+refs/heads/*:refs/heads/*" <? 0
           then Model.persisted Model.mirror_fetch
           else set_name (Model.persisted Model.mirror_fetch) (Some "upstream")),
          record_event
            (ProblematicRefspec "+refs/heads/*:refs/heads/*"
               (Model.keep "+refs/heads/*:refs/heads/*"))
            Model.mirror_steps.2)
  ∧ ∃ evs, w_log Model.mirror_steps.2 = w_log Model.mirror_world ++ evs
           ∧ List.filter is_problematic evs = [].
Proof.
  apply (@rename_reports_nonstandard_refspec Model.collaborators
           (Model.persisted Model.mirror_fetch) "origin" "upstream" Model.keep
           "+refs/heads/*:refs/heads/*" Model.mirror_world
           Model.mirror_steps.1 Model.mirror_steps.2).
  - reflexivity.
  - left. discriminate.
  - reflexivity.
  - vm_compute. reflexivity.
  - vm_compute. reflexivity.
  - vm_compute. discriminate.
Defined.

(** C8 as stated fails: the serialization [:] of the empty refspec of a
    persisted remote does not contain [:refs/remotes/origin/], the rename
    returns 0, and the callback was never called. *)
Lemma rename_without_refspec_reports_nothing :
  ¬ (∀ remote old_name new_name cb text w rc remote' w',
       r_name remote = Some old_name →
       @git_refspec__serialize Model.collaborators (r_fetch remote) = Some text →
       strstr text (":refs/remotes/" +:+ old_name +:+ "/") = None →
       @git_remote_rename Model.collaborators remote new_name (Some cb) w
       = Some ((rc, remote'), w') →
       0 ≤ rc →
       ∃ evs, w_log w' = w_log w ++ evs
              ∧ length (List.filter is_problematic evs) = 1%nat).
Proof.
  intros Honce.
  pose (run := default ((-1, Model.persisted empty_refspec), Model.bare_world)
                 (@git_remote_rename Model.collaborators (Model.persisted empty_refspec)
                    "upstream" (Some Model.keep) Model.bare_world)).
  assert (Hrun : @git_remote_rename Model.collaborators (Model.persisted empty_refspec)
                   "upstream" (Some Model.keep) Model.bare_world
                 = Some ((run.1.1, run.1.2), run.2))
    by (vm_compute; reflexivity).
  assert (Hok : 0 ≤ run.1.1) by (vm_compute; discriminate).
  destruct (Honce (Model.persisted empty_refspec) "origin" _ _ ":" _ _ _ _
              eq_refl eq_refl eq_refl Hrun Hok)
    as (evs & Hlog & Hcount).
  vm_compute in Hlog. subst evs. vm_compute in Hcount. discriminate Hcount.
Qed.

(** The two scenarios of the spec, run on the executable collaborators:
    with the object of the tag absent, and with it present. *)
Example scenario_object_absent :
  @git_remote_update_tips Model.collaborators Model.synced_remote (Model.repository [] [] [])
  = Some (0,
          Model.repository [] []
            [("FETCH_HEAD", Model.oid_X); ("refs/remotes/origin/master", Model.oid_X)],
          [(0%nat, RefCreate "FETCH_HEAD" Model.oid_X true 0);
           (1%nat, RefCreate "refs/remotes/origin/master" Model.oid_X true 0);
           (1%nat, TipCallback "refs/remotes/origin/master" zero_oid Model.oid_X 0)]).
Proof. vm_compute. reflexivity. Qed.

Example scenario_object_present :
  @git_remote_update_tips Model.collaborators Model.synced_remote
    (Model.repository [Model.oid_Y] [] [])
  = Some (0,
          Model.repository [Model.oid_Y] []
            [("FETCH_HEAD", Model.oid_X); ("refs/remotes/origin/master", Model.oid_X);
             ("refs/tags/v1", Model.oid_Y)],
          [(0%nat, RefCreate "FETCH_HEAD" Model.oid_X true 0);
           (1%nat, RefCreate "refs/remotes/origin/master" Model.oid_X true 0);
           (1%nat, TipCallback "refs/remotes/origin/master" zero_oid Model.oid_X 0);
           (2%nat, RefCreate "refs/tags/v1" Model.oid_Y false 0);
           (2%nat, TipCallback "refs/tags/v1" zero_oid Model.oid_Y 0)]).
Proof. vm_compute. reflexivity. Qed.

(** * More of [remote.c] *)

Section TipRuns.
Context `{Collaborators}.

Lemma scan_result remote odb tagspec pkts : ∀ i rdb rc rdb' tr,
  update_tips_scan remote odb tagspec i pkts rdb = (rc, rdb', tr) → rc = 0 ∨ rc = -1.
Proof.
  induction pkts as [|pkt rest IH]; intros i rdb rc rdb' tr Hrun; simpl in Hrun.
  { injection Hrun as <- _ _. auto. }
  destruct (update_one remote odb tagspec pkt rdb) as [[[] rdb1] evs].
  - destruct (update_tips_scan remote odb tagspec (S i) rest rdb1) as [[rc2 rdb2] tr2] eqn:Hrest.
    injection Hrun as <- _ _. eauto.
  - injection Hrun as <- _ _. auto.
Qed.

(** X1. The result of a run is 0 or -1, a run that returns 0 logged no
    aborting event, and a run leaves the object database and the
    configuration of the repository alone. *)
Theorem update_tips_returns_0_or_minus_1 remote repo rc repo' tr :
  git_remote_update_tips remote repo = Some (rc, repo', tr) →
  (rc = 0 ∨ rc = -1)
  ∧ (rc = 0 → forallb (λ entry, negb (aborts (snd entry))) tr = true)
  ∧ repo_odb repo' = repo_odb repo
  ∧ repo_config repo' = repo_config repo.
Proof.
  intros Hrun. split; [|split].
  - unfold git_remote_update_tips in Hrun.
    destruct (r_transport remote) as [transport|]; [|discriminate].
    destruct (t_refs transport) as [|pkt0 rest]; [injection Hrun as <- _ _; auto|].
    destruct (repo_odb repo) as [odb|]; [|injection Hrun as <- _ _; auto].
    destruct (git_refspec__parse GIT_REFSPEC_TAGS true) as [error tagspec].
    destruct (error <? 0); [injection Hrun as <- _ _; auto|].
    destruct pkt0 as [head0|]; [|discriminate Hrun].
    destruct (String.eqb (head_name head0) GIT_HEAD_FILE).
    + destruct (git_reference_create_oid _ _ _ _) as [e rdb].
      destruct (e <? 0); [injection Hrun as <- _ _; auto|].
      destruct (update_tips_scan remote odb tagspec 1 rest rdb) as [[rc1 rdb1] tr1] eqn:Hscan.
      injection Hrun as <- _ _. eapply scan_result, Hscan.
    + destruct (update_tips_scan remote odb tagspec 0 (PktRef head0 :: rest) (repo_refdb repo))
        as [[rc1 rdb1] tr1] eqn:Hscan.
      injection Hrun as <- _ _. eapply scan_result, Hscan.
  - intros ->. apply forallb_forall. intros [j ev] Hin. simpl.
    destruct (aborts ev) eqn:Habort; [|reflexivity].
    apply list_elem_of_In, list_elem_of_split in Hin as (pre & post & Htr).
    destruct (run_abort _ _ _ _ _ _ _ _ _ Hrun Htr Habort). discriminate.
  - assert (Hrepo : ∃ rdb, repo' = repo_with_refdb repo rdb).
    { unfold git_remote_update_tips in Hrun.
      assert (Hsame : repo = repo_with_refdb repo (repo_refdb repo)) by (destruct repo; reflexivity).
      destruct (r_transport remote) as [transport|]; [|discriminate].
      destruct (t_refs transport) as [|pkt0 rest]; [injection Hrun as _ <- _; eauto|].
      destruct (repo_odb repo) as [odb|]; [|injection Hrun as _ <- _; eauto].
      destruct (git_refspec__parse GIT_REFSPEC_TAGS true) as [error tagspec].
      destruct (error <? 0); [injection Hrun as _ <- _; eauto|].
      destruct pkt0 as [head0|]; [|discriminate].
      destruct (String.eqb (head_name head0) GIT_HEAD_FILE).
      + destruct (git_reference_create_oid _ _ _ _) as [e rdb].
        destruct (e <? 0); [injection Hrun as _ <- _; eauto|].
        destruct (update_tips_scan remote odb tagspec 1 rest rdb) as [[rc1 rdb1] tr1] eqn:Hscan.
        injection Hrun as _ <- _. eauto.
      + destruct (update_tips_scan remote odb tagspec 0 (PktRef head0 :: rest) (repo_refdb repo))
          as [[rc1 rdb1] tr1] eqn:Hscan.
        injection Hrun as _ <- _. eauto. }
    destruct Hrepo as [rdb ->]. split; reflexivity.
Qed.


(** Which destination [tip_target] tracks a name to, read off lines 589-605. *)
Lemma tip_target_tracked spec tagspec mode name refname autotag :
  tip_target spec tagspec mode name = Tracked refname autotag →
  (git_refspec_src_matches spec name = true
   ∧ git_refspec_transform_r spec name = Some refname
   ∧ autotag = false)
  ∨ (git_refspec_src_matches spec name = false
     ∧ git_refspec_src_matches tagspec name = true
     ∧ refname = name
     ∧ mode ≠ GIT_REMOTE_DOWNLOAD_TAGS_NONE
     ∧ autotag = negb (autotag_eqb mode GIT_REMOTE_DOWNLOAD_TAGS_ALL)).
Proof.
  unfold tip_target. intros Htarget.
  destruct (git_refspec_src_matches spec name).
  - left. destruct (git_refspec_transform_r spec name); [|discriminate].
    injection Htarget as <- <-. auto.
  - right. destruct mode; simpl in Htarget; try discriminate;
      destruct (git_refspec_src_matches tagspec name); try discriminate;
      injection Htarget as <- <-; repeat split; discriminate.
Qed.

(** Everything a turn of the loop that logs an event did. *)
Lemma update_one_events remote odb tagspec pkt rdb x rdb' evs :
  update_one remote odb tagspec pkt rdb = (x, rdb', evs) →
  evs ≠ [] →
  ∃ head refname autotag e old,
    pkt = PktRef head
    ∧ git_reference_is_valid_name (head_name head) = true
    ∧ tip_target (r_fetch remote) tagspec (r_download_tags remote) (head_name head)
      = Tracked refname autotag
    ∧ (autotag = true → git_odb_exists odb (head_oid head) = true)
    ∧ old ≠ head_oid head
    ∧ git_reference_create_oid rdb refname (head_oid head) (negb autotag) = (e, rdb')
    ∧ ((evs = [RefCreate refname (head_oid head) (negb autotag) e]
        ∧ (cb_update_tips (r_callbacks remote) = None ∨ (e < 0 ∧ e ≠ GIT_EEXISTS)))
       ∨ ∃ update_tips,
           cb_update_tips (r_callbacks remote) = Some update_tips
           ∧ ¬ (e < 0 ∧ e ≠ GIT_EEXISTS)
           ∧ evs = [RefCreate refname (head_oid head) (negb autotag) e;
                    TipCallback refname old (head_oid head)
                      (update_tips refname old (head_oid head))]).
Proof.
  unfold update_one, update_ref. intros Hone Hsome.
  destruct pkt as [head|]; [|injection Hone as _ _ <-; contradiction].
  destruct (git_reference_is_valid_name (head_name head)) eqn:Hvalid;
    [|injection Hone as _ _ <-; contradiction].
  simpl in Hone.
  destruct (tip_target _ _ _ _) as [| |refname autotag] eqn:Htarget;
    try (injection Hone as _ _ <-; contradiction).
  destruct (autotag && negb (git_odb_exists odb (head_oid head))) eqn:Hauto;
    [injection Hone as _ _ <-; contradiction|].
  assert (Hexists : autotag = true → git_odb_exists odb (head_oid head) = true).
  { intros ->. simpl in Hauto. destruct (git_odb_exists odb (head_oid head));
      [reflexivity|discriminate]. }
  destruct (git_reference_name_to_oid rdb refname) as [error found].
  destruct ((error <? 0) && _); [injection Hone as _ _ <-; contradiction|].
  destruct (git_oid_cmp _ (head_oid head) =? 0) eqn:Hcmp;
    [injection Hone as _ _ <-; contradiction|].
  assert (Hchange : (if error =? GIT_ENOTFOUND then zero_oid else found) ≠ head_oid head).
  { intros Heq. apply Z.eqb_neq in Hcmp. apply Hcmp, git_oid_cmp_eq, Heq. }
  destruct (git_reference_create_oid rdb refname (head_oid head) (negb autotag))
    as [e rdb1] eqn:Hcreate.
  exists head, refname, autotag, e, (if error =? GIT_ENOTFOUND then zero_oid else found).
  do 5 (split; [auto|]).
  destruct ((e <? 0) && negb (e =? GIT_EEXISTS)) eqn:Hfatal.
  { injection Hone as _ <- <-. split; [exact Hcreate|]. left. split; [reflexivity|]. right.
    apply andb_true_iff in Hfatal as [Hneg Hne].
    apply Z.ltb_lt in Hneg. apply negb_true_iff, Z.eqb_neq in Hne. auto. }
  assert (Hok : ¬ (e < 0 ∧ e ≠ GIT_EEXISTS)).
  { intros [Hneg Hne]. apply andb_false_iff in Hfatal as [Hf|Hf].
    - apply Z.ltb_ge in Hf. lia.
    - apply negb_false_iff, Z.eqb_eq in Hf. contradiction. }
  destruct (cb_update_tips (r_callbacks remote)) as [update_tips|].
  - destruct (update_tips refname _ (head_oid head) <? 0); injection Hone as _ <- <-;
      (split; [exact Hcreate|]); right; exists update_tips; auto.
  - injection Hone as _ <- <-. split; [exact Hcreate|]. left. auto.
Qed.

(** An event of the scan comes from the turn of the packet at its index,
    and the trace holds every event of that turn. *)
Lemma scan_turn remote odb tagspec pkts : ∀ i rdb rc rdb' tr j ev,
  update_tips_scan remote odb tagspec i pkts rdb = (rc, rdb', tr) →
  (j, ev) ∈ tr →
  (i ≤ j)%nat ∧
  ∃ pkt rdb0 x rdb1 evs,
    pkts !! (j - i)%nat = Some pkt
    ∧ update_one remote odb tagspec pkt rdb0 = (x, rdb1, evs)
    ∧ ev ∈ evs
    ∧ ∀ ev', ev' ∈ evs → (j, ev') ∈ tr.
Proof.
  induction pkts as [|pkt rest IH]; intros i rdb rc rdb' tr j ev Hrun Hin; simpl in Hrun.
  { injection Hrun as _ _ <-. inversion Hin. }
  destruct (update_one remote odb tagspec pkt rdb) as [[x rdb1] evs] eqn:Hone.
  assert (Hhere : ∀ tail, tr = map (pair i) evs ++ tail → (j, ev) ∈ map (pair i) evs →
    (i ≤ j)%nat ∧ ∃ pkt0 rdb0 x0 rdb2 evs0,
      (pkt :: rest) !! (j - i)%nat = Some pkt0
      ∧ update_one remote odb tagspec pkt0 rdb0 = (x0, rdb2, evs0) ∧ ev ∈ evs0
      ∧ ∀ ev', ev' ∈ evs0 → (j, ev') ∈ tr).
  { intros tail -> Hmem. apply list_elem_of_fmap in Hmem as [ev0 [Heq Hev]].
    injection Heq as -> ->. split; [lia|].
    exists pkt, rdb, x, rdb1, evs. rewrite Nat.sub_diag.
    repeat split; auto. intros ev' Hev'. apply elem_of_app. left.
    apply list_elem_of_fmap. eauto. }
  destruct x.
  - destruct (update_tips_scan remote odb tagspec (S i) rest rdb1) as [[rc2 rdb2] tr2] eqn:Hrest.
    injection Hrun as _ _ <-. apply elem_of_app in Hin as [Hin|Hin]; [eauto|].
    destruct (IH _ _ _ _ _ _ _ Hrest Hin)
      as [Hle (pkt0 & rdb0 & x0 & rdb3 & evs0 & Hlook & Hstep & Hev & Hall)].
    split; [lia|]. exists pkt0, rdb0, x0, rdb3, evs0.
    replace (j - i)%nat with (S (j - S i)) by lia.
    repeat split; auto. intros ev' Hev'. apply elem_of_app. right. auto.
  - injection Hrun as _ _ <-. apply (Hhere []); [rewrite app_nil_r; reflexivity|exact Hin].
Qed.

(** The same for a run: an event is the fetch-head creation of a leading
    HEAD, or belongs to the turn of the entry at its index. *)
Lemma run_turn remote repo rc repo' tr j ev :
  git_remote_update_tips remote repo = Some (rc, repo', tr) →
  (j, ev) ∈ tr →
  ∃ odb,
    repo_odb repo = Some odb
    ∧ ((j = 0%nat
        ∧ ∃ head e, advertised remote !! 0%nat = Some (PktRef head)
                    ∧ head_name head = GIT_HEAD_FILE
                    ∧ ev = RefCreate GIT_FETCH_HEAD_FILE (head_oid head) true e)
       ∨ ∃ pkt rdb0 x rdb1 evs,
           advertised remote !! j = Some pkt
           ∧ update_one remote odb (snd (git_refspec__parse GIT_REFSPEC_TAGS true)) pkt rdb0
             = (x, rdb1, evs)
           ∧ ev ∈ evs
           ∧ (∀ ev', ev' ∈ evs → (j, ev') ∈ tr)
           ∧ (∀ head, advertised remote !! 0%nat = Some (PktRef head) →
                      head_name head = GIT_HEAD_FILE → (1 ≤ j)%nat)).
Proof.
  unfold git_remote_update_tips, advertised. intros Hrun Hin.
  destruct (r_transport remote) as [transport|]; [|discriminate].
  destruct (t_refs transport) as [|pkt0 rest] eqn:Hrefs.
  { injection Hrun as _ _ <-. inversion Hin. }
  destruct (repo_odb repo) as [odb|]; [|injection Hrun as _ _ <-; inversion Hin].
  destruct (git_refspec__parse GIT_REFSPEC_TAGS true) as [error tagspec].
  exists odb. split; [reflexivity|]. simpl.
  destruct (error <? 0); [injection Hrun as _ _ <-; inversion Hin|].
  destruct pkt0 as [head0|]; [|discriminate].
  destruct (String.eqb (head_name head0) GIT_HEAD_FILE) eqn:Hhead.
  - apply String.eqb_eq in Hhead.
    destruct (git_reference_create_oid _ _ _ _) as [e rdb].
    destruct (e <? 0).
    + injection Hrun as _ _ <-. apply list_elem_of_singleton in Hin. injection Hin as -> ->.
      left. split; [reflexivity|]. exists head0, e. auto.
    + destruct (update_tips_scan remote odb tagspec 1 rest rdb) as [[rc1 rdb1] tr1] eqn:Hscan.
      injection Hrun as _ _ <-. apply elem_of_cons in Hin as [Hin|Hin].
      * injection Hin as -> ->. left. split; [reflexivity|]. exists head0, e. auto.
      * destruct (scan_turn _ _ _ _ _ _ _ _ _ _ _ Hscan Hin)
          as [Hle (pkt & rdb0 & x & rdb2 & evs & Hlook & Hstep & Hev & Hall)].
        right. exists pkt, rdb0, x, rdb2, evs.
        replace j with (S (j - 1)) at 1 by lia. simpl.
        repeat split; auto. intros ev' Hev'. apply elem_of_cons. right. auto.
  - destruct (update_tips_scan remote odb tagspec 0 (PktRef head0 :: rest) (repo_refdb repo))
      as [[rc1 rdb1] tr1] eqn:Hscan.
    injection Hrun as _ _ <-.
    destruct (scan_turn _ _ _ _ _ _ _ _ _ _ _ Hscan Hin)
      as [Hle (pkt & rdb0 & x & rdb2 & evs & Hlook & Hstep & Hev & Hall)].
    right. exists pkt, rdb0, x, rdb2, evs. rewrite Nat.sub_0_r in Hlook.
    repeat split; auto.
    intros head Hfirst Hname. simpl in Hfirst. injection Hfirst as <-.
    rewrite Hname in Hhead. discriminate.
Qed.

(** The scan does not look at the advertisement of the remote it is given:
    it walks the list it is handed. *)
Lemma scan_of_first_entries n remote odb tagspec pkts : ∀ i rdb,
  update_tips_scan (first_entries n remote) odb tagspec i pkts rdb
  = update_tips_scan remote odb tagspec i pkts rdb.
Proof.
  induction pkts as [|pkt rest IH]; intros i rdb; [reflexivity|].
  simpl. change (update_one (first_entries n remote) odb tagspec pkt rdb)
    with (update_one remote odb tagspec pkt rdb).
  destruct (update_one remote odb tagspec pkt rdb) as [[[] rdb1] evs]; [|reflexivity].
  rewrite IH. reflexivity.
Qed.

(** The store an entry is looked at with is the one the scan of the
    entries before it leaves, and the events of these entries come first. *)
Lemma scan_reach remote odb tagspec pkts : ∀ i rdb rc rdb' tr j ev,
  update_tips_scan remote odb tagspec i pkts rdb = (rc, rdb', tr) →
  (j, ev) ∈ tr →
  (i ≤ j)%nat ∧
  ∃ rdb0 earlier later pkt x rdb1 evs,
    update_tips_scan remote odb tagspec i (take (j - i) pkts) rdb = (0, rdb0, earlier)
    ∧ tr = earlier ++ later
    ∧ pkts !! (j - i)%nat = Some pkt
    ∧ update_one remote odb tagspec pkt rdb0 = (x, rdb1, evs)
    ∧ ev ∈ evs.
Proof.
  induction pkts as [|pkt rest IH]; intros i rdb rc rdb' tr j ev Hrun Hin; simpl in Hrun.
  { injection Hrun as _ _ <-. inversion Hin. }
  destruct (update_one remote odb tagspec pkt rdb) as [[x rdb1] evs] eqn:Hone.
  assert (Hhere : (j, ev) ∈ map (pair i) evs →
    (i ≤ j)%nat ∧ ∃ rdb0 earlier later pkt0 x0 rdb2 evs0,
      update_tips_scan remote odb tagspec i (take (j - i) (pkt :: rest)) rdb
      = (0, rdb0, earlier)
      ∧ tr = earlier ++ later
      ∧ (pkt :: rest) !! (j - i)%nat = Some pkt0
      ∧ update_one remote odb tagspec pkt0 rdb0 = (x0, rdb2, evs0) ∧ ev ∈ evs0).
  { intros Hmem. apply list_elem_of_fmap in Hmem as [ev0 [Heq Hev]].
    injection Heq as -> ->. split; [lia|].
    exists rdb, [], tr, pkt, x, rdb1, evs. rewrite Nat.sub_diag.
    repeat split; auto. }
  destruct x.
  - destruct (update_tips_scan remote odb tagspec (S i) rest rdb1) as [[rc2 rdb2] tr2] eqn:Hrest.
    injection Hrun as _ _ <-. apply elem_of_app in Hin as [Hin|Hin]; [auto|].
    destruct (IH _ _ _ _ _ _ _ Hrest Hin)
      as [Hle (rdb0 & earlier & later & pkt0 & x0 & rdb3 & evs0
               & Hscan & -> & Hlook & Hstep & Hev)].
    split; [lia|].
    exists rdb0, (map (pair i) evs ++ earlier), later, pkt0, x0, rdb3, evs0.
    replace (j - i)%nat with (S (j - S i)) by lia.
    simpl. rewrite Hone, Hscan, app_assoc. repeat split; auto.
  - injection Hrun as _ _ <-. apply Hhere. exact Hin.
Qed.

(** The same for a run: an event is the fetch-head creation of a leading
    HEAD, or belongs to the turn of the entry at its index, which looks at
    the store that the run over the entries before it leaves. *)
Lemma run_reach remote repo rc repo' tr j ev :
  git_remote_update_tips remote repo = Some (rc, repo', tr) →
  (j, ev) ∈ tr →
  (j = 0%nat ∧ ∃ id e, ev = RefCreate GIT_FETCH_HEAD_FILE id true e)
  ∨ ∃ odb before earlier later pkt x rdb1 evs,
      repo_odb repo = Some odb
      ∧ git_remote_update_tips (first_entries j remote) repo = Some (0, before, earlier)
      ∧ tr = earlier ++ later
      ∧ advertised remote !! j = Some pkt
      ∧ update_one remote odb (snd (git_refspec__parse GIT_REFSPEC_TAGS true)) pkt
          (repo_refdb before)
        = (x, rdb1, evs)
      ∧ ev ∈ evs.
Proof.
  unfold git_remote_update_tips, advertised. intros Hrun Hin.
  cbn [first_entries set_transport r_transport].
  destruct (r_transport remote) as [transport|]; [|discriminate].
  cbn [t_refs].
  destruct (t_refs transport) as [|pkt0 rest] eqn:Hrefs.
  { injection Hrun as _ _ <-. inversion Hin. }
  destruct (repo_odb repo) as [odb|] eqn:Hodb; [|injection Hrun as _ _ <-; inversion Hin].
  destruct (git_refspec__parse GIT_REFSPEC_TAGS true) as [error tagspec].
  cbn [snd].
  destruct (error <? 0) eqn:Herror; [injection Hrun as _ _ <-; inversion Hin|].
  destruct pkt0 as [head0|]; [|discriminate].
  destruct (String.eqb (head_name head0) GIT_HEAD_FILE) eqn:Hhead.
  - destruct (git_reference_create_oid _ _ _ _) as [e rdb] eqn:Hcreate.
    destruct (e <? 0) eqn:He.
    + injection Hrun as _ _ <-. apply list_elem_of_singleton in Hin. injection Hin as -> ->.
      left. eauto.
    + destruct (update_tips_scan remote odb tagspec 1 rest rdb) as [[rc1 rdb1] tr1] eqn:Hscan.
      injection Hrun as _ _ <-. apply elem_of_cons in Hin as [Hin|Hin].
      * injection Hin as -> ->. left. eauto.
      * destruct (scan_reach _ _ _ _ _ _ _ _ _ _ _ Hscan Hin)
          as [Hle (rdb0 & earlier & later & pkt & x & rdb2 & evs
                   & Hpre & -> & Hlook & Hstep & Hev)].
        right.
        exists odb, (repo_with_refdb repo rdb0),
          ((0%nat, RefCreate GIT_FETCH_HEAD_FILE (head_oid head0) true e) :: earlier),
          later, pkt, x, rdb2, evs.
        replace j with (S (j - 1)) at 1 2 by lia.
        cbn [take lookup list_lookup]. rewrite ?Herror, ?Hhead, ?Hcreate, ?He.
        rewrite scan_of_first_entries, Hpre.
        repeat split; auto.
  - destruct (update_tips_scan remote odb tagspec 0 (PktRef head0 :: rest) (repo_refdb repo))
      as [[rc1 rdb1] tr1] eqn:Hscan.
    injection Hrun as _ _ <-.
    destruct (scan_reach _ _ _ _ _ _ _ _ _ _ _ Hscan Hin)
      as [Hle (rdb0 & earlier & later & pkt & x & rdb2 & evs
               & Hpre & -> & Hlook & Hstep & Hev)].
    rewrite Nat.sub_0_r in Hpre, Hlook.
    right. destruct j as [|j].
    + simpl in Hpre. injection Hpre as <- <-.
      exists odb, repo, [], later, pkt, x, rdb2, evs. repeat split; auto.
    + exists odb, (repo_with_refdb repo rdb0), earlier, later, pkt, x, rdb2, evs.
      cbn [take]. rewrite ?Herror, ?Hhead.
      rewrite scan_of_first_entries. cbn [take] in Hpre. rewrite Hpre.
      repeat split; auto.
Qed.

(** What a turn that notifies the callback read from the store. *)
Lemma update_one_callback remote odb tagspec pkt rdb x rdb' evs refname old new status :
  update_one remote odb tagspec pkt rdb = (x, rdb', evs) →
  TipCallback refname old new status ∈ evs →
  ∃ e found,
    git_reference_name_to_oid rdb refname = (e, found)
    ∧ ((e = GIT_ENOTFOUND ∧ old = zero_oid) ∨ (0 ≤ e ∧ old = found)).
Proof.
  unfold update_one, update_ref. intros Hone Hin.
  assert (Hnil : ∀ y r, (y, r, @nil tip_event) = (x, rdb', evs) → False).
  { intros y r Heq. injection Heq as _ _ <-. inversion Hin. }
  destruct pkt as [head|]; [|destruct (Hnil _ _ Hone)].
  destruct (negb (git_reference_is_valid_name (head_name head))); [destruct (Hnil _ _ Hone)|].
  destruct (tip_target _ _ _ _) as [| |dest autotag]; try (destruct (Hnil _ _ Hone)).
  destruct (autotag && negb (git_odb_exists odb (head_oid head))); [destruct (Hnil _ _ Hone)|].
  destruct (git_reference_name_to_oid rdb dest) as [error found] eqn:Hread.
  destruct ((error <? 0) && negb (error =? GIT_ENOTFOUND)) eqn:Hfatal;
    [destruct (Hnil _ _ Hone)|].
  destruct (git_oid_cmp _ (head_oid head) =? 0); [destruct (Hnil _ _ Hone)|].
  destruct (git_reference_create_oid rdb dest (head_oid head) (negb autotag)) as [e rdb1].
  assert (Hold : refname = dest →
                 old = (if error =? GIT_ENOTFOUND then zero_oid else found) →
          ∃ e0 found0,
            git_reference_name_to_oid rdb refname = (e0, found0)
            ∧ ((e0 = GIT_ENOTFOUND ∧ old = zero_oid) ∨ (0 ≤ e0 ∧ old = found0))).
  { intros -> ->. exists error, found. split; [exact Hread|].
    destruct (error =? GIT_ENOTFOUND) eqn:Hnf.
    - left. apply Z.eqb_eq in Hnf. auto.
    - right. split; [|reflexivity].
      apply andb_false_iff in Hfatal as [Hf|Hf]; [apply Z.ltb_ge in Hf; exact Hf|].
      discriminate Hf. }
  destruct ((e <? 0) && negb (e =? GIT_EEXISTS)).
  { injection Hone as _ _ <-. apply list_elem_of_singleton in Hin. discriminate. }
  destruct (cb_update_tips (r_callbacks remote)) as [update_tips|].
  - destruct (update_tips dest _ (head_oid head) <? 0); injection Hone as _ _ <-;
      apply elem_of_cons in Hin as [Hin|Hin]; try discriminate;
      apply list_elem_of_singleton in Hin; injection Hin as Hname Hid _ _;
      apply Hold; assumption.
  - injection Hone as _ _ <-. apply list_elem_of_singleton in Hin. discriminate.
Qed.

(** X2. The tip callback is only called for a change of what the store
    holds.  The old id it is given is the one the store holds under the
    reference name when the entry is reached, that is, in the store that the
    run over the entries before it leaves (the zero id when the name is
    absent there); the new id is the advertised one and they differ.  The
    status in the trace is what the callback returned, and the same entry
    logged the creation of that reference with that id just before, which
    did not fail with anything but [GIT_EEXISTS]. *)
Theorem tip_callback_reports_a_change remote repo rc repo' tr j refname old new status :
  git_remote_update_tips remote repo = Some (rc, repo', tr) →
  (j, TipCallback refname old new status) ∈ tr →
  old ≠ new
  ∧ (∃ name, advertised remote !! j = Some (PktRef {| head_name := name; head_oid := new |}))
  ∧ (∃ update_tips, cb_update_tips (r_callbacks remote) = Some update_tips
                    ∧ status = update_tips refname old new)
  ∧ (∃ force e, (j, RefCreate refname new force e) ∈ tr ∧ ¬ (e < 0 ∧ e ≠ GIT_EEXISTS))
  ∧ ∃ before earlier later e found,
      git_remote_update_tips (first_entries j remote) repo = Some (0, before, earlier)
      ∧ tr = earlier ++ later
      ∧ git_reference_name_to_oid (repo_refdb before) refname = (e, found)
      ∧ ((e = GIT_ENOTFOUND ∧ old = zero_oid) ∨ (0 ≤ e ∧ old = found)).
Proof.
  intros Hrun Hin.
  assert (Hstore : ∃ before earlier later e found,
      git_remote_update_tips (first_entries j remote) repo = Some (0, before, earlier)
      ∧ tr = earlier ++ later
      ∧ git_reference_name_to_oid (repo_refdb before) refname = (e, found)
      ∧ ((e = GIT_ENOTFOUND ∧ old = zero_oid) ∨ (0 ≤ e ∧ old = found))).
  { destruct (run_reach _ _ _ _ _ _ _ Hrun Hin)
      as [[_ (id & e & Hev)]
         |(odb & before & earlier & later & pkt & x & rdb1 & evs
           & _ & Hpre & Htr & _ & Hstep & Hev)]; [discriminate|].
    destruct (update_one_callback _ _ _ _ _ _ _ _ _ _ _ _ Hstep Hev) as (e & found & Hread & Hold).
    exists before, earlier, later, e, found. auto. }
  destruct (run_turn _ _ _ _ _ _ _ Hrun Hin)
    as (odb & _ & [[_ (head & e & _ & _ & Hev)]
                  |(pkt & rdb0 & x & rdb1 & evs & Hlook & Hstep & Hev & Hall & _)]);
    [discriminate|].
  destruct (update_one_events _ _ _ _ _ _ _ _ Hstep)
    as (head & dest & autotag & e & old0 & -> & _ & _ & _ & Hchange & _ & Hevs).
  { intros ->. inversion Hev. }
  destruct Hevs as [[-> _]|(update_tips & Hcb & Hok & ->)].
  { apply list_elem_of_singleton in Hev. discriminate. }
  apply elem_of_cons in Hev as [Hev|Hev]; [discriminate|].
  apply list_elem_of_singleton in Hev. injection Hev as -> -> -> ->.
  split; [exact Hchange|]. split; [exists (head_name head); destruct head; exact Hlook|].
  split; [eauto|]. split; [|exact Hstore].
  exists (negb autotag), e. split; [|exact Hok].
  apply Hall. apply elem_of_cons. left. reflexivity.
Qed.

(** Where a reference creation of a run comes from. *)
Lemma creation_cases remote repo odb rc repo' tr j refname id force e :
  git_remote_update_tips remote repo = Some (rc, repo', tr) →
  repo_odb repo = Some odb →
  (j, RefCreate refname id force e) ∈ tr →
  (j = 0%nat ∧ refname = GIT_FETCH_HEAD_FILE ∧ force = true
   ∧ advertised remote !! 0%nat
     = Some (PktRef {| head_name := GIT_HEAD_FILE; head_oid := id |}))
  ∨ ∃ name,
      advertised remote !! j = Some (PktRef {| head_name := name; head_oid := id |})
      ∧ git_reference_is_valid_name name = true
      ∧ ((git_refspec_src_matches (r_fetch remote) name = true
          ∧ git_refspec_transform_r (r_fetch remote) name = Some refname
          ∧ force = true)
         ∨ (git_refspec_src_matches (r_fetch remote) name = false
            ∧ git_refspec_src_matches (snd (git_refspec__parse GIT_REFSPEC_TAGS true)) name
              = true
            ∧ refname = name
            ∧ r_download_tags remote ≠ GIT_REMOTE_DOWNLOAD_TAGS_NONE
            ∧ force = autotag_eqb (r_download_tags remote) GIT_REMOTE_DOWNLOAD_TAGS_ALL
            ∧ (force = false → git_odb_exists odb id = true))).
Proof.
  intros Hrun Hodb Hin.
  destruct (run_turn _ _ _ _ _ _ _ Hrun Hin)
    as (odb' & Hodb' & [[-> (head & e0 & Hfirst & Hname & Hev)]
                       |(pkt & rdb0 & x & rdb1 & evs & Hlook & Hstep & Hev & _)]).
  { left. injection Hev as -> -> -> _. destruct head as [name id0]. simpl in *.
    subst name. auto. }
  rewrite Hodb in Hodb'. injection Hodb' as <-.
  right.
  destruct (update_one_events _ _ _ _ _ _ _ _ Hstep)
    as (head & dest & autotag & e0 & old & -> & Hvalid & Htarget & Hexists & _ & _ & Hevs).
  { intros ->. inversion Hev. }
  assert (Hcreated : refname = dest ∧ id = head_oid head ∧ force = negb autotag).
  { destruct Hevs as [[-> _]|(update_tips & _ & _ & ->)].
    - apply list_elem_of_singleton in Hev. injection Hev as -> -> -> _. auto.
    - apply elem_of_cons in Hev as [Hev|Hev];
        [|apply list_elem_of_singleton in Hev; discriminate].
      injection Hev as -> -> -> _. auto. }
  destruct Hcreated as (-> & -> & ->).
  exists (head_name head). split; [destruct head; exact Hlook|]. split; [exact Hvalid|].
  destruct (tip_target_tracked _ _ _ _ _ _ Htarget)
    as [(Hmatch & Htransform & ->)|(Hnomatch & Htag & -> & Hmode & ->)].
  - left. auto.
  - right. rewrite negb_involutive. repeat split; auto.
    intros Hforce. apply Hexists. rewrite Hforce. reflexivity.
Qed.

(** X3. Every reference creation of a run follows from the refspecs: it is
    the forced fetch-head of a leading HEAD, or it writes the advertised id
    of the entry at its index, whose name is valid, either forced to the
    fetch refspec's transform of the name, or, for a name only the tag
    refspec matches, under the name itself, forced exactly in mode [ALL],
    never in mode [NONE], and unforced only when the object database has the
    object. *)
Theorem creations_follow_the_refspecs remote repo odb rc repo' tr j refname id force e :
  git_remote_update_tips remote repo = Some (rc, repo', tr) →
  repo_odb repo = Some odb →
  (j, RefCreate refname id force e) ∈ tr →
  (j = 0%nat ∧ refname = GIT_FETCH_HEAD_FILE ∧ force = true
   ∧ advertised remote !! 0%nat
     = Some (PktRef {| head_name := GIT_HEAD_FILE; head_oid := id |}))
  ∨ ∃ name,
      advertised remote !! j = Some (PktRef {| head_name := name; head_oid := id |})
      ∧ git_reference_is_valid_name name = true
      ∧ ((git_refspec_src_matches (r_fetch remote) name = true
          ∧ git_refspec_transform_r (r_fetch remote) name = Some refname
          ∧ force = true)
         ∨ (git_refspec_src_matches (r_fetch remote) name = false
            ∧ git_refspec_src_matches (snd (git_refspec__parse GIT_REFSPEC_TAGS true)) name
              = true
            ∧ refname = name
            ∧ r_download_tags remote ≠ GIT_REMOTE_DOWNLOAD_TAGS_NONE
            ∧ force = autotag_eqb (r_download_tags remote) GIT_REMOTE_DOWNLOAD_TAGS_ALL
            ∧ (force = false → git_odb_exists odb id = true))).
Proof. apply creation_cases. Qed.

(** X4. An entry that is not a ref packet, or whose name is not a valid
    reference name, causes no event: no reference is created for it and the
    tip callback is not called.  (A first entry named HEAD is not looked at
    for validity; a first entry that is not a ref packet is outside the
    function's domain.) *)
Theorem malformed_entries_are_ignored remote repo rc repo' tr i :
  git_remote_update_tips remote repo = Some (rc, repo', tr) →
  (advertised remote !! i = Some PktOther → ∀ ev, (i, ev) ∉ tr)
  ∧ (∀ head, advertised remote !! i = Some (PktRef head) →
             git_reference_is_valid_name (head_name head) = false →
             (i = 0%nat → head_name head ≠ GIT_HEAD_FILE) →
             ∀ ev, (i, ev) ∉ tr).
Proof.
  intros Hrun. split.
  - intros Hadv ev Hin.
    destruct (run_turn _ _ _ _ _ _ _ Hrun Hin)
      as (odb & _ & [[-> (head & e & Hfirst & _)]
                    |(pkt & rdb0 & x & rdb1 & evs & Hlook & Hstep & Hev & _)]).
    + rewrite Hadv in Hfirst. discriminate.
    + rewrite Hadv in Hlook. injection Hlook as <-. simpl in Hstep.
      injection Hstep as _ _ <-. inversion Hev.
  - intros head Hadv Hinvalid Hnohead ev Hin.
    destruct (run_turn _ _ _ _ _ _ _ Hrun Hin)
      as (odb & _ & [[-> (head0 & e & Hfirst & Hname & _)]
                    |(pkt & rdb0 & x & rdb1 & evs & Hlook & Hstep & Hev & _)]).
    + rewrite Hadv in Hfirst. injection Hfirst as <-. apply Hnohead; auto.
    + rewrite Hadv in Hlook. injection Hlook as <-. unfold update_one in Hstep.
      rewrite Hinvalid in Hstep. simpl in Hstep. injection Hstep as _ _ <-. inversion Hev.
Qed.

Lemma update_one_tags_mode remote odb tagspec pkt rdb :
  update_one (set_download_tags remote GIT_REMOTE_DOWNLOAD_TAGS_UNSET) odb tagspec pkt rdb
  = update_one (set_download_tags remote GIT_REMOTE_DOWNLOAD_TAGS_AUTO) odb tagspec pkt rdb.
Proof. reflexivity. Qed.

Lemma scan_tags_mode remote odb tagspec pkts : ∀ i rdb,
  update_tips_scan (set_download_tags remote GIT_REMOTE_DOWNLOAD_TAGS_UNSET) odb tagspec i pkts rdb
  = update_tips_scan (set_download_tags remote GIT_REMOTE_DOWNLOAD_TAGS_AUTO) odb tagspec i pkts rdb.
Proof.
  induction pkts as [|pkt rest IH]; intros i rdb; simpl; [reflexivity|].
  rewrite update_one_tags_mode.
  destruct (update_one _ odb tagspec pkt rdb) as [[[] rdb1] evs]; [|reflexivity].
  rewrite IH. reflexivity.
Qed.

(** X5. Tip synchronization treats a [download_tags] of [UNSET], which is
    what [memset] leaves in a remote built by [git_remote_new] with a name,
    exactly as [AUTO]. *)
Theorem unset_tags_are_followed_as_auto remote repo :
  git_remote_update_tips (set_download_tags remote GIT_REMOTE_DOWNLOAD_TAGS_UNSET) repo
  = git_remote_update_tips (set_download_tags remote GIT_REMOTE_DOWNLOAD_TAGS_AUTO) repo.
Proof.
  unfold git_remote_update_tips. cbn [r_transport set_download_tags].
  destruct (r_transport remote) as [transport|]; [|reflexivity].
  destruct (t_refs transport) as [|pkt0 rest]; [reflexivity|].
  destruct (repo_odb repo) as [odb|]; [|reflexivity].
  destruct (git_refspec__parse GIT_REFSPEC_TAGS true) as [error tagspec].
  destruct (error <? 0); [reflexivity|].
  destruct pkt0 as [head0|]; [|reflexivity].
  destruct (String.eqb (head_name head0) GIT_HEAD_FILE).
  - destruct (git_reference_create_oid _ _ _ _) as [e rdb].
    destruct (e <? 0); [reflexivity|]. rewrite scan_tags_mode. reflexivity.
  - rewrite scan_tags_mode. reflexivity.
Qed.

End TipRuns.

Lemma update_tips_returns_0_or_minus_1_witness :
  (0 = 0 ∨ 0 = -1)
  ∧ (0 = 0 → forallb (λ entry, negb (aborts (snd entry))) Model.first_trace = true)
  ∧ repo_odb Model.after_first_run = Some [Model.oid_Y]
  ∧ repo_config Model.after_first_run = Some [].
Proof.
  apply (@update_tips_returns_0_or_minus_1 Model.collaborators Model.synced_remote
           (Model.repository [Model.oid_Y] [] []) 0 Model.after_first_run Model.first_trace).
  vm_compute. reflexivity.
Defined.

Section TipResults.
Context `{Collaborators}.

(** A turn that leaves the store alone and logs nothing, for a tracked
    entry that is not skipped for a missing object, found the advertised id
    in the store (an absent reference counting as the zero id). *)
Lemma settled_turn_holds_id remote odb tagspec head rdb refname autotag :
  update_one remote odb tagspec (PktRef head) rdb = (Next, rdb, []) →
  git_reference_is_valid_name (head_name head) = true →
  tip_target (r_fetch remote) tagspec (r_download_tags remote) (head_name head)
  = Tracked refname autotag →
  (autotag = true → git_odb_exists odb (head_oid head) = true) →
  ∃ e found,
    git_reference_name_to_oid rdb refname = (e, found)
    ∧ ((e = GIT_ENOTFOUND ∧ head_oid head = zero_oid) ∨ (0 ≤ e ∧ found = head_oid head)).
Proof.
  unfold update_one, update_ref. intros Hquiet Hvalid Htarget Hexists.
  rewrite Hvalid, Htarget in Hquiet. simpl in Hquiet.
  replace (autotag && negb (git_odb_exists odb (head_oid head))) with false in Hquiet
    by (destruct autotag; [rewrite Hexists by reflexivity|]; reflexivity).
  destruct (git_reference_name_to_oid rdb refname) as [e found]. exists e, found.
  split; [reflexivity|].
  destruct (Z.ltb_spec e 0) as [Hneg|Hpos]; destruct (Z.eqb_spec e GIT_ENOTFOUND) as [Hnf|Hnf];
    cbn [andb negb] in Hquiet; try discriminate Hquiet.
  - left. split; [exact Hnf|].
    destruct (git_oid_cmp zero_oid (head_oid head) =? 0) eqn:Hcmp.
    + apply Z.eqb_eq, git_oid_cmp_eq in Hcmp. auto.
    + destruct (git_reference_create_oid _ _ _ _) as [e1 rdb1].
      destruct ((e1 <? 0) && _); [discriminate Hquiet|].
      destruct (cb_update_tips _) as [cb|]; [destruct (cb _ _ _ <? 0)|]; discriminate Hquiet.
  - unfold GIT_ENOTFOUND in Hnf. lia.
  - right. split; [exact Hpos|].
    destruct (git_oid_cmp found (head_oid head) =? 0) eqn:Hcmp.
    + apply Z.eqb_eq, git_oid_cmp_eq in Hcmp. auto.
    + destruct (git_reference_create_oid _ _ _ _) as [e1 rdb1].
      destruct ((e1 <? 0) && _); [discriminate Hquiet|].
      destruct (cb_update_tips _) as [cb|]; [destruct (cb _ _ _ <? 0)|]; discriminate Hquiet.
Qed.

(** X6. What a successful run establishes.  Over a reference store that
    keeps its word, when the names the run may write are pairwise distinct
    and the run returned 0 with every creation it attempted succeeding, the
    store it leaves holds the advertised id under the destination of every
    scanned entry that is tracked and not skipped for a missing object (an
    absent reference counting as the zero id). *)
Theorem successful_run_stores_advertised_ids remote repo odb repo1 tr j head refname autotag :
  refdb_keeps_its_word →
  NoDup (written_names remote (snd (git_refspec__parse GIT_REFSPEC_TAGS true))
           (advertised remote)) →
  git_remote_update_tips remote repo = Some (0, repo1, tr) →
  creations_succeeded tr = true →
  repo_odb repo = Some odb →
  advertised remote !! j = Some (PktRef head) →
  (j = 0%nat → head_name head ≠ GIT_HEAD_FILE) →
  git_reference_is_valid_name (head_name head) = true →
  tip_target (r_fetch remote) (snd (git_refspec__parse GIT_REFSPEC_TAGS true))
    (r_download_tags remote) (head_name head) = Tracked refname autotag →
  (autotag = true → git_odb_exists odb (head_oid head) = true) →
  ∃ e found,
    git_reference_name_to_oid (repo_refdb repo1) refname = (e, found)
    ∧ ((e = GIT_ENOTFOUND ∧ head_oid head = zero_oid) ∨ (0 ≤ e ∧ found = head_oid head)).
Proof.
  intros Hstore Hnodup Hrun Hok Hodb Hadv Hnohead Hvalid Htarget Hexists.
  unfold git_remote_update_tips, advertised in *.
  destruct (r_transport remote) as [transport|]; [|discriminate].
  destruct (t_refs transport) as [|pkt0 rest]; [discriminate|].
  rewrite Hodb in Hrun.
  destruct (git_refspec__parse GIT_REFSPEC_TAGS true) as [error tagspec].
  cbn [fst snd] in *. unfold written_names in Hnodup.
  destruct (error <? 0); [discriminate|].
  destruct pkt0 as [head0|]; [|discriminate].
  destruct (String.eqb (head_name head0) GIT_HEAD_FILE) eqn:Hhead.
  - destruct (git_reference_create_oid (repo_refdb repo) _ _ _) as [e rdb].
    destruct (e <? 0); [discriminate|].
    destruct (update_tips_scan remote odb tagspec 1 rest rdb) as [[rc1 rdb1] tr1] eqn:Hscan.
    injection Hrun as -> <- <-. simpl in Hok. apply andb_true_iff in Hok as [_ Hok].
    apply NoDup_cons in Hnodup as [_ Hnodup].
    destruct j as [|j].
    { injection Hadv as <-. apply String.eqb_eq in Hhead. exfalso. apply Hnohead; auto. }
    simpl in Hadv. apply list_elem_of_lookup_2 in Hadv.
    eapply settled_turn_holds_id; eauto.
    eapply (scan_settles remote odb tagspec Hstore); eauto.
  - destruct (update_tips_scan remote odb tagspec 0 (PktRef head0 :: rest) (repo_refdb repo))
      as [[rc1 rdb1] tr1] eqn:Hscan.
    injection Hrun as -> <- <-.
    apply list_elem_of_lookup_2 in Hadv.
    eapply settled_turn_holds_id; eauto.
    eapply (scan_settles remote odb tagspec Hstore); eauto.
Qed.

End TipResults.

(** The scenario over a store that holds an older id for the branch: the
    notification of entry 1 is given that id, read from the store the
    fetch-head creation of entry 0 left. *)
Lemma tip_callback_reports_a_change_witness :
  Model.oid_Z ≠ Model.oid_X
  ∧ (∃ name, advertised Model.synced_remote !! 1%nat
             = Some (PktRef {| head_name := name; head_oid := Model.oid_X |}))
  ∧ (∃ update_tips,
       cb_update_tips (r_callbacks Model.synced_remote) = Some update_tips
       ∧ 0 = update_tips "refs/remotes/origin/master" Model.oid_Z Model.oid_X)
  ∧ (∃ force e,
       (1%nat, RefCreate "refs/remotes/origin/master" Model.oid_X force e)
       ∈ Cases.behind_run.2
       ∧ ¬ (e < 0 ∧ e ≠ GIT_EEXISTS))
  ∧ ∃ before earlier later e found,
      @git_remote_update_tips Model.collaborators (first_entries 1 Model.synced_remote)
        Cases.behind
      = Some (0, before, earlier)
      ∧ Cases.behind_run.2 = earlier ++ later
      ∧ Model.name_to_oid (repo_refdb before) "refs/remotes/origin/master" = (e, found)
      ∧ ((e = GIT_ENOTFOUND ∧ Model.oid_Z = zero_oid) ∨ (0 ≤ e ∧ Model.oid_Z = found)).
Proof.
  apply (@tip_callback_reports_a_change Model.collaborators Model.synced_remote
           Cases.behind 0 Cases.behind_run.1.2 Cases.behind_run.2
           1 "refs/remotes/origin/master" Model.oid_Z Model.oid_X 0).
  - vm_compute. reflexivity.
  - vm_compute. repeat constructor.
Defined.

(** On the same run: the automatic tag of entry 2, written unforced under
    its own name because its object is present. *)
Lemma creations_follow_the_refspecs_witness :
  (2%nat = 0%nat ∧ "refs/tags/v1" = GIT_FETCH_HEAD_FILE ∧ false = true
   ∧ advertised Model.synced_remote !! 0%nat
     = Some (PktRef {| head_name := GIT_HEAD_FILE; head_oid := Model.oid_Y |}))
  ∨ ∃ name,
      advertised Model.synced_remote !! 2%nat
      = Some (PktRef {| head_name := name; head_oid := Model.oid_Y |})
      ∧ Model.valid_name false name = true
      ∧ ((Model.src_matches (r_fetch Model.synced_remote) name = true
          ∧ Model.transform_r (r_fetch Model.synced_remote) name = Some "refs/tags/v1"
          ∧ false = true)
         ∨ (Model.src_matches (r_fetch Model.synced_remote) name = false
            ∧ Model.src_matches (snd (Model.parse GIT_REFSPEC_TAGS true)) name = true
            ∧ "refs/tags/v1" = name
            ∧ r_download_tags Model.synced_remote ≠ GIT_REMOTE_DOWNLOAD_TAGS_NONE
            ∧ false = autotag_eqb (r_download_tags Model.synced_remote)
                        GIT_REMOTE_DOWNLOAD_TAGS_ALL
            ∧ (false = false → Model.odb_exists [Model.oid_Y] Model.oid_Y = true))).
Proof.
  apply (@creations_follow_the_refspecs Model.collaborators Model.synced_remote
           (Model.repository [Model.oid_Y] [] []) [Model.oid_Y] 0 Model.after_first_run
           Model.first_trace 2 "refs/tags/v1" Model.oid_Y false 0).
  - vm_compute. reflexivity.
  - reflexivity.
  - vm_compute. repeat constructor.
Defined.

(** A peeled tag and a capability record after a branch: only the branch
    is written. *)
Lemma malformed_entries_are_ignored_witness :
  let tr := [(0%nat, RefCreate "refs/remotes/origin/master" Model.oid_X true 0);
             (0%nat, TipCallback "refs/remotes/origin/master" zero_oid Model.oid_X 0)] in
  (advertised Cases.peeled_remote !! 2%nat = Some PktOther → ∀ ev, (2%nat, ev) ∉ tr)
  ∧ (∀ head, advertised Cases.peeled_remote !! 2%nat = Some (PktRef head) →
             Model.valid_name false (head_name head) = false →
             (2%nat = 0%nat → head_name head ≠ GIT_HEAD_FILE) →
             ∀ ev, (2%nat, ev) ∉ tr).
Proof.
  apply (@malformed_entries_are_ignored Model.collaborators Cases.peeled_remote
           (Model.repository [] [] []) 0
           (Model.repository [] [] [("refs/remotes/origin/master", Model.oid_X)])).
  vm_compute. reflexivity.
Defined.

(** On the spec's scenario with the object of the tag present: after the
    run the tag [refs/tags/v1] holds the advertised id. *)
Lemma successful_run_stores_advertised_ids_witness :
  ∃ e found,
    Model.name_to_oid (repo_refdb Model.after_first_run) "refs/tags/v1" = (e, found)
    ∧ ((e = GIT_ENOTFOUND ∧ head_oid Model.v1 = zero_oid)
       ∨ (0 ≤ e ∧ found = head_oid Model.v1)).
Proof.
  apply (@successful_run_stores_advertised_ids Model.collaborators Model.synced_remote
           (Model.repository [Model.oid_Y] [] []) [Model.oid_Y] Model.after_first_run
           Model.first_trace 2 Model.v1 "refs/tags/v1" true).
  - exact model_refdb_keeps_its_word.
  - refine (bool_decide_unpack _ _). vm_compute. exact I.
  - vm_compute. reflexivity.
  - vm_compute. reflexivity.
  - reflexivity.
  - reflexivity.
  - discriminate.
  - vm_compute. reflexivity.
  - vm_compute. reflexivity.
  - intros _. vm_compute. reflexivity.
Defined.

Lemma eqb_append_l (p a b : string) : String.eqb (p +:+ a) (p +:+ b) = String.eqb a b.
Proof.
  induction p as [|ch p IH]; simpl; [reflexivity|].
  rewrite Ascii.eqb_refl. exact IH.
Qed.

Section Runs.
Context `{Collaborators}.

Lemma ret_inv {A} (a b : A) (w w' : world) : ret a w = Some (b, w') → b = a ∧ w' = w.
Proof. intros Hrun. injection Hrun as <- <-. auto. Qed.

Lemma weakptr_inv rc (w w' : world) :
  git_repository_config__weakptr w = Some (rc, w') →
  w' = w ∧ (0 ≤ rc → is_Some (repo_config (w_repo w))).
Proof.
  unfold git_repository_config__weakptr. intros Hrun.
  destruct (repo_config (w_repo w)); injection Hrun as <- <-; split; eauto; lia.
Qed.

Lemma config_get_string_inv key r (w w' : world) :
  config_get_string key w = Some (r, w') →
  w' = w ∧ ∃ c, repo_config (w_repo w) = Some c ∧ r = git_config_get_string c key.
Proof.
  unfold config_get_string. intros Hrun.
  destruct (repo_config (w_repo w)) as [c|]; [|discriminate].
  injection Hrun as <- <-. eauto.
Qed.

Lemma config_set_string_inv key value rc (w w' : world) :
  config_set_string key value w = Some (rc, w') →
  ∃ c c', repo_config (w_repo w) = Some c
          ∧ git_config_set_string c key value = (rc, c')
          ∧ w' = record_event (ConfigSet key value rc) (with_config c' w).
Proof.
  unfold config_set_string. intros Hrun.
  destruct (repo_config (w_repo w)) as [c|]; [|discriminate].
  destruct (git_config_set_string c key value) as [e c'] eqn:Hset.
  injection Hrun as <- <-. eauto.
Qed.

Lemma config_delete_inv key rc (w w' : world) :
  config_delete key w = Some (rc, w') →
  ∃ c c', repo_config (w_repo w) = Some c
          ∧ git_config_delete c key = (rc, c')
          ∧ w' = record_event (ConfigDelete key rc) (with_config c' w).
Proof.
  unfold config_delete. intros Hrun.
  destruct (repo_config (w_repo w)) as [c|]; [|discriminate].
  destruct (git_config_delete c key) as [e c'] eqn:Hdel.
  injection Hrun as <- <-. eauto.
Qed.

Lemma config_get_string_run key c (w : world) :
  repo_config (w_repo w) = Some c →
  config_get_string key w = Some (git_config_get_string c key, w).
Proof. unfold config_get_string. intros ->. reflexivity. Qed.

Lemma ensure_valid_inv name rc (w w' : world) :
  ensure_remote_name_is_valid name w = Some (rc, w') →
  w_repo w' = w_repo w ∧ w_log w' = w_log w.
Proof.
  unfold ensure_remote_name_is_valid, bind, giterr_set, ret. intros Hrun.
  destruct (negb _); injection Hrun as _ <-; auto.
Qed.

End Runs.

(** Takes a run of a computation apart, down to the store operations. *)
Ltac unbind :=
  repeat (cbv beta in *;
    match goal with
    | H : bind _ _ _ = Some _ |- _ =>
        let a := fresh "a" in let w := fresh "w" in let Hstep := fresh "Hstep" in
        apply bind_inv in H as (a & w & Hstep & H)
    | H : ret _ _ = Some _ |- _ => apply ret_inv in H as [? ?]; subst
    | H : undefined _ = Some _ |- _ => discriminate H
    | H : (if ?c then _ else _) _ = Some _ |- _ => destruct c eqn:?
    | H : (match ?x with _ => _ end) _ = Some _ |- _ => destruct x eqn:?
    end).

Section SaveResults.
Context `{Collaborators}.

Lemma save_tagopt_result remote name rc w w' :
  save_tagopt remote name w = Some (rc, w') → rc = 0 ∨ rc = -1.
Proof. unfold save_tagopt. intros Hrun. unbind; auto. Qed.

Lemma save_result remote rc w w' :
  git_remote_save remote w = Some (rc, w') → rc = 0 ∨ rc = -1.
Proof.
  intros Hrun. unfold git_remote_save in Hrun.
  unbind; auto; eapply save_tagopt_result; eauto.
Qed.

(** X7. [git_remote_save] always returns, and its result is 0 or -1: the
    result codes of the configuration store and of the refspec engine do
    not reach the caller. *)
Theorem save_returns_0_or_minus_1 remote w :
  ∃ rc w', git_remote_save remote w = Some (rc, w') ∧ (rc = 0 ∨ rc = -1).
Proof.
  destruct (save_returns remote w) as (rc & w' & Hrun).
  exists rc, w'. split; [exact Hrun|]. eapply save_result, Hrun.
Qed.

End SaveResults.

Section SaveFrames.
Context `{Collaborators}.

(** X8. [git_remote_save] touches neither the reference store nor the
    object database, and every write it makes to the configuration is to a
    key below [remote.<name>.]. *)
Theorem save_only_writes_its_section remote :
  frames same_refs (writes_below ("remote." +:+ show_name (r_name remote) +:+ "."))
    (git_remote_save remote).
Proof.
  apply save_frames.
  - intros name suffix value rc ->. apply key_below_remote.
  - intros name suffix rc ->. apply key_below_remote.
Qed.

End SaveFrames.

Section Scripts.
Context `{Collaborators}.
Hypothesis Hstore : config_keeps_its_word.

Lemma config_written_app c s1 c1 : ∀ s2 c2,
  config_written c s1 c1 → config_written c1 s2 c2 → config_written c (s1 ++ s2) c2.
Proof.
  revert c. induction s1 as [|[key value|key] rest IH]; intros c s2 c2 Hfirst Hthen; simpl in *.
  - subst c1. exact Hthen.
  - destruct Hfirst as (e & c0 & Hset & He & Hrest). eauto 8.
  - destruct Hfirst as (e & c0 & Hdel & He & Hrest). eauto 8.
Qed.

(** After a script went through, a key reads as its last write says, and
    as before when the script left it alone. *)
Lemma written_get script : ∀ c c' key,
  config_written c script c' →
  git_config_get_string c' key =
    match last_write key script with
    | Some (Some value) => (0, Some value)
    | Some None => (GIT_ENOTFOUND, None)
    | None => git_config_get_string c key
    end.
Proof.
  destruct Hstore as (_ & Hset & Hdel).
  induction script as [|[k value|k] rest IH]; intros c c' key Hrun; simpl in *.
  - subst c'. reflexivity.
  - destruct Hrun as (e & c1 & Hput & He & Hrest).
    rewrite (IH _ _ key Hrest). destruct (last_write key rest); [reflexivity|].
    destruct (Hset _ _ _ _ _ Hput He) as [Hsame Hother].
    destruct (String.eqb_spec k key) as [->|Hk]; [exact Hsame|].
    apply Hother. congruence.
  - destruct Hrun as (e & c1 & Hdrop & He & Hrest).
    rewrite (IH _ _ key Hrest). destruct (last_write key rest); [reflexivity|].
    destruct (Hdel _ _ _ _ Hdrop He) as [Hsame Hother].
    destruct (String.eqb_spec k key) as [->|Hk]; [exact Hsame|].
    apply Hother. congruence.
Qed.

Lemma last_write_app key s1 s2 :
  last_write key (s1 ++ s2) =
    match last_write key s2 with
    | Some found => Some found
    | None => last_write key s1
    end.
Proof.
  induction s1 as [|write rest IH]; simpl.
  - destruct (last_write key s2); reflexivity.
  - rewrite IH. destruct (last_write key s2); reflexivity.
Qed.

Lemma last_write_refspec name refspec direction suffix :
  String.eqb ("." +:+ match direction with GIT_DIR_FETCH => "fetch" | GIT_DIR_PUSH => "push" end)
    suffix = false →
  last_write ("remote." +:+ name +:+ suffix) (refspec_script name refspec direction) = None.
Proof.
  intros Hother. unfold refspec_script.
  destruct (rs_src refspec), (rs_dst refspec), (git_refspec__serialize refspec);
    try reflexivity.
  cbn [last_write]. rewrite !eqb_append_l, Hother. reflexivity.
Qed.

Lemma last_write_tagopt name tags tagopt suffix :
  String.eqb ".tagopt" suffix = false →
  last_write ("remote." +:+ name +:+ suffix) (tagopt_script name tags tagopt) = None.
Proof.
  intros Hother. unfold tagopt_script.
  destruct tags, tagopt; try reflexivity; cbn [last_write];
    rewrite !eqb_append_l, Hother; reflexivity.
Qed.

Lemma update_config_refspec_script name refspec direction rc w w' c :
  update_config_refspec name refspec direction w = Some (rc, w') →
  0 ≤ rc →
  repo_config (w_repo w) = Some c →
  ∃ c', repo_config (w_repo w') = Some c'
        ∧ config_written c (refspec_script name refspec direction) c'.
Proof.
  unfold update_config_refspec, refspec_script. intros Hrun Hrc Hc.
  destruct (rs_src refspec), (rs_dst refspec);
    try (apply ret_inv in Hrun as [_ ->]; exists c; split; [exact Hc|];
         destruct (git_refspec__serialize refspec); reflexivity).
  destruct (git_refspec__serialize refspec) as [value|].
  - apply config_set_string_inv in Hrun as (c0 & c' & Hc0 & Hset & ->).
    rewrite Hc in Hc0. injection Hc0 as <-.
    exists c'. split; [reflexivity|]. simpl. eauto 8.
  - apply ret_inv in Hrun as [-> _]. lia.
Qed.

Lemma save_tagopt_script remote name w w' c :
  save_tagopt remote name w = Some (0, w') →
  repo_config (w_repo w) = Some c →
  ∃ c', repo_config (w_repo w') = Some c'
        ∧ config_written c
            (tagopt_script name (r_download_tags remote)
               (snd (git_config_get_string c ("remote." +:+ name +:+ ".tagopt")))) c'
        ∧ ¬ (fst (git_config_get_string c ("remote." +:+ name +:+ ".tagopt")) < 0
             ∧ fst (git_config_get_string c ("remote." +:+ name +:+ ".tagopt"))
               ≠ GIT_ENOTFOUND).
Proof.
  unfold save_tagopt, tagopt_script. intros Hrun Hc.
  apply bind_inv in Hrun as (got & w1 & Hget & Hrun).
  apply config_get_string_inv in Hget as (-> & c0 & Hc0 & ->).
  rewrite Hc in Hc0. injection Hc0 as <-.
  destruct (git_config_get_string c ("remote." +:+ name +:+ ".tagopt")) as [error tagopt].
  cbn [fst snd].
  destruct ((error <? 0) && negb (error =? GIT_ENOTFOUND)) eqn:Hfail.
  { apply ret_inv in Hrun as [Hrc _]. discriminate. }
  assert (Hok : ¬ (error < 0 ∧ error ≠ GIT_ENOTFOUND)).
  { intros [Hneg Hne]. apply andb_false_iff in Hfail as [Hf|Hf].
    - apply Z.ltb_ge in Hf. lia.
    - apply negb_false_iff, Z.eqb_eq in Hf. contradiction. }
  destruct (r_download_tags remote); [destruct tagopt| |destruct tagopt|];
    try (apply ret_inv in Hrun as [_ ->]; exists c;
         split; [exact Hc|split; [reflexivity|exact Hok]]);
    apply bind_inv in Hrun as (rc & w2 & Hwrite & Hrun);
    destruct (Z.ltb_spec rc 0) as [Hneg|Hpos];
    try (apply ret_inv in Hrun as [Hrc _]; discriminate);
    apply ret_inv in Hrun as [_ ->].
  - apply config_delete_inv in Hwrite as (c0 & c' & Hc0 & Hdel & ->).
    rewrite Hc in Hc0. injection Hc0 as <-.
    exists c'. split; [reflexivity|]. split; [|exact Hok]. simpl. eauto 8.
  - apply config_set_string_inv in Hwrite as (c0 & c' & Hc0 & Hset & ->).
    rewrite Hc in Hc0. injection Hc0 as <-.
    exists c'. split; [reflexivity|]. split; [|exact Hok]. simpl. eauto 8.
  - apply config_delete_inv in Hwrite as (c0 & c' & Hc0 & Hdel & ->).
    rewrite Hc in Hc0. injection Hc0 as <-.
    exists c'. split; [reflexivity|]. split; [|exact Hok]. simpl. eauto 8.
  - apply config_set_string_inv in Hwrite as (c0 & c' & Hc0 & Hset & ->).
    rewrite Hc in Hc0. injection Hc0 as <-.
    exists c'. split; [reflexivity|]. split; [|exact Hok]. simpl. eauto 8.
Qed.


(** A [git_remote_save] that returned 0 made the writes of [save_script],
    and each of them went through. *)
Lemma save_writes_script remote name w w' :
  r_name remote = Some name →
  git_remote_save remote w = Some (0, w') →
  ∃ c c',
    repo_config (w_repo w) = Some c
    ∧ repo_config (w_repo w') = Some c'
    ∧ config_written c
        (save_script remote name
           (snd (git_config_get_string c ("remote." +:+ name +:+ ".tagopt")))) c'
    ∧ ¬ (fst (git_config_get_string c ("remote." +:+ name +:+ ".tagopt")) < 0
         ∧ fst (git_config_get_string c ("remote." +:+ name +:+ ".tagopt")) ≠ GIT_ENOTFOUND).
Proof.
  intros Hname Hrun. unfold git_remote_save in Hrun.
  apply bind_inv in Hrun as (valid & w1 & Hvalid & Hrun).
  apply ensure_valid_inv in Hvalid as [Hrepo1 _].
  destruct (valid <? 0); [apply ret_inv in Hrun as [Hrc _]; discriminate|].
  apply bind_inv in Hrun as (have_config & w2 & Hconfig & Hrun).
  apply weakptr_inv in Hconfig as [-> _].
  destruct (have_config <? 0); [apply ret_inv in Hrun as [Hrc _]; discriminate|].
  rewrite Hname in Hrun.
  apply bind_inv in Hrun as (rc1 & w3 & Hurl & Hrun).
  destruct (Z.ltb_spec rc1 0) as [|Hrc1]; [apply ret_inv in Hrun as [Hrc _]; discriminate|].
  apply config_set_string_inv in Hurl as (c & c1 & Hc & Hset1 & ->).
  rewrite Hrepo1 in Hc.
  apply bind_inv in Hrun as (rc2 & w4 & Hpushurl & Hrun).
  destruct (Z.ltb_spec rc2 0) as [|Hrc2]; [apply ret_inv in Hrun as [Hrc _]; discriminate|].
  assert (Hstep2 : ∃ c2, repo_config (w_repo w4) = Some c2
    ∧ config_written c1
        [match r_pushurl remote with
         | Some pushurl => ConfigPut ("remote." +:+ name +:+ ".pushurl") pushurl
         | None => ConfigDrop ("remote." +:+ name +:+ ".pushurl")
         end] c2).
  { destruct (r_pushurl remote) as [pushurl|].
    - apply config_set_string_inv in Hpushurl as (c0 & c2 & Hc0 & Hset2 & ->).
      injection Hc0 as <-. exists c2. split; [reflexivity|]. simpl. eauto 8.
    - apply bind_inv in Hpushurl as (e & w5 & Hdel & Hret).
      apply ret_inv in Hret as [-> ->].
      apply config_delete_inv in Hdel as (c0 & c2 & Hc0 & Hdel & ->).
      injection Hc0 as <-. exists c2. split; [reflexivity|]. simpl.
      exists e, c2. split; [exact Hdel|]. split; [|reflexivity].
      destruct (Z.eqb_spec e GIT_ENOTFOUND); auto. }
  destruct Hstep2 as (c2 & Hc2 & Hwritten2).
  apply bind_inv in Hrun as (rc3 & w5 & Hfetch & Hrun).
  destruct (Z.ltb_spec rc3 0) as [|Hrc3]; [apply ret_inv in Hrun as [Hrc _]; discriminate|].
  destruct (update_config_refspec_script _ _ _ _ _ _ _ Hfetch Hrc3 Hc2) as (c3 & Hc3 & Hwritten3).
  apply bind_inv in Hrun as (rc4 & w6 & Hpush & Hrun).
  destruct (Z.ltb_spec rc4 0) as [|Hrc4]; [apply ret_inv in Hrun as [Hrc _]; discriminate|].
  destruct (update_config_refspec_script _ _ _ _ _ _ _ Hpush Hrc4 Hc3) as (c4 & Hc4 & Hwritten4).
  destruct (save_tagopt_script _ _ _ _ _ Hrun Hc4) as (c5 & Hc5 & Hwritten5 & Hok).
  assert (Hprefix : config_written c
    ([ConfigPut ("remote." +:+ name +:+ ".url") (r_url remote);
      match r_pushurl remote with
      | Some pushurl => ConfigPut ("remote." +:+ name +:+ ".pushurl") pushurl
      | None => ConfigDrop ("remote." +:+ name +:+ ".pushurl")
      end]
     ++ refspec_script name (r_fetch remote) GIT_DIR_FETCH
     ++ refspec_script name (r_push remote) GIT_DIR_PUSH) c4).
  { apply (config_written_app c [_] c1); [simpl; eauto 8|].
    apply (config_written_app c1 [_] c2); [exact Hwritten2|].
    eapply config_written_app; eauto. }
  assert (Htagopt : git_config_get_string c4 ("remote." +:+ name +:+ ".tagopt")
                    = git_config_get_string c ("remote." +:+ name +:+ ".tagopt")).
  { rewrite (written_get _ _ _ _ Hprefix).
    rewrite !last_write_app, !last_write_refspec by reflexivity.
    destruct (r_pushurl remote); cbn [last_write]; rewrite !eqb_append_l; reflexivity. }
  rewrite Htagopt in Hwritten5, Hok.
  exists c, c5. split; [exact Hc|]. split; [exact Hc5|]. split; [|exact Hok].
  unfold save_script. rewrite !app_assoc. eapply config_written_app; [|exact Hwritten5].
  rewrite <- !app_assoc. exact Hprefix.
Qed.

End Scripts.

Section RoundTrip.
Context `{Collaborators}.

Lemma complete_refspec_script name refspec direction text :
  is_Some (rs_src refspec) → is_Some (rs_dst refspec) →
  git_refspec__serialize refspec = Some text →
  refspec_script name refspec direction
  = [ConfigPut ("remote." +:+ name +:+ "." +:+
                match direction with GIT_DIR_FETCH => "fetch" | GIT_DIR_PUSH => "push" end)
       text].
Proof.
  intros [src Hsrc] [dst Hdst] Htext. unfold refspec_script.
  rewrite Hsrc, Hdst, Htext. reflexivity.
Qed.

Lemma incomplete_refspec_script name refspec direction :
  rs_src refspec = None ∨ rs_dst refspec = None →
  refspec_script name refspec direction = [].
Proof.
  intros [Hnone|Hnone]; unfold refspec_script; rewrite Hnone;
    [|destruct (rs_src refspec)]; reflexivity.
Qed.

(** What a [git_remote_save] that returned 0 leaves in the configuration,
    key by key. *)
Lemma save_leaves remote name w w' :
  config_keeps_its_word →
  r_name remote = Some name →
  git_remote_save remote w = Some (0, w') →
  ∃ c c',
    repo_config (w_repo w) = Some c
    ∧ repo_config (w_repo w') = Some c'
    ∧ git_config_get_string c' ("remote." +:+ name +:+ ".url") = (0, Some (r_url remote))
    ∧ git_config_get_string c' ("remote." +:+ name +:+ ".pushurl")
      = match r_pushurl remote with
        | Some pushurl => (0, Some pushurl)
        | None => (GIT_ENOTFOUND, None)
        end
    ∧ git_config_get_string c' ("remote." +:+ name +:+ ".tagopt")
      = match r_download_tags remote with
        | GIT_REMOTE_DOWNLOAD_TAGS_ALL => (0, Some "--tags")
        | GIT_REMOTE_DOWNLOAD_TAGS_NONE => (0, Some "--no-tags")
        | _ => (GIT_ENOTFOUND, None)
        end
    ∧ (∀ text, is_Some (rs_src (r_fetch remote)) → is_Some (rs_dst (r_fetch remote)) →
               git_refspec__serialize (r_fetch remote) = Some text →
               git_config_get_string c' ("remote." +:+ name +:+ ".fetch") = (0, Some text))
    ∧ (∀ text, is_Some (rs_src (r_push remote)) → is_Some (rs_dst (r_push remote)) →
               git_refspec__serialize (r_push remote) = Some text →
               git_config_get_string c' ("remote." +:+ name +:+ ".push") = (0, Some text))
    ∧ (rs_src (r_fetch remote) = None ∨ rs_dst (r_fetch remote) = None →
       git_config_get_string c' ("remote." +:+ name +:+ ".fetch")
       = git_config_get_string c ("remote." +:+ name +:+ ".fetch"))
    ∧ (rs_src (r_push remote) = None ∨ rs_dst (r_push remote) = None →
       git_config_get_string c' ("remote." +:+ name +:+ ".push")
       = git_config_get_string c ("remote." +:+ name +:+ ".push")).
Proof.
  intros Hstore Hname Hrun.
  destruct (save_writes_script Hstore _ _ _ _ Hname Hrun) as (c & c' & Hc & Hc' & Hwritten & Hok).
  exists c, c'. split; [exact Hc|]. split; [exact Hc'|].
  pose proof (λ key, written_get Hstore _ _ _ key Hwritten) as Hget.
  unfold save_script in Hget. setoid_rewrite last_write_app in Hget.
  setoid_rewrite last_write_app in Hget. setoid_rewrite last_write_app in Hget.
  split; [|split; [|split; [|split; [|split; [|split]]]]].
  - rewrite Hget, last_write_tagopt, !last_write_refspec by reflexivity.
    destruct (r_pushurl remote); cbn [last_write]; rewrite !eqb_append_l; reflexivity.
  - rewrite Hget, last_write_tagopt, !last_write_refspec by reflexivity.
    destruct (r_pushurl remote); cbn [last_write]; rewrite !eqb_append_l; reflexivity.
  - rewrite Hget, !last_write_refspec by reflexivity.
    destruct Hstore as (Hshape & _).
    destruct (git_config_get_string c ("remote." +:+ name +:+ ".tagopt")) as [e tagopt] eqn:Hread.
    cbn [fst snd] in *.
    assert (Habsent : tagopt = None → (e, tagopt) = (GIT_ENOTFOUND, None)).
    { intros ->. destruct (Hshape _ _ _ _ Hread) as [[_ [v Hv]]|[Hneg _]]; [discriminate|].
      f_equal. destruct (Z.eq_dec e GIT_ENOTFOUND); [assumption|]. exfalso. apply Hok. auto. }
    unfold tagopt_script.
    destruct (r_download_tags remote), tagopt; cbn [last_write];
      rewrite ?eqb_append_l; cbn; try reflexivity;
      destruct (r_pushurl remote); cbn [last_write]; rewrite ?eqb_append_l; cbn; auto.
  - intros text Hsrc Hdst Htext.
    rewrite Hget, last_write_tagopt, last_write_refspec by reflexivity.
    rewrite (complete_refspec_script _ _ _ _ Hsrc Hdst Htext).
    cbn [last_write]. rewrite String.eqb_refl. reflexivity.
  - intros text Hsrc Hdst Htext.
    rewrite Hget, last_write_tagopt by reflexivity.
    rewrite (complete_refspec_script _ _ _ _ Hsrc Hdst Htext).
    cbn [last_write]. rewrite String.eqb_refl. reflexivity.
  - intros Hincomplete.
    rewrite Hget, last_write_tagopt, last_write_refspec by reflexivity.
    rewrite (incomplete_refspec_script _ _ _ Hincomplete).
    destruct (r_pushurl remote); cbn [last_write]; rewrite !eqb_append_l; reflexivity.
  - intros Hincomplete.
    rewrite Hget, last_write_tagopt by reflexivity.
    rewrite (incomplete_refspec_script _ _ _ Hincomplete).
    rewrite last_write_refspec by reflexivity.
    destruct (r_pushurl remote); cbn [last_write]; rewrite !eqb_append_l; reflexivity.
Qed.

(** X9. What a successful save leaves in the configuration, over a store
    that keeps its word: the url is read back under [remote.<name>.url];
    the push url under [.pushurl], which is absent when the remote has
    none; [.tagopt] reads [--tags] for [ALL], [--no-tags] for [NONE] and is
    absent otherwise; and a refspec with both sides is read back, as
    serialized, under [.fetch] or [.push]. *)
Theorem saved_remote_is_read_back remote name w w' :
  config_keeps_its_word →
  r_name remote = Some name →
  git_remote_save remote w = Some (0, w') →
  ∃ c',
    repo_config (w_repo w') = Some c'
    ∧ git_config_get_string c' ("remote." +:+ name +:+ ".url") = (0, Some (r_url remote))
    ∧ git_config_get_string c' ("remote." +:+ name +:+ ".pushurl")
      = match r_pushurl remote with
        | Some pushurl => (0, Some pushurl)
        | None => (GIT_ENOTFOUND, None)
        end
    ∧ git_config_get_string c' ("remote." +:+ name +:+ ".tagopt")
      = match r_download_tags remote with
        | GIT_REMOTE_DOWNLOAD_TAGS_ALL => (0, Some "--tags")
        | GIT_REMOTE_DOWNLOAD_TAGS_NONE => (0, Some "--no-tags")
        | _ => (GIT_ENOTFOUND, None)
        end
    ∧ (∀ text, is_Some (rs_src (r_fetch remote)) → is_Some (rs_dst (r_fetch remote)) →
               git_refspec__serialize (r_fetch remote) = Some text →
               git_config_get_string c' ("remote." +:+ name +:+ ".fetch") = (0, Some text))
    ∧ (∀ text, is_Some (rs_src (r_push remote)) → is_Some (rs_dst (r_push remote)) →
               git_refspec__serialize (r_push remote) = Some text →
               git_config_get_string c' ("remote." +:+ name +:+ ".push") = (0, Some text)).
Proof.
  intros Hstore Hname Hrun.
  destruct (save_leaves _ _ _ _ Hstore Hname Hrun)
    as (c & c' & _ & Hc' & Hurl & Hpushurl & Htagopt & Hfetch & Hpush & _).
  exists c'. auto 10.
Qed.

(** X10. A refspec that lacks its source or its destination is not
    persisted: a save that returned 0 left the key [remote.<name>.fetch]
    (or [.push]) reading as before. *)
Theorem save_skips_incomplete_refspecs remote name w w' c :
  config_keeps_its_word →
  r_name remote = Some name →
  repo_config (w_repo w) = Some c →
  git_remote_save remote w = Some (0, w') →
  ∃ c',
    repo_config (w_repo w') = Some c'
    ∧ (rs_src (r_fetch remote) = None ∨ rs_dst (r_fetch remote) = None →
       git_config_get_string c' ("remote." +:+ name +:+ ".fetch")
       = git_config_get_string c ("remote." +:+ name +:+ ".fetch"))
    ∧ (rs_src (r_push remote) = None ∨ rs_dst (r_push remote) = None →
       git_config_get_string c' ("remote." +:+ name +:+ ".push")
       = git_config_get_string c ("remote." +:+ name +:+ ".push")).
Proof.
  intros Hstore Hname Hc Hrun.
  destruct (save_leaves _ _ _ _ Hstore Hname Hrun)
    as (c0 & c' & Hc0 & Hc' & _ & _ & _ & _ & _ & Hfetch & Hpush).
  rewrite Hc in Hc0. injection Hc0 as <-. exists c'. auto.
Qed.

Lemma carried_refspec_read c c' key is_fetch refspec :
  config_keeps_its_word →
  carried_refspec c key is_fetch refspec →
  (∀ text, is_Some (rs_src refspec) → is_Some (rs_dst refspec) →
           git_refspec__serialize refspec = Some text →
           git_config_get_string c' key = (0, Some text)) →
  (rs_src refspec = None ∨ rs_dst refspec = None →
   git_config_get_string c' key = git_config_get_string c key) →
  (∃ text, git_config_get_string c' key = (0, Some text)
           ∧ git_refspec__parse text is_fetch = (0, refspec))
  ∨ (git_config_get_string c' key = (GIT_ENOTFOUND, None) ∧ refspec = empty_refspec).
Proof.
  intros (Hshape & _) [(Hsrc & Hdst & text & Htext & Hparse)|[-> Habsent]] Hcomplete Hskip.
  - left. exists text. auto.
  - right. split; [|reflexivity]. rewrite Hskip by (left; reflexivity).
    destruct (git_config_get_string c _) as [e v] eqn:Hread. simpl in Habsent. subst e.
    destruct (Hshape _ _ _ _ Hread) as [[Hzero _]|[_ ->]]; [discriminate|reflexivity].
Qed.

(** X11. The round trip.  Over a configuration store that keeps its word,
    a remote whose refspecs are carried and that [git_remote_save] saved
    with result 0 is loaded back by [git_remote_load] with result 0: the
    loaded remote has the name, the url, the push url and the refspecs of
    the saved one, and its [download_tags], with [UNSET] read as [AUTO]; the
    load changes nothing. *)
Theorem saved_remote_loads_back remote name out w w' c :
  config_keeps_its_word →
  r_name remote = Some name →
  repo_config (w_repo w) = Some c →
  carried_refspec c ("remote." +:+ name +:+ ".fetch") true (r_fetch remote) →
  carried_refspec c ("remote." +:+ name +:+ ".push") false (r_push remote) →
  git_remote_save remote w = Some (0, w') →
  git_remote_load out name w' = Some ((0, Some (as_loaded remote)), w').
Proof.
  intros Hstore Hname Hc Hfetch Hpush Hrun.
  destruct (save_leaves _ _ _ _ Hstore Hname Hrun)
    as (c0 & c' & Hc0 & Hc' & Hurl & Hpushurl & Htagopt & Hfetch1 & Hpush1 & Hfetch0 & Hpush0).
  rewrite Hc in Hc0. injection Hc0 as <-.
  pose proof (carried_refspec_read c c' ("remote." +:+ name +:+ ".fetch") true _ Hstore
                Hfetch Hfetch1 Hfetch0) as Hf.
  pose proof (carried_refspec_read c c' ("remote." +:+ name +:+ ".push") false _ Hstore
                Hpush Hpush1 Hpush0) as Hp.
  clear Hfetch Hpush Hfetch1 Hpush1 Hfetch0 Hpush0 Hrun.
  unfold git_remote_load, parse_remote_refspec, download_tags_value, load_cleanup,
    git_repository_config__weakptr, bind, ret, as_loaded.
  rewrite Hc', Hname.
  destruct Hf as [(ftext & Hfget & Hfparse)|[Hfget Hfetch]],
           Hp as [(ptext & Hpget & Hpparse)|[Hpget Hpush]];
    destruct (r_pushurl remote) as [pushurl|], (r_download_tags remote);
    repeat (rewrite ?(config_get_string_run _ c' _ Hc'), ?Hurl, ?Hpushurl, ?Htagopt,
              ?Hfget, ?Hpget, ?Hfparse, ?Hpparse;
            cbn -[String.append]);
    rewrite ?Hfetch, ?Hpush; reflexivity.
Qed.

(** X12. [git_remote_add] does not look for a remote of the same name.
    Its result is 0 or -1, never [GIT_EEXISTS]; and when it is 0, over a
    configuration store that keeps its word, the remote it returns has the
    name and the url it was given, and the configuration holds that url
    under [remote.<name>.url] and no push url, whatever it held under these
    keys before. *)
Theorem add_overwrites_without_a_check out name url w rc out' w' :
  config_keeps_its_word →
  git_remote_add out name url w = Some ((rc, out'), w') →
  (rc = 0 ∨ rc = -1)
  ∧ (rc = 0 →
     ∃ remote c',
       out' = Holds (Some remote)
       ∧ r_name remote = Some name
       ∧ r_url remote = url
       ∧ repo_config (w_repo w') = Some c'
       ∧ git_config_get_string c' ("remote." +:+ name +:+ ".url") = (0, Some url)
       ∧ git_config_get_string c' ("remote." +:+ name +:+ ".pushurl")
         = (GIT_ENOTFOUND, None)).
Proof.
  intros Hstore Hrun. unfold git_remote_add, git_remote_new, add_on_error in Hrun.
  destruct (git_refspec__parse ("+refs/heads/*:refs/remotes/" +:+ name +:+ "/*") true)
    as [error parsed].
  apply bind_inv in Hrun as ([rc0 made] & w0 & Hnew & Hrun).
  destruct (error <? 0).
  { apply bind_inv in Hnew as (u & w1 & _ & Hret). apply ret_inv in Hret as [Heq _].
    injection Heq as -> ->. cbn [Z.ltb Z.compare] in Hrun.
    apply bind_inv in Hrun as (held & w2 & _ & Hrun).
    apply bind_inv in Hrun as (u' & w3 & _ & Hret). apply ret_inv in Hret as [Heq _].
    injection Heq as -> _. split; [auto|discriminate]. }
  apply ret_inv in Hnew as [Heq ->]. injection Heq as -> ->.
  cbn [Z.ltb Z.compare] in Hrun.
  apply bind_inv in Hrun as (held & w1 & Hread & Hrun).
  apply ret_inv in Hread as [-> ->].
  apply bind_inv in Hrun as (rc1 & w1 & Hsave & Hrun).
  destruct (save_result _ _ _ _ Hsave) as [->| ->]; cbn [Z.ltb Z.compare] in Hrun.
  - apply ret_inv in Hrun as [Heq ->]. injection Heq as -> ->.
    split; [auto|]. intros _.
    destruct (save_leaves (set_fetch (blank_remote (Some name) url) parsed) name
                w w1 Hstore eq_refl Hsave)
      as (c & c' & _ & Hc' & Hurl & Hpushurl & _).
    eexists _, c'. repeat split; [exact Hc'|exact Hurl|exact Hpushurl].
  - apply bind_inv in Hrun as (held & w2 & _ & Hrun).
    apply bind_inv in Hrun as (u' & w3 & _ & Hret). apply ret_inv in Hret as [Heq _].
    injection Heq as -> _. split; [auto|discriminate].
Qed.

End RoundTrip.

Section LoadResults.
Context `{Collaborators}.

Lemma free_inv r u (w w' : world) :
  git_remote_free (Some r) w = Some (u, w') → w' = record_event (RemoteFree r) w.
Proof. intros Hrun. injection Hrun as _ <-. reflexivity. Qed.

(** Every way [git_remote_load] can end. *)
Lemma load_cases out name w rc out' w' :
  git_remote_load out name w = Some ((rc, out'), w') →
  w_repo w' = w_repo w
  ∧ w_err w' = w_err w
  ∧ (w_log w' = w_log w ∨ ∃ r, rc < 0 ∧ w_log w' = w_log w ++ [RemoteFree r])
  ∧ (rc < 0 → out' = out)
  ∧ (out' = out
     ∨ ∃ remote,
         out' = Some remote
         ∧ 0 ≤ rc
         ∧ r_name remote = Some name
         ∧ r_download_tags remote ≠ GIT_REMOTE_DOWNLOAD_TAGS_UNSET
         ∧ r_check_cert remote = 1
         ∧ cb_update_tips (r_callbacks remote) = None
         ∧ r_transport remote = None).
Proof.
  unfold git_remote_load, parse_remote_refspec, download_tags_value, load_cleanup.
  intros Hrun. unbind;
    repeat match goal with
    | Hget : config_get_string _ _ = Some _ |- _ =>
        apply config_get_string_inv in Hget as (-> & ? & ? & ?)
    | Hptr : git_repository_config__weakptr _ = Some _ |- _ =>
        apply weakptr_inv in Hptr as [-> _]
    | Hfree : git_remote_free (Some _) _ = Some _ |- _ => apply free_inv in Hfree as ->
    | Heq : (_, _) = (_, _) |- _ => injection Heq as ? ?; subst
    | Hlt : (_ <? _) = true |- _ => apply Z.ltb_lt in Hlt
    | Hge : (_ <? _) = false |- _ => apply Z.ltb_ge in Hge
    | Htags : r_download_tags _ = _ |- _ => cbn in Htags; discriminate Htags
    end;
    cbn [w_repo w_err w_log record_event];
    (split; [reflexivity|split; [reflexivity|]]);
    (split; [first [left; reflexivity | right; eexists; split; [lia|reflexivity]]|]);
    (split; [intros; first [reflexivity | exfalso; lia]|]);
    first [left; reflexivity
          |right; eexists; split; [reflexivity|];
           repeat match goal with
           | |- context [match ?o with Some _ => _ | None => _ end] => destruct o
           end;
           cbn; repeat split; first [discriminate | lia | reflexivity]].
Qed.


(** X13. What [git_remote_load] can do.  It never changes the repository
    or the error state, and the only thing it logs is the release of the
    remote it was building.  With a negative result [*out] is as it was; with
    another result nothing was logged, and a remote it stored in [*out] has
    the name asked for, a [download_tags] that is not [UNSET], the
    certificate check on, no callback and no transport. *)
Theorem load_outcomes out name w rc out' w' :
  git_remote_load out name w = Some ((rc, out'), w') →
  w_repo w' = w_repo w
  ∧ w_err w' = w_err w
  ∧ (w_log w' = w_log w ∨ ∃ r, rc < 0 ∧ w_log w' = w_log w ++ [RemoteFree r])
  ∧ (rc < 0 → out' = out)
  ∧ (out' = out
     ∨ ∃ remote,
         out' = Some remote
         ∧ 0 ≤ rc
         ∧ r_name remote = Some name
         ∧ r_download_tags remote ≠ GIT_REMOTE_DOWNLOAD_TAGS_UNSET
         ∧ r_check_cert remote = 1
         ∧ cb_update_tips (r_callbacks remote) = None
         ∧ r_transport remote = None).
Proof. apply load_cases. Qed.

Lemma load_success_keeps_world out name w rc out' w' :
  git_remote_load out name w = Some ((rc, out'), w') → 0 ≤ rc → w' = w.
Proof.
  intros Hrun Hrc.
  destruct (load_cases _ _ _ _ _ _ Hrun) as (Hrepo & Herr & [Hlog|(r & Hneg & _)] & _); [|lia].
  destruct w, w'. simpl in *. congruence.
Qed.

(** X14. Loading a remote that is not configured.  When the lookup of
    [remote.<name>.url] fails, [git_remote_load] returns the result of that
    lookup as it is ([GIT_ENOTFOUND] for an absent key), leaves [*out] and
    the repository alone and releases the remote it was building. *)
Theorem load_of_unconfigured_remote out name w c e v :
  repo_config (w_repo w) = Some c →
  git_config_get_string c ("remote." +:+ name +:+ ".url") = (e, v) →
  e < 0 →
  git_remote_load out name w
  = Some ((e, out), record_event (RemoteFree (blank_remote (Some name) "")) w).
Proof.
  intros Hc Hurl He.
  unfold git_remote_load, load_cleanup, git_repository_config__weakptr, bind, ret.
  rewrite Hc. cbn -[String.append].
  rewrite (config_get_string_run _ c w Hc), Hurl.
  apply Z.ltb_lt in He. rewrite He. reflexivity.
Qed.

(** X15. A failed lookup of the tag option is swallowed.  When the url is
    there, the other keys are absent and the lookup of
    [remote.<name>.tagopt] fails with an error that is not
    [GIT_ENOTFOUND], [git_remote_load] returns 0 although it stored no
    remote in [*out] (and released none); [ensure_remote_doesnot_exist],
    which then hands the pointer it never received to [git_remote_free], is
    undefined. *)
Theorem load_swallows_tagopt_failure out name w c url e v :
  repo_config (w_repo w) = Some c →
  git_config_get_string c ("remote." +:+ name +:+ ".url") = (0, Some url) →
  git_config_get_string c ("remote." +:+ name +:+ ".pushurl") = (GIT_ENOTFOUND, None) →
  git_config_get_string c ("remote." +:+ name +:+ ".fetch") = (GIT_ENOTFOUND, None) →
  git_config_get_string c ("remote." +:+ name +:+ ".push") = (GIT_ENOTFOUND, None) →
  git_config_get_string c ("remote." +:+ name +:+ ".tagopt") = (e, v) →
  e < 0 → e ≠ GIT_ENOTFOUND →
  git_remote_load out name w = Some ((0, out), w)
  ∧ ensure_remote_doesnot_exist name w = None.
Proof.
  intros Hc Hurl Hpushurl Hfetch Hpush Htagopt He Hne.
  assert (Hload : ∀ out0, git_remote_load out0 name w = Some ((0, out0), w)).
  { intros out0.
    unfold git_remote_load, parse_remote_refspec, download_tags_value, load_cleanup,
      git_repository_config__weakptr, bind, ret.
    rewrite Hc.
    assert (Hzero : (e =? 0) = false) by (apply Z.eqb_neq; lia).
    assert (Hfound : (e =? GIT_ENOTFOUND) = false) by (apply Z.eqb_neq; exact Hne).
    assert (Hneg : (e <? 0) = true) by (apply Z.ltb_lt; exact He).
    repeat (rewrite ?(config_get_string_run _ c _ Hc), ?Hurl, ?Hpushurl, ?Hfetch, ?Hpush;
            cbn -[String.append]).
    rewrite Htagopt. cbn -[String.append Z.eqb Z.ltb].
    rewrite Hzero, Hfound, Hneg. reflexivity. }
  split; [apply Hload|].
  unfold ensure_remote_doesnot_exist, bind. rewrite Hload. reflexivity.
Qed.

End LoadResults.

Lemma lookup_delete_key_same {V} key (store : list (string * V)) :
  Model.lookup_key key (Model.delete_key key store) = None.
Proof.
  unfold Model.delete_key. induction store as [|[k v] rest IH]; simpl; [reflexivity|].
  destruct (String.eqb k key) eqn:Hk; simpl; [exact IH|]. rewrite Hk. exact IH.
Qed.

Lemma lookup_delete_key_other {V} key other (store : list (string * V)) :
  other ≠ key →
  Model.lookup_key other (Model.delete_key key store) = Model.lookup_key other store.
Proof.
  intros Hother. unfold Model.delete_key.
  induction store as [|[k v] rest IH]; simpl; [reflexivity|].
  destruct (String.eqb_spec k key) as [->|Hk]; simpl.
  - destruct (String.eqb_spec key other); [congruence|exact IH].
  - destruct (String.eqb k other); [reflexivity|exact IH].
Qed.

(** The executable configuration store keeps its word. *)
Lemma model_config_keeps_its_word : @config_keeps_its_word Model.collaborators.
Proof.
  split; [|split]; simpl; unfold Model.config_get, Model.config_set, Model.config_delete.
  - intros c key e v Hget. destruct (Model.lookup_key key c) as [value|];
      injection Hget as <- <-; [left; eauto|right; split; [reflexivity|reflexivity]].
  - intros c key value e c' Hset _. injection Hset as <- <-. split.
    + rewrite lookup_set_key_same. reflexivity.
    + intros other Hother. rewrite lookup_set_key_other by exact Hother. reflexivity.
  - intros c key e c' Hdel _.
    destruct (Model.lookup_key key c) as [value|] eqn:Hfound; injection Hdel as <- <-.
    + split; [rewrite lookup_delete_key_same; reflexivity|].
      intros other Hother. rewrite lookup_delete_key_other by exact Hother. reflexivity.
    + split; [rewrite Hfound; reflexivity|reflexivity].
Qed.

(** Saving the persisted [origin] of the examples into an empty
    configuration. *)
Lemma saved_remote_is_read_back_witness :
  let remote := Model.persisted Model.origin_fetch in
  ∃ c',
    repo_config (w_repo (Cases.saved remote (Model.world_of [] []))) = Some c'
    ∧ Model.config_get c' ("remote." +:+ "origin" +:+ ".url") = (0, Some (r_url remote))
    ∧ Model.config_get c' ("remote." +:+ "origin" +:+ ".pushurl")
      = match r_pushurl remote with
        | Some pushurl => (0, Some pushurl)
        | None => (GIT_ENOTFOUND, None)
        end
    ∧ Model.config_get c' ("remote." +:+ "origin" +:+ ".tagopt")
      = match r_download_tags remote with
        | GIT_REMOTE_DOWNLOAD_TAGS_ALL => (0, Some "--tags")
        | GIT_REMOTE_DOWNLOAD_TAGS_NONE => (0, Some "--no-tags")
        | _ => (GIT_ENOTFOUND, None)
        end
    ∧ (∀ text, is_Some (rs_src (r_fetch remote)) → is_Some (rs_dst (r_fetch remote)) →
               Model.serialize (r_fetch remote) = Some text →
               Model.config_get c' ("remote." +:+ "origin" +:+ ".fetch") = (0, Some text))
    ∧ (∀ text, is_Some (rs_src (r_push remote)) → is_Some (rs_dst (r_push remote)) →
               Model.serialize (r_push remote) = Some text →
               Model.config_get c' ("remote." +:+ "origin" +:+ ".push") = (0, Some text)).
Proof.
  apply (@saved_remote_is_read_back Model.collaborators (Model.persisted Model.origin_fetch)
           "origin" (Model.world_of [] [])).
  - exact model_config_keeps_its_word.
  - reflexivity.
  - vm_compute. reflexivity.
Defined.

(** Saving a remote whose fetch refspec has no destination over an older
    refspec: the older refspec stays. *)
Lemma save_skips_incomplete_refspecs_witness :
  let remote := Model.persisted Cases.half_fetch in
  ∃ c',
    repo_config (w_repo (Cases.saved remote (Model.world_of Cases.stale_config []))) = Some c'
    ∧ (rs_src (r_fetch remote) = None ∨ rs_dst (r_fetch remote) = None →
       Model.config_get c' ("remote." +:+ "origin" +:+ ".fetch")
       = Model.config_get Cases.stale_config ("remote." +:+ "origin" +:+ ".fetch"))
    ∧ (rs_src (r_push remote) = None ∨ rs_dst (r_push remote) = None →
       Model.config_get c' ("remote." +:+ "origin" +:+ ".push")
       = Model.config_get Cases.stale_config ("remote." +:+ "origin" +:+ ".push")).
Proof.
  apply (@save_skips_incomplete_refspecs Model.collaborators (Model.persisted Cases.half_fetch)
           "origin" (Model.world_of Cases.stale_config [])).
  - exact model_config_keeps_its_word.
  - reflexivity.
  - reflexivity.
  - vm_compute. reflexivity.
Defined.

(** Saving the persisted [origin] of the examples and loading it back. *)
Lemma saved_remote_loads_back_witness :
  let remote := Model.persisted Model.origin_fetch in
  let w' := Cases.saved remote (Model.world_of [] []) in
  @git_remote_load Model.collaborators None "origin" w'
  = Some ((0, Some (as_loaded remote)), w').
Proof.
  apply (@saved_remote_loads_back Model.collaborators (Model.persisted Model.origin_fetch)
           "origin" None (Model.world_of [] []) _ []).
  - exact model_config_keeps_its_word.
  - reflexivity.
  - reflexivity.
  - left. split; [eexists; reflexivity|]. split; [eexists; reflexivity|].
    eexists. split; vm_compute; reflexivity.
  - right. split; reflexivity.
  - vm_compute. reflexivity.
Defined.

(** Loading a remote from an empty configuration. *)
Lemma load_of_unconfigured_remote_witness :
  @git_remote_load Model.collaborators None "origin" (Model.world_of [] [])
  = Some ((GIT_ENOTFOUND, None),
          record_event (RemoteFree (blank_remote (Some "origin") "")) (Model.world_of [] [])).
Proof.
  apply (@load_of_unconfigured_remote Model.collaborators None "origin"
           (Model.world_of [] []) [] GIT_ENOTFOUND None); reflexivity.
Defined.

(** Loading [origin] from a store that holds its url and cannot read the
    tag option. *)
Lemma load_swallows_tagopt_failure_witness :
  @git_remote_load Cases.unreadable_tagopt None "origin" Cases.unreadable_world
  = Some ((0, None), Cases.unreadable_world)
  ∧ @ensure_remote_doesnot_exist Cases.unreadable_tagopt "origin" Cases.unreadable_world = None.
Proof.
  apply (@load_swallows_tagopt_failure Cases.unreadable_tagopt None "origin"
           Cases.unreadable_world Cases.url_only "git://example.com/repo.git" (-1) None);
    first [reflexivity | discriminate].
Defined.

(** Loading [origin] from the configuration of the rename examples. *)
Lemma load_outcomes_witness :
  let w := Model.mirror_world in
  let loaded := as_loaded (Model.persisted Model.mirror_fetch) in
  w_repo w = w_repo w
  ∧ w_err w = w_err w
  ∧ (w_log w = w_log w ∨ ∃ r, 0 < 0 ∧ w_log w = w_log w ++ [RemoteFree r])
  ∧ (0 < 0 → Some loaded = None)
  ∧ (Some loaded = None
     ∨ ∃ remote,
         Some loaded = Some remote
         ∧ 0 ≤ 0
         ∧ r_name remote = Some "origin"
         ∧ r_download_tags remote ≠ GIT_REMOTE_DOWNLOAD_TAGS_UNSET
         ∧ r_check_cert remote = 1
         ∧ cb_update_tips (r_callbacks remote) = None
         ∧ r_transport remote = None).
Proof.
  apply (@load_outcomes Model.collaborators None "origin" Model.mirror_world 0
           (Some (as_loaded (Model.persisted Model.mirror_fetch))) Model.mirror_world).
  vm_compute. reflexivity.
Defined.

(** Adding [origin] with another url to a repository that has an
    [origin]. *)
Lemma add_overwrites_without_a_check_witness :
  let added := Cases.added_again in
  (added.1.1 = 0 ∨ added.1.1 = -1)
  ∧ (added.1.1 = 0 →
     ∃ remote c',
       added.1.2 = Holds (Some remote)
       ∧ r_name remote = Some "origin"
       ∧ r_url remote = "git://example.org/other.git"
       ∧ repo_config (w_repo added.2) = Some c'
       ∧ Model.config_get c' ("remote." +:+ "origin" +:+ ".url")
         = (0, Some "git://example.org/other.git")
       ∧ Model.config_get c' ("remote." +:+ "origin" +:+ ".pushurl")
         = (GIT_ENOTFOUND, None)).
Proof.
  apply (@add_overwrites_without_a_check Model.collaborators Indeterminate "origin"
           "git://example.org/other.git" Cases.origin_world).
  - exact model_config_keeps_its_word.
  - vm_compute. reflexivity.
Defined.

(** ** Strings: [strstr], pointer offsets and [git_buf_splice] *)

Lemma append_assoc (a b c : string) : (a +:+ b) +:+ c = a +:+ (b +:+ c).
Proof.
  induction a as [|ch a IH]; [reflexivity|].
  change (String ch ((a +:+ b) +:+ c) = String ch (a +:+ (b +:+ c))). f_equal. exact IH.
Qed.

Lemma substring_0_append (a b : string) (k : nat) :
  String.substring 0 (String.length a + k) (a +:+ b) = a +:+ String.substring 0 k b.
Proof. induction a as [|ch a IH]; simpl; [reflexivity|]. rewrite IH. reflexivity. Qed.

Lemma substring_skip_append (a b : string) (k n : nat) :
  String.substring (String.length a + k) n (a +:+ b) = String.substring k n b.
Proof. induction a as [|ch a IH]; simpl; [reflexivity|exact IH]. Qed.

Lemma length_append (a b : string) :
  String.length (a +:+ b) = (String.length a + String.length b)%nat.
Proof. induction a as [|ch a IH]; simpl; [reflexivity|]. rewrite IH. reflexivity. Qed.

Lemma substring_all (s : string) : String.substring 0 (String.length s) s = s.
Proof. induction s as [|ch s IH]; simpl; [reflexivity|]. rewrite IH. reflexivity. Qed.

Lemma string_from_append (a b : string) (k : nat) :
  string_from (String.length a + k) (a +:+ b) = string_from k b.
Proof.
  unfold string_from. rewrite substring_skip_append, length_append. f_equal. lia.
Qed.

Lemma string_from_0 (s : string) : string_from 0 s = s.
Proof. unfold string_from. rewrite Nat.sub_0_r. apply substring_all. Qed.

(** A substring of full length splits the string around it. *)
Lemma substring_split (s : string) : ∀ m n,
  String.length (String.substring m n s) = n →
  s = String.substring 0 m s +:+ String.substring m n s +:+ string_from (m + n) s.
Proof.
  induction s as [|ch s IH]; intros m n Hlen.
  - destruct m, n; simpl in *; try discriminate; reflexivity.
  - destruct m as [|m].
    + destruct n as [|n]; simpl in *.
      * rewrite (string_from_0 (String ch s)). reflexivity.
      * injection Hlen as Hlen.
        pose proof (IH 0%nat n Hlen) as Hsplit. simpl in Hsplit.
        assert (Hhead : String.substring 0 0 s = "") by (destruct s; reflexivity).
        rewrite Hhead in Hsplit.
        unfold string_from in *. simpl.
        change (String ch s
                = String ch ("" +:+ String.substring 0 n s
                             +:+ String.substring n (String.length s - n) s)).
        f_equal. exact Hsplit.
    + simpl in *. unfold string_from in *. simpl.
      change (String ch s
              = String ch (String.substring 0 m s +:+ String.substring m n s
                           +:+ String.substring (m + n) (String.length s - (m + n)) s)).
      f_equal. apply IH. exact Hlen.
Qed.

Lemma substring_0_length (s : string) : ∀ pos,
  (pos ≤ String.length s)%nat → String.length (String.substring 0 pos s) = pos.
Proof.
  induction s as [|ch s IH]; intros [|pos] Hle; simpl in *; try reflexivity; [lia|].
  f_equal. apply IH. lia.
Qed.

Lemma substring_length_bound (s : string) : ∀ m n,
  String.length (String.substring m n s) = n → (0 < n)%nat →
  (m + n ≤ String.length s)%nat.
Proof.
  induction s as [|ch s IH]; intros m n Hlen Hpos.
  - destruct m, n; simpl in *; lia.
  - destruct m as [|m]; simpl in *.
    + destruct n as [|n]; [lia|]. simpl in Hlen. injection Hlen as Hlen.
      destruct n as [|n]; [lia|]. specialize (IH 0%nat (S n) Hlen). lia.
    + specialize (IH m n Hlen Hpos). lia.
Qed.

(** X16. What the splice of [rename_fetch_refspecs] does to the serialized
    refspec: the text splits around the first occurrence of
    [:refs/remotes/<old>/], and the spliced text is the same with [<new>] in
    the place of [<old>] in that occurrence; nothing else changes. *)
Theorem splice_replaces_the_remote_name (text old_name new_name : string) (pos : nat) :
  strstr text (":refs/remotes/" +:+ old_name +:+ "/") = Some pos →
  ∃ before after,
    text = before +:+ ":refs/remotes/" +:+ old_name +:+ "/" +:+ after
    ∧ String.length before = pos
    ∧ git_buf_splice text (pos + String.length ":refs/remotes/") (String.length old_name)
        new_name
      = before +:+ ":refs/remotes/" +:+ new_name +:+ "/" +:+ after.
Proof.
  unfold strstr. intros Hfound.
  pose proof (String.index_correct1 _ _ _ _ Hfound) as Hsub.
  set (needle := ":refs/remotes/" +:+ old_name +:+ "/") in *.
  assert (Hlen : String.length (String.substring pos (String.length needle) text)
                 = String.length needle) by (rewrite Hsub; reflexivity).
  pose proof (substring_split text pos (String.length needle) Hlen) as Hsplit.
  rewrite Hsub in Hsplit.
  set (before := String.substring 0 pos text) in *.
  set (after := string_from (pos + String.length needle) text) in *.
  assert (Hbefore : String.length before = pos).
  { apply substring_0_length.
    pose proof (substring_length_bound text pos (String.length needle) Hlen) as Hbound.
    assert (0 < String.length needle)%nat by (subst needle; simpl; lia). lia. }
  assert (Htext : text = before +:+ ":refs/remotes/" +:+ old_name +:+ "/" +:+ after).
  { rewrite Hsplit at 1. subst needle.
    change ((":refs/remotes/" +:+ old_name +:+ "/") +:+ after)
      with (":refs/remotes/" +:+ ((old_name +:+ "/") +:+ after)).
    rewrite (append_assoc old_name "/" after). reflexivity. }
  exists before, after. split; [exact Htext|]. split; [exact Hbefore|].
  unfold git_buf_splice. rewrite Htext at 1 2.
  rewrite <- Hbefore at 1 2.
  rewrite (substring_0_append before _ (String.length ":refs/remotes/")).
  rewrite <- Nat.add_assoc, (string_from_append before).
  assert (Hnil : ∀ s, String.substring 0 0 s = "") by (intros []; reflexivity).
  change (String.substring 0 (String.length ":refs/remotes/")
            (":refs/remotes/" +:+ old_name +:+ "/" +:+ after))
    with (":refs/remotes/" +:+ String.substring 0 0 (old_name +:+ "/" +:+ after)).
  rewrite Hnil.
  rewrite (string_from_append ":refs/remotes/" (old_name +:+ "/" +:+ after)).
  rewrite <- (Nat.add_0_r (String.length old_name)).
  rewrite (string_from_append old_name), string_from_0.
  change ((before +:+ ":refs/remotes/" +:+ "") +:+ new_name +:+ "/" +:+ after)
    with ((before +:+ ":refs/remotes/") +:+ new_name +:+ "/" +:+ after).
  rewrite (append_assoc before). reflexivity.
Qed.

Lemma splice_replaces_the_remote_name_witness :
  ∃ before after,
    "+refs/heads/*:refs/remotes/origin/*"
    = before +:+ ":refs/remotes/" +:+ "origin" +:+ "/" +:+ after
    ∧ String.length before = 13%nat
    ∧ git_buf_splice "+refs/heads/*:refs/remotes/origin/*"
        (13 + String.length ":refs/remotes/") (String.length "origin") "upstream"
      = before +:+ ":refs/remotes/" +:+ "upstream" +:+ "/" +:+ after.
Proof.
  apply (splice_replaces_the_remote_name "+refs/heads/*:refs/remotes/origin/*"
           "origin" "upstream" 13).
  reflexivity.
Defined.

Section RenameSteps.
Context `{Collaborators}.

Local Notation "x <- m ;; k" := (bind m (λ x, k))
  (at level 100, m at next level, right associativity).

Lemma update_config_refspec_frames name refspec direction :
  frames same_refs quiet_step (update_config_refspec name refspec direction).
Proof.
  unfold update_config_refspec.
  frames_walk same_refs_refl same_refs_trans ltac:(reflexivity).
Qed.

(** What [rename_fetch_refspecs] does on a persisted remote whose refspec
    holds [:refs/remotes/<name>/]. *)
Lemma rename_fetch_refspecs_standard remote name new_name callback text pos pe fetch' w :
  r_name remote = Some name →
  rs_src (r_fetch remote) ≠ None ∨ rs_dst (r_fetch remote) ≠ None →
  git_refspec__serialize (r_fetch remote) = Some text →
  strstr text (":refs/remotes/" +:+ name +:+ "/") = Some pos →
  git_refspec__parse
    (git_buf_splice text (pos + String.length ":refs/remotes/") (String.length name) new_name)
    true = (pe, fetch') →
  0 ≤ pe →
  is_Some (repo_config (w_repo w)) →
  rename_fetch_refspecs remote new_name callback w
  = match update_config_refspec new_name fetch' GIT_DIR_FETCH w with
    | Some (rc, w') => Some ((rc, set_fetch remote fetch'), w')
    | None => None
    end.
Proof.
  intros Hname Hspec Htext Hpos Hparse Hpe [c Hc]. unfold rename_fetch_refspecs.
  rewrite Htext, Hname, Hpos, Hparse.
  replace (pe <? 0) with false by (symmetry; apply Z.ltb_ge; exact Hpe).
  assert (Hstep : (have_config <- git_repository_config__weakptr ;;
                   if have_config <? 0 then ret (-1, set_fetch remote fetch')
                   else error <- update_config_refspec new_name
                                   (r_fetch (set_fetch remote fetch')) GIT_DIR_FETCH ;;
                        ret (error, set_fetch remote fetch')) w
                  = match update_config_refspec new_name fetch' GIT_DIR_FETCH w with
                    | Some (rc, w') => Some ((rc, set_fetch remote fetch'), w')
                    | None => None
                    end).
  { unfold bind, git_repository_config__weakptr. rewrite Hc. reflexivity. }
  destruct (rs_src (r_fetch remote)), (rs_dst (r_fetch remote));
    try exact Hstep.
  destruct Hspec; contradiction.
Qed.

Lemma update_config_refspec_returns name refspec direction w :
  is_Some (repo_config (w_repo w)) →
  ∃ rc w', update_config_refspec name refspec direction w = Some (rc, w').
Proof.
  intros [c Hc]. unfold update_config_refspec, config_set_string, ret.
  destruct (rs_src refspec), (rs_dst refspec); eauto.
  destruct (git_refspec__serialize refspec); eauto.
  rewrite Hc. destruct (git_config_set_string c _ _). eauto.
Qed.

(** X17. Renaming a persisted remote whose refspec has the standard
    destination.  When the serialized fetch refspec holds
    [:refs/remotes/<old>/] and the steps before the refspec succeeded, the
    rename parses the spliced text into the remote's fetch refspec and, when
    that is accepted, writes it with [update_config_refspec] under the new
    name; the result is the negative result of that write, with the name
    kept, or 0 with the name changed.  The callback is not consulted: it may
    be absent, and the whole rename reports no refspec. *)
Theorem rename_rewrites_standard_refspec remote old_name new_name callback text pos pe fetch'
    w e w3 :
  r_name remote = Some old_name →
  rs_src (r_fetch remote) ≠ None ∨ rs_dst (r_fetch remote) ≠ None →
  git_refspec__serialize (r_fetch remote) = Some text →
  strstr text (":refs/remotes/" +:+ old_name +:+ "/") = Some pos →
  git_refspec__parse
    (git_buf_splice text (pos + String.length ":refs/remotes/") (String.length old_name)
       new_name)
    true = (pe, fetch') →
  0 ≤ pe →
  rename_steps_before_refspec old_name new_name w = Some (e, w3) →
  0 ≤ e →
  is_Some (repo_config (w_repo w3)) →
  ∃ rc w',
    update_config_refspec new_name fetch' GIT_DIR_FETCH w3 = Some (rc, w')
    ∧ git_remote_rename remote new_name callback w
      = Some ((if rc <? 0 then rc else 0,
               if rc <? 0 then set_fetch remote fetch'
               else set_name (set_fetch remote fetch') (Some new_name)),
              w')
    ∧ ∃ evs, w_log w' = w_log w ++ evs ∧ List.filter is_problematic evs = [].
Proof.
  intros Hname Hspec Htext Hpos Hparse Hpe Hsteps He Hconfig.
  destruct (update_config_refspec_returns new_name fetch' GIT_DIR_FETCH w3 Hconfig)
    as (rc & w' & Hwrite).
  exists rc, w'. split; [exact Hwrite|]. split.
  - unfold git_remote_rename, rename_steps_before_refspec, bind in *.
    destruct (ensure_remote_doesnot_exist new_name w) as [[e1 w1]|]; [|discriminate].
    destruct (e1 <? 0) eqn:He1;
      [injection Hsteps as <- <-; apply Z.ltb_lt in He1; lia|].
    destruct (ensure_remote_name_is_valid (Some new_name) w1) as [[e2 w2]|]; [|discriminate].
    destruct (e2 <? 0) eqn:He2;
      [injection Hsteps as <- <-; apply Z.ltb_lt in He2; lia|].
    rewrite Hname.
    destruct (rename_remote_config_section old_name new_name w2) as [[e3 w4]|]; [|discriminate].
    destruct (e3 <? 0) eqn:He3;
      [injection Hsteps as <- <-; apply Z.ltb_lt in He3; lia|].
    destruct (update_branch_remote_config_entry old_name new_name w4) as [[e4 w5]|];
      [|discriminate].
    destruct (e4 <? 0) eqn:He4;
      [injection Hsteps as <- <-; apply Z.ltb_lt in He4; lia|].
    destruct (rename_remote_references old_name new_name w5) as [[e5 w6]|]; [|discriminate].
    destruct (e5 <? 0) eqn:He5;
      [injection Hsteps as <- <-; apply Z.ltb_lt in He5; lia|].
    injection Hsteps as _ <-.
    rewrite (rename_fetch_refspecs_standard _ _ _ callback _ _ _ _ _
               Hname Hspec Htext Hpos Hparse Hpe Hconfig).
    rewrite Hwrite. destruct (rc <? 0); reflexivity.
  - destruct (steps_before_refspec_frames _ _ _ _ _ Hsteps) as [_ (evs3 & Hlog3 & Hquiet3)].
    destruct (update_config_refspec_frames _ _ _ _ _ _ Hwrite) as [_ (evs & Hlog & Hquiet)].
    exists (evs3 ++ evs). rewrite Hlog, Hlog3, <- app_assoc. split; [reflexivity|].
    apply quiet_steps_report_nothing. rewrite forallb_app, Hquiet3, Hquiet. reflexivity.
Qed.

(** X18. The problematic-refspec callback is called without a look at the
    pointer.  For a remote with a fetch refspec that has to be reported (the
    remote is in memory, or its serialized refspec does not hold
    [:refs/remotes/<name>/]), [rename_fetch_refspecs] with no callback is
    undefined, and so is the rename of such a persisted remote once the
    steps before the refspec succeeded. *)
Theorem rename_calls_the_callback_unchecked remote new_name text :
  rs_src (r_fetch remote) ≠ None ∨ rs_dst (r_fetch remote) ≠ None →
  git_refspec__serialize (r_fetch remote) = Some text →
  match r_name remote with
  | None => True
  | Some name => strstr text (":refs/remotes/" +:+ name +:+ "/") = None
  end →
  (∀ w, rename_fetch_refspecs remote new_name None w = None)
  ∧ (∀ name w e w3,
       r_name remote = Some name →
       rename_steps_before_refspec name new_name w = Some (e, w3) →
       0 ≤ e →
       git_remote_rename remote new_name None w = None).
Proof.
  intros Hspec Htext Hreported.
  assert (Hstep : ∀ w, rename_fetch_refspecs remote new_name None w = None).
  { intros w. unfold rename_fetch_refspecs. rewrite Htext.
    destruct (r_name remote) as [name|]; [rewrite Hreported|];
      destruct (rs_src (r_fetch remote)), (rs_dst (r_fetch remote)); try reflexivity;
      destruct Hspec; contradiction. }
  split; [exact Hstep|].
  intros name w e w3 Hname Hsteps He.
  unfold git_remote_rename, rename_steps_before_refspec, bind in *.
  destruct (ensure_remote_doesnot_exist new_name w) as [[e1 w1]|]; [|discriminate].
  destruct (e1 <? 0) eqn:He1;
    [injection Hsteps as <- <-; apply Z.ltb_lt in He1; lia|].
  destruct (ensure_remote_name_is_valid (Some new_name) w1) as [[e2 w2]|]; [|discriminate].
  destruct (e2 <? 0) eqn:He2;
    [injection Hsteps as <- <-; apply Z.ltb_lt in He2; lia|].
  rewrite Hname.
  destruct (rename_remote_config_section name new_name w2) as [[e3 w4]|]; [|discriminate].
  destruct (e3 <? 0) eqn:He3;
    [injection Hsteps as <- <-; apply Z.ltb_lt in He3; lia|].
  destruct (update_branch_remote_config_entry name new_name w4) as [[e4 w5]|];
    [|discriminate].
  destruct (e4 <? 0) eqn:He4;
    [injection Hsteps as <- <-; apply Z.ltb_lt in He4; lia|].
  destruct (rename_remote_references name new_name w5) as [[e5 w6]|]; [|discriminate].
  destruct (e5 <? 0) eqn:He5;
    [injection Hsteps as <- <-; apply Z.ltb_lt in He5; lia|].
  rewrite Hstep. reflexivity.
Qed.

End RenameSteps.

Section RenameReferences.
Context `{Collaborators}.

Lemma rename_one_inv reference_name old_name new_name e w w' :
  rename_one_remote_reference reference_name old_name new_name w = Some (e, w') →
  0 ≤ e →
  w_log w' = w_log w ++ [RefRename reference_name
                           (renamed_reference old_name new_name reference_name) e]
  ∧ repo_config (w_repo w') = repo_config (w_repo w)
  ∧ repo_odb (w_repo w') = repo_odb (w_repo w).
Proof.
  unfold rename_one_remote_reference, renamed_reference. intros Hrun He.
  destruct (_ <? _)%nat; [discriminate|].
  destruct (git_reference_lookup _ _ <? 0); [injection Hrun as <- _; lia|].
  destruct (git_reference_rename _ _ _ _) as [error rdb'].
  injection Hrun as <- <-. auto.
Qed.

Lemma rename_each_inv refnames old_name new_name : ∀ w rc w',
  rename_each refnames old_name new_name w = Some (rc, w') →
  0 ≤ rc →
  repo_config (w_repo w') = repo_config (w_repo w)
  ∧ repo_odb (w_repo w') = repo_odb (w_repo w)
  ∧ ∃ evs,
      w_log w' = w_log w ++ evs
      ∧ Forall2 (λ name ev, ∃ e, 0 ≤ e
                   ∧ ev = RefRename name (renamed_reference old_name new_name name) e)
          refnames evs.
Proof.
  induction refnames as [|name rest IH]; intros w rc w' Hrun Hrc; simpl in Hrun.
  { apply ret_inv in Hrun as [_ ->]. split; [reflexivity|]. split; [reflexivity|].
    exists []. rewrite app_nil_r. split; [reflexivity|constructor]. }
  apply bind_inv in Hrun as (e & w1 & Hone & Hrun).
  destruct (Z.ltb_spec e 0) as [Hneg|Hpos]; [apply ret_inv in Hrun as [-> _]; lia|].
  destruct (rename_one_inv _ _ _ _ _ _ Hone Hpos) as (Hlog1 & Hcfg1 & Hodb1).
  destruct (IH _ _ _ Hrun Hrc) as (Hcfg & Hodb & evs & Hlog & Hall).
  split; [congruence|]. split; [congruence|].
  exists (RefRename name (renamed_reference old_name new_name name) e :: evs).
  split; [rewrite Hlog, Hlog1, <- app_assoc; reflexivity|].
  constructor; eauto.
Qed.

(** X19. Which references a rename moves.  A [rename_remote_references]
    that did not fail renamed every reference whose name starts with
    [refs/remotes/], in the order of the listing and whichever remote it
    belongs to, each to [refs/remotes/<new>] followed by what its name holds
    after the first [strlen("refs/remotes/") + strlen(<old>)] characters; it
    logged nothing else and left the configuration and the object database
    alone. *)
Theorem every_remote_tracking_reference_is_renamed old_name new_name w rc w' :
  rename_remote_references old_name new_name w = Some (rc, w') →
  0 ≤ rc →
  repo_config (w_repo w') = repo_config (w_repo w)
  ∧ repo_odb (w_repo w') = repo_odb (w_repo w)
  ∧ ∃ evs,
      w_log w' = w_log w ++ evs
      ∧ Forall2 (λ name ev, ∃ e, 0 ≤ e
                   ∧ ev = RefRename name (renamed_reference old_name new_name name) e)
          (List.filter rename_cb (snd (git_reference_list (repo_refdb (w_repo w)))))
          evs.
Proof.
  unfold rename_remote_references. intros Hrun Hrc.
  destruct (git_reference_list (repo_refdb (w_repo w))) as [lrc names].
  destruct (lrc <? 0); [injection Hrun as <- _; lia|].
  apply (rename_each_inv _ _ _ _ _ _ Hrun Hrc).
Qed.

(** X20. A reference below [refs/remotes/] whose name is shorter than
    [refs/remotes/<old>] takes the rename out of its domain: when the first
    of the listed references below [refs/remotes/] is that short,
    [rename_remote_references] reads the name past its end. *)
Theorem rename_reads_past_a_short_reference_name old_name new_name w rc names name rest :
  git_reference_list (repo_refdb (w_repo w)) = (rc, names) →
  0 ≤ rc →
  List.filter rename_cb names = name :: rest →
  (String.length name < String.length GIT_REFS_REMOTES_DIR + String.length old_name)%nat →
  rename_remote_references old_name new_name w = None.
Proof.
  intros Hlist Hrc Hfirst Hshort. unfold rename_remote_references. rewrite Hlist.
  replace (rc <? 0) with false by (symmetry; apply Z.ltb_ge; exact Hrc).
  rewrite Hfirst. simpl. unfold bind, rename_one_remote_reference.
  replace (String.length name <? _)%nat with true; [reflexivity|].
  symmetry. apply Nat.ltb_lt. exact Hshort.
Qed.

End RenameReferences.

Section RenameBranches.
Context `{Collaborators}.

Lemma update_entries_inv old_name new_name entries : ∀ w rc w',
  config_foreach (update_config_entries_cb old_name new_name) entries w = Some (rc, w') →
  same_refs (w_repo w) (w_repo w')
  ∧ ∃ evs,
      w_log w' = w_log w ++ evs
      ∧ (∀ ev, ev ∈ evs → ∃ key e, ev = ConfigSet key new_name e ∧ (key, old_name) ∈ entries)
      ∧ (rc = 0 →
         Forall2 (λ entry ev, ev = ConfigSet (fst entry) new_name 0)
           (List.filter (λ entry, String.eqb (snd entry) old_name) entries) evs).
Proof.
  induction entries as [|[key value] rest IH]; intros w rc w' Hrun; simpl in Hrun.
  { apply ret_inv in Hrun as [_ ->]. split; [apply same_refs_refl|].
    exists []. rewrite app_nil_r. split; [reflexivity|]. split; [|constructor].
    intros ev Hev. inversion Hev. }
  apply bind_inv in Hrun as (e & w1 & Hone & Hrun).
  unfold update_config_entries_cb in Hone. simpl in Hone.
  destruct (String.eqb_spec value old_name) as [->|Hother]; simpl in Hone.
  - apply config_set_string_inv in Hone as (c & c' & Hc & Hset & ->).
    destruct (Z.eqb_spec e 0) as [->|Hfail]; simpl in Hrun.
    + destruct (IH _ _ _ Hrun) as (Hrefs & evs & Hlog & Hin & Hall).
      split; [destruct Hrefs as [Hr Ho]; split; [rewrite Hr|rewrite Ho]; reflexivity|].
      exists (ConfigSet key new_name 0 :: evs).
      split; [rewrite Hlog; simpl; rewrite <- app_assoc; reflexivity|]. split.
      * intros ev Hev. apply elem_of_cons in Hev as [->|Hev].
        -- exists key, 0. split; [reflexivity|]. apply elem_of_cons. left. reflexivity.
        -- destruct (Hin ev Hev) as (k & e & -> & Hk). exists k, e.
           split; [reflexivity|]. apply elem_of_cons. right. exact Hk.
      * intros Hrc. simpl. rewrite String.eqb_refl. constructor; auto.
    + apply ret_inv in Hrun as [-> ->]. split; [split; reflexivity|].
      exists [ConfigSet key new_name e]. split; [reflexivity|]. split.
      * intros ev Hev. apply list_elem_of_singleton in Hev as ->.
        exists key, e. split; [reflexivity|]. apply elem_of_cons. left. reflexivity.
      * intros Hrc. discriminate.
  - apply ret_inv in Hone as [-> ->]. simpl in Hrun.
    destruct (IH _ _ _ Hrun) as (Hrefs & evs & Hlog & Hin & Hall).
    split; [exact Hrefs|]. exists evs. split; [exact Hlog|]. split.
    + intros ev Hev. destruct (Hin ev Hev) as (k & e & -> & Hk). exists k, e.
      split; [reflexivity|]. apply elem_of_cons. right. exact Hk.
    + intros Hrc. simpl. destruct (String.eqb_spec value old_name); [contradiction|]. auto.
Qed.

(** X21. Which branches a rename re-targets.  [update_branch_remote_config_entry]
    writes to nothing but entries the enumeration of [branch.<x>.remote]
    gave it with the old name as value, and what it writes is the new name;
    when it returns 0 it wrote every one of them, in order, each with result
    0.  It leaves the reference store and the object database alone. *)
Theorem only_branches_of_the_old_remote_are_retargeted old_name new_name w rc w' c :
  repo_config (w_repo w) = Some c →
  update_branch_remote_config_entry old_name new_name w = Some (rc, w') →
  same_refs (w_repo w) (w_repo w')
  ∧ ∃ evs,
      w_log w' = w_log w ++ evs
      ∧ (∀ ev, ev ∈ evs →
           ∃ key e, ev = ConfigSet key new_name e
                    ∧ (key, old_name) ∈ git_config_entries_match c "branch\..+\.remote")
      ∧ (rc = 0 →
         Forall2 (λ entry ev, ev = ConfigSet (fst entry) new_name 0)
           (List.filter (λ entry, String.eqb (snd entry) old_name)
              (git_config_entries_match c "branch\..+\.remote"))
           evs).
Proof.
  intros Hc Hrun. unfold update_branch_remote_config_entry in Hrun.
  apply bind_inv in Hrun as (have_config & w1 & Hptr & Hrun).
  apply weakptr_inv in Hptr as [-> _].
  unfold git_repository_config__weakptr in *.
  destruct (have_config <? 0).
  { apply ret_inv in Hrun as [-> ->]. split; [apply same_refs_refl|].
    exists []. rewrite app_nil_r. split; [reflexivity|]. split; [|discriminate].
    intros ev Hev. inversion Hev. }
  unfold git_config_foreach_match in Hrun. rewrite Hc in Hrun.
  apply (update_entries_inv _ _ _ _ _ _ Hrun).
Qed.

End RenameBranches.

Section RenameOutcomes.
Context `{Collaborators}.

Lemma set_fetch_same remote : set_fetch remote (r_fetch remote) = remote.
Proof. destruct remote; reflexivity. Qed.

(** [rename_fetch_refspecs] changes nothing of the remote but its fetch
    refspec. *)
Lemma rename_fetch_refspecs_keeps remote new_name callback w e remote' w' :
  rename_fetch_refspecs remote new_name callback w = Some ((e, remote'), w') →
  remote' = set_fetch remote (r_fetch remote').
Proof.
  unfold rename_fetch_refspecs, report_problematic. intros Hrun.
  unbind;
    repeat match goal with
    | Heq : (_, _) = (_, _) |- _ => injection Heq as ? ?; subst
    end;
    try (symmetry; apply set_fetch_same); try reflexivity.
  all: destruct callback; try discriminate.
  all: try (injection Hrun as _ <- _; symmetry; apply set_fetch_same).
Qed.

(** X22. What a rename does to a persisted remote in memory.  The name is
    the new one exactly when the result is not negative, and then the result
    is 0; after a failure the name is still the old one.  Whatever the
    result, nothing else of the remote changes but, possibly, its fetch
    refspec. *)
Theorem rename_changes_the_name_on_success_only remote old_name new_name callback w
    rc remote' w' :
  r_name remote = Some old_name →
  git_remote_rename remote new_name callback w = Some ((rc, remote'), w') →
  remote' = set_name (set_fetch remote (r_fetch remote'))
              (Some (if rc <? 0 then old_name else new_name))
  ∧ (0 ≤ rc → rc = 0).
Proof.
  intros Hname Hrun. unfold git_remote_rename in Hrun. rewrite Hname in Hrun.
  assert (Hkept : ∀ fetch, set_name (set_fetch remote fetch) (Some old_name)
                           = set_fetch remote fetch).
  { intros fetch. destruct remote; simpl in *. subst. reflexivity. }
  assert (Hfailed : ∀ e, (e <? 0) = true →
    remote = set_name (set_fetch remote (r_fetch remote))
               (Some (if e <? 0 then old_name else new_name)) ∧ (0 ≤ e → e = 0)).
  { intros e He. rewrite He, Hkept, set_fetch_same. split; [reflexivity|].
    apply Z.ltb_lt in He. lia. }
  apply bind_inv in Hrun as (e1 & w1 & _ & Hrun).
  destruct (e1 <? 0) eqn:He1; [apply ret_inv in Hrun as [Heq _]; injection Heq as -> ->; auto|].
  apply bind_inv in Hrun as (e2 & w2 & _ & Hrun).
  destruct (e2 <? 0) eqn:He2; [apply ret_inv in Hrun as [Heq _]; injection Heq as -> ->; auto|].
  apply bind_inv in Hrun as (e3 & w3 & _ & Hrun).
  destruct (e3 <? 0) eqn:He3; [apply ret_inv in Hrun as [Heq _]; injection Heq as -> ->; auto|].
  apply bind_inv in Hrun as (e4 & w4 & _ & Hrun).
  destruct (e4 <? 0) eqn:He4; [apply ret_inv in Hrun as [Heq _]; injection Heq as -> ->; auto|].
  apply bind_inv in Hrun as (e5 & w5 & _ & Hrun).
  destruct (e5 <? 0) eqn:He5; [apply ret_inv in Hrun as [Heq _]; injection Heq as -> ->; auto|].
  apply bind_inv in Hrun as ([e6 renamed] & w6 & Hspec & Hrun).
  apply rename_fetch_refspecs_keeps in Hspec.
  destruct (e6 <? 0) eqn:He6; apply ret_inv in Hrun as [Heq _]; injection Heq as -> ->.
  - rewrite He6, Hkept. split; [exact Hspec|]. apply Z.ltb_lt in He6. lia.
  - split; [|reflexivity]. simpl. rewrite Hspec at 1. destruct remote; reflexivity.
Qed.

(** X23. Renaming to a name that is taken.  When [git_remote_load] finds a
    remote under the new name, [git_remote_rename] returns [GIT_EEXISTS]
    with the message that the remote already exists; it released the remote
    it had loaded and did nothing else: the remote in memory and the
    repository are as they were, and the callback was not called. *)
Theorem rename_to_a_taken_name remote new_name callback w rc loaded w1 :
  git_remote_load None new_name w = Some ((rc, Some loaded), w1) →
  0 ≤ rc →
  git_remote_rename remote new_name callback w
  = Some ((GIT_EEXISTS, remote),
          {| w_repo := w_repo w;
             w_err := Some (GITERR_CONFIG, "Remote '" +:+ new_name +:+ "' already exists.");
             w_log := w_log w ++ [RemoteFree loaded] |}).
Proof.
  intros Hload Hrc.
  pose proof (load_success_keeps_world _ _ _ _ _ _ Hload Hrc) as ->.
  unfold git_remote_rename, ensure_remote_doesnot_exist, bind. rewrite Hload.
  replace (rc =? GIT_ENOTFOUND) with false
    by (symmetry; apply Z.eqb_neq; unfold GIT_ENOTFOUND; lia).
  replace (rc <? 0) with false by (symmetry; apply Z.ltb_ge; exact Hrc).
  reflexivity.
Qed.

End RenameOutcomes.

(** Renaming the persisted [origin], with the default refspec, to
    [upstream], without a callback. *)
Lemma rename_rewrites_standard_refspec_witness :
  ∃ rc w',
    @update_config_refspec Model.collaborators "upstream" Model.upstream_fetch GIT_DIR_FETCH
      Cases.origin_steps.2 = Some (rc, w')
    ∧ @git_remote_rename Model.collaborators (Model.persisted Model.origin_fetch) "upstream"
        None Cases.origin_world
      = Some ((if rc <? 0 then rc else 0,
               if rc <? 0 then set_fetch (Model.persisted Model.origin_fetch) Model.upstream_fetch
               else set_name (set_fetch (Model.persisted Model.origin_fetch)
                                Model.upstream_fetch) (Some "upstream")),
              w')
    ∧ ∃ evs, w_log w' = w_log Cases.origin_world ++ evs
             ∧ List.filter is_problematic evs = [].
Proof.
  apply (@rename_rewrites_standard_refspec Model.collaborators
           (Model.persisted Model.origin_fetch) "origin" "upstream" None
           "+refs/heads/*:refs/remotes/origin/*" 13 0 Model.upstream_fetch
           Cases.origin_world Cases.origin_steps.1 Cases.origin_steps.2).
  - reflexivity.
  - left. discriminate.
  - reflexivity.
  - vm_compute. reflexivity.
  - vm_compute. reflexivity.
  - lia.
  - vm_compute. reflexivity.
  - vm_compute. discriminate.
  - eexists. vm_compute. reflexivity.
Defined.

(** Renaming the persisted [origin] that mirrors [refs/heads/*] without a
    callback. *)
Lemma rename_calls_the_callback_unchecked_witness :
  (∀ w, @rename_fetch_refspecs Model.collaborators (Model.persisted Model.mirror_fetch)
          "upstream" None w = None)
  ∧ (∀ name w e w3,
       r_name (Model.persisted Model.mirror_fetch) = Some name →
       @rename_steps_before_refspec Model.collaborators name "upstream" w = Some (e, w3) →
       0 ≤ e →
       @git_remote_rename Model.collaborators (Model.persisted Model.mirror_fetch) "upstream"
         None w = None).
Proof.
  apply (@rename_calls_the_callback_unchecked Model.collaborators
           (Model.persisted Model.mirror_fetch) "upstream" "+refs/heads/*:refs/heads/*").
  - left. discriminate.
  - reflexivity.
  - vm_compute. reflexivity.
Defined.

(** Renaming [origin] to [upstream] next to the remote [other]: the
    tracking branch of [other] is renamed as well, to
    [refs/remotes/upstreammaster]. *)
Lemma every_remote_tracking_reference_is_renamed_witness :
  let w := Model.world_of [] Cases.two_remotes in
  let w' := Cases.two_remotes_renamed.2 in
  repo_config (w_repo w') = repo_config (w_repo w)
  ∧ repo_odb (w_repo w') = repo_odb (w_repo w)
  ∧ ∃ evs,
      w_log w' = w_log w ++ evs
      ∧ Forall2 (λ name ev, ∃ e, 0 ≤ e
                   ∧ ev = RefRename name (renamed_reference "origin" "upstream" name) e)
          ["refs/remotes/origin/master"; "refs/remotes/other/master"] evs.
Proof.
  apply (@every_remote_tracking_reference_is_renamed Model.collaborators "origin" "upstream"
           (Model.world_of [] Cases.two_remotes) Cases.two_remotes_renamed.1
           Cases.two_remotes_renamed.2).
  - vm_compute. reflexivity.
  - vm_compute. discriminate.
Defined.

Example other_remote_is_renamed_too :
  renamed_reference "origin" "upstream" "refs/remotes/other/master"
  = "refs/remotes/upstreammaster"
  ∧ Model.lookup_key "refs/remotes/upstreammaster"
      (repo_refdb (w_repo Cases.two_remotes_renamed.2)) = Some Model.oid_Y.
Proof. split; vm_compute; reflexivity. Qed.

(** Renaming [origin] while a tracking branch of the remote [up] exists. *)
Lemma rename_reads_past_a_short_reference_name_witness :
  @rename_remote_references Model.collaborators "origin" "upstream"
    (Model.world_of [] Cases.short_remote) = None.
Proof.
  apply (@rename_reads_past_a_short_reference_name Model.collaborators "origin" "upstream"
           (Model.world_of [] Cases.short_remote) 0 ["refs/remotes/up/x"]
           "refs/remotes/up/x" []).
  - reflexivity.
  - lia.
  - reflexivity.
  - vm_compute. lia.
Defined.

(** Two branches follow [origin] and one follows [other]. *)
Lemma only_branches_of_the_old_remote_are_retargeted_witness :
  let w := Model.world_of Cases.branches [] in
  let w' := Cases.branches_retargeted.2 in
  same_refs (w_repo w) (w_repo w')
  ∧ ∃ evs,
      w_log w' = w_log w ++ evs
      ∧ (∀ ev, ev ∈ evs →
           ∃ key e, ev = ConfigSet key "upstream" e
                    ∧ (key, "origin")
                      ∈ Model.config_entries_match Cases.branches "branch\..+\.remote")
      ∧ (Cases.branches_retargeted.1 = 0 →
         Forall2 (λ entry ev, ev = ConfigSet (fst entry) "upstream" 0)
           [("branch.master.remote", "origin"); ("branch.topic.remote", "origin")]
           evs).
Proof.
  apply (@only_branches_of_the_old_remote_are_retargeted Model.collaborators "origin"
           "upstream" (Model.world_of Cases.branches []) Cases.branches_retargeted.1
           Cases.branches_retargeted.2 Cases.branches).
  - reflexivity.
  - vm_compute. reflexivity.
Defined.

(** The rename of the persisted [origin] to [upstream]. *)
Lemma rename_changes_the_name_on_success_only_witness :
  let '(rc, remote', _) := Cases.renamed_origin in
  remote' = set_name (set_fetch (Model.persisted Model.origin_fetch) (r_fetch remote'))
              (Some (if rc <? 0 then "origin" else "upstream"))
  ∧ (0 ≤ rc → rc = 0).
Proof.
  apply (@rename_changes_the_name_on_success_only Model.collaborators
           (Model.persisted Model.origin_fetch) "origin" "upstream" None Cases.origin_world
           0 (set_name (set_fetch (Model.persisted Model.origin_fetch) Model.upstream_fetch)
                (Some "upstream"))
           Cases.renamed_origin.2).
  - reflexivity.
  - vm_compute. reflexivity.
Defined.

(** Renaming an in-memory remote to [origin], which is configured. *)
Lemma rename_to_a_taken_name_witness :
  @git_remote_rename Model.collaborators (Model.anonymous Model.upstream_fetch) "origin"
    (Some Model.keep) Cases.origin_world
  = Some ((GIT_EEXISTS, Model.anonymous Model.upstream_fetch),
          @Build_world Model.collaborators (w_repo Cases.origin_world)
            (Some (GITERR_CONFIG, "Remote '" +:+ "origin" +:+ "' already exists."))
            (w_log Cases.origin_world
             ++ [RemoteFree (as_loaded (Model.persisted Model.origin_fetch))])).
Proof.
  apply (@rename_to_a_taken_name Model.collaborators (Model.anonymous Model.upstream_fetch)
           "origin" (Some Model.keep) Cases.origin_world 0
           (as_loaded (Model.persisted Model.origin_fetch)) Cases.origin_world).
  - vm_compute. reflexivity.
  - lia.
Defined.

Section Setters.
Context `{Collaborators}.

Lemma set_fetch_back remote fetch : set_fetch (set_fetch remote fetch) (r_fetch remote) = remote.
Proof. destruct remote; reflexivity. Qed.

Lemma set_push_back remote push : set_push (set_push remote push) (r_push remote) = remote.
Proof. destruct remote; reflexivity. Qed.

(** X24. Setting a refspec from text does not take over the force flag of
    the text.  [git_remote_set_fetchspec] returns -1 and leaves the remote
    alone when the text is rejected; otherwise it returns 0, the fetch
    refspec has the source and the destination of the parsed text and the
    force flag it had before, and nothing else of the remote changes.  On a
    remote that [git_remote_new] built without a fetch refspec the flag
    stays off, whatever the text says.  [git_remote_set_pushspec] does the
    same to the push refspec. *)
Theorem set_refspec_keeps_the_force_flag remote spec :
  (∀ rc remote',
     git_remote_set_fetchspec remote spec = (rc, remote') →
     rs_force (r_fetch remote') = rs_force (r_fetch remote)
     ∧ ((rc = -1 ∧ remote' = remote ∧ fst (git_refspec__parse spec true) < 0)
        ∨ (rc = 0
           ∧ 0 ≤ fst (git_refspec__parse spec true)
           ∧ rs_src (r_fetch remote') = rs_src (snd (git_refspec__parse spec true))
           ∧ rs_dst (r_fetch remote') = rs_dst (snd (git_refspec__parse spec true))
           ∧ set_fetch remote' (r_fetch remote) = remote))
     ∧ (∀ out name url w w0,
          git_remote_new out name url None w = Some ((0, Holds (Some remote)), w0) →
          rs_force (r_fetch remote') = false))
  ∧ (∀ rc remote',
       git_remote_set_pushspec remote spec = (rc, remote') →
       rs_force (r_push remote') = rs_force (r_push remote)
       ∧ ((rc = -1 ∧ remote' = remote ∧ fst (git_refspec__parse spec false) < 0)
          ∨ (rc = 0
             ∧ 0 ≤ fst (git_refspec__parse spec false)
             ∧ rs_src (r_push remote') = rs_src (snd (git_refspec__parse spec false))
             ∧ rs_dst (r_push remote') = rs_dst (snd (git_refspec__parse spec false))
             ∧ set_push remote' (r_push remote) = remote))).
Proof.
  split; intros rc remote' Hset.
  - unfold git_remote_set_fetchspec in Hset.
    destruct (git_refspec__parse spec true) as [e parsed]. cbn [fst snd].
    assert (Hflag : rs_force (r_fetch remote') = rs_force (r_fetch remote))
      by (destruct (e <? 0); injection Hset as _ <-; reflexivity).
    split; [exact Hflag|]. split.
    + destruct (Z.ltb_spec e 0); injection Hset as <- <-; [left; auto|].
      right. split; [reflexivity|]. split; [assumption|].
      split; [reflexivity|]. split; [reflexivity|]. apply set_fetch_back.
    + intros out name url w w0 Hnew. rewrite Hflag.
      unfold git_remote_new in Hnew. simpl in Hnew. apply ret_inv in Hnew as [Heq _].
      injection Heq as Heq. subst remote. destruct name; reflexivity.
  - unfold git_remote_set_pushspec in Hset.
    destruct (git_refspec__parse spec false) as [e parsed]. cbn [fst snd].
    split; [destruct (e <? 0); injection Hset as _ <-; reflexivity|].
    destruct (Z.ltb_spec e 0); injection Hset as <- <-; [left; auto|].
    right. split; [reflexivity|]. split; [assumption|].
    split; [reflexivity|]. split; [reflexivity|]. apply set_push_back.
Qed.

End Setters.

(** A forced refspec set on a fresh remote is not forced, and is saved
    without its [+]. *)
Example forced_text_is_not_forced :
  let fresh := blank_remote (Some "origin") "git://example.com/repo.git" in
  let '(rc, remote) :=
    @git_remote_set_fetchspec Model.collaborators fresh "+refs/heads/*:refs/remotes/origin/*" in
  rc = 0
  ∧ rs_force (r_fetch remote) = false
  ∧ Model.serialize (r_fetch remote) = Some "refs/heads/*:refs/remotes/origin/*".
Proof. vm_compute. auto. Qed.

Section ConnectionFacts.
Context `{Collaborators}.
Variable git_transport_new : string → Z * git_transport.
Variable transport_connect : git_transport → Z → Z → Z * git_transport.

(** X25. [git_remote_connect] attaches a transport on success only.  The
    result is 0 or -1.  With -1 the remote is as it was: a direction that is
    neither fetch nor push opened no transport, and a transport whose
    connect failed was freed, not attached.  With 0 nothing of the remote
    changed but the transport, which is the one the connect returned.  A
    transport is opened for the url, or, in the push direction, for the push
    url when there is one; its connect is given the certificate check of the
    remote. *)
Theorem connect_attaches_on_success_only remote direction rc remote' evs :
  git_remote_connect git_transport_new transport_connect remote direction = (rc, remote', evs) →
  (rc = 0 ∨ rc = -1)
  ∧ (rc = -1 → remote' = remote)
  ∧ (rc = 0 → ∃ t, remote' = set_transport remote (Some t) ∧ TransportFree ∉ evs)
  ∧ (direction ≠ direction_code GIT_DIR_FETCH → direction ≠ direction_code GIT_DIR_PUSH →
     rc = -1 ∧ evs = [])
  ∧ (∀ url e, TransportNew url e ∈ evs →
       url = if (direction =? direction_code GIT_DIR_PUSH)
             then default (r_url remote) (r_pushurl remote)
             else r_url remote)
  ∧ (∀ check e, TransportConnect check direction e ∈ evs →
       check = r_check_cert remote ∧ (e < 0 ↔ TransportFree ∈ evs)).
Proof.
  unfold git_remote_connect, git_remote__urlfordirection. intros Hrun.
  assert (Hurl : ∀ url,
    (if direction =? direction_code GIT_DIR_FETCH then Some (r_url remote)
     else if direction =? direction_code GIT_DIR_PUSH
          then Some match r_pushurl remote with
                    | Some pushurl => pushurl
                    | None => r_url remote
                    end
          else None) = Some url →
    url = if (direction =? direction_code GIT_DIR_PUSH)
          then default (r_url remote) (r_pushurl remote) else r_url remote).
  { intros url. destruct (Z.eqb_spec direction (direction_code GIT_DIR_FETCH)) as [->|_].
    - simpl. intros Heq. injection Heq as <-. reflexivity.
    - destruct (direction =? direction_code GIT_DIR_PUSH); [|discriminate].
      intros Heq. injection Heq as <-. destruct (r_pushurl remote); reflexivity. }
  destruct (if direction =? direction_code GIT_DIR_FETCH then _ else _) as [url|] eqn:Hfor.
  2: { injection Hrun as <- <- <-.
       split; [auto|]. split; [auto|]. split; [discriminate|]. split; [auto|].
       split; intros ? ? Hin; inversion Hin. }
  specialize (Hurl url eq_refl).
  assert (Hdir : direction ≠ direction_code GIT_DIR_FETCH →
                 direction ≠ direction_code GIT_DIR_PUSH → False).
  { intros Hf Hp. apply Z.eqb_neq in Hf, Hp. rewrite Hf, Hp in Hfor. discriminate. }
  destruct (git_transport_new url) as [error t].
  destruct (error <? 0).
  { injection Hrun as <- <- <-.
    split; [auto|]. split; [auto|]. split; [discriminate|].
    split; [intros; exfalso; auto|]. split.
    - intros url0 e Hin. apply list_elem_of_singleton in Hin. injection Hin as -> _.
      exact Hurl.
    - intros check e Hin. apply list_elem_of_singleton in Hin. discriminate. }
  destruct (transport_connect t (r_check_cert remote) direction) as [crc t'].
  destruct (Z.ltb_spec crc 0) as [Hneg|Hpos]; injection Hrun as <- <- <-.
  - split; [auto|]. split; [auto|]. split; [discriminate|].
    split; [intros; exfalso; auto|]. split.
    + intros url0 e Hin. apply elem_of_cons in Hin as [Hin|Hin].
      * injection Hin as -> _. exact Hurl.
      * apply elem_of_cons in Hin as [Hin|Hin]; [discriminate|].
        apply list_elem_of_singleton in Hin. discriminate.
    + intros check e Hin. apply elem_of_cons in Hin as [Hin|Hin]; [discriminate|].
      apply elem_of_cons in Hin as [Hin|Hin];
        [|apply list_elem_of_singleton in Hin; discriminate].
      injection Hin as -> ->. split; [reflexivity|]. split; [|intros; exact Hneg].
      intros _. do 2 (apply elem_of_cons; right). apply elem_of_cons. left. reflexivity.
  - split; [auto|]. split; [discriminate|].
    assert (Hnofree : TransportFree ∉ [TransportNew url error;
                        TransportConnect (r_check_cert remote) direction crc]).
    { intros Hin. apply elem_of_cons in Hin as [Hin|Hin]; [discriminate|].
      apply list_elem_of_singleton in Hin. discriminate. }
    split; [intros _; exists t'; auto|].
    split; [intros; exfalso; auto|]. split.
    + intros url0 e Hin. apply elem_of_cons in Hin as [Hin|Hin].
      * injection Hin as -> _. exact Hurl.
      * apply list_elem_of_singleton in Hin. discriminate.
    + intros check e Hin. apply elem_of_cons in Hin as [Hin|Hin]; [discriminate|].
      apply list_elem_of_singleton in Hin. injection Hin as -> ->.
      split; [reflexivity|]. split; [lia|]. intros Hfree. contradiction.
Qed.

(** X26. From [git_remote_new] to tip synchronization.  A remote that
    [git_remote_new] built without a name and that [git_remote_connect]
    connected follows no tags: every reference a run creates is forced, and
    is the fetch-head of a leading HEAD or the fetch refspec's transform of
    an advertised name that the fetch refspec matches. *)
Theorem anonymous_remote_follows_no_tags out url fetch w remote w0 direction connected evs
    repo rc repo' tr j refname id force e :
  git_remote_new out None url fetch w = Some ((0, Holds (Some remote)), w0) →
  git_remote_connect git_transport_new transport_connect remote direction
  = (0, connected, evs) →
  git_remote_update_tips connected repo = Some (rc, repo', tr) →
  (j, RefCreate refname id force e) ∈ tr →
  force = true
  ∧ ((j = 0%nat ∧ refname = GIT_FETCH_HEAD_FILE
      ∧ advertised connected !! 0%nat
        = Some (PktRef {| head_name := GIT_HEAD_FILE; head_oid := id |}))
     ∨ ∃ name,
         advertised connected !! j = Some (PktRef {| head_name := name; head_oid := id |})
         ∧ git_refspec_src_matches (r_fetch remote) name = true
         ∧ git_refspec_transform_r (r_fetch remote) name = Some refname).
Proof.
  intros Hnew Hconnect Hrun Hin.
  assert (Htags : r_download_tags connected = GIT_REMOTE_DOWNLOAD_TAGS_NONE
                  ∧ r_fetch connected = r_fetch remote).
  { unfold git_remote_new in Hnew.
    destruct fetch as [text|].
    - destruct (git_refspec__parse text true) as [error parsed].
      destruct (error <? 0).
      + apply bind_inv in Hnew as (u & w1 & _ & Hret). apply ret_inv in Hret as [Heq _].
        discriminate.
      + apply ret_inv in Hnew as [Heq _]. injection Heq as ->.
        unfold git_remote_connect in Hconnect.
        destruct (git_remote__urlfordirection _ _); [|discriminate].
        destruct (git_transport_new _) as [e0 t]. destruct (e0 <? 0); [discriminate|].
        destruct (transport_connect _ _ _) as [e1 t']. destruct (e1 <? 0); [discriminate|].
        injection Hconnect as <- _. split; reflexivity.
    - simpl in Hnew. apply ret_inv in Hnew as [Heq _]. injection Heq as ->.
      unfold git_remote_connect in Hconnect.
      destruct (git_remote__urlfordirection _ _); [|discriminate].
      destruct (git_transport_new _) as [e0 t]. destruct (e0 <? 0); [discriminate|].
      destruct (transport_connect _ _ _) as [e1 t']. destruct (e1 <? 0); [discriminate|].
      injection Hconnect as <- _. split; reflexivity. }
  destruct Htags as [Htags Hfetch].
  destruct (run_turn _ _ _ _ _ _ _ Hrun Hin) as (odb & Hodb & _).
  destruct (creation_cases _ _ _ _ _ _ _ _ _ _ _ Hrun Hodb Hin)
    as [(-> & -> & -> & Hfirst)|(name & Hadv & _ & Hcase)].
  - split; [reflexivity|]. left. auto.
  - rewrite Hfetch in Hcase.
    destruct Hcase as [(Hmatch & Htransform & ->)|(_ & _ & _ & Hmode & _)];
      [|contradiction].
    split; [reflexivity|]. right. exists name. auto.
Qed.

End ConnectionFacts.

(** Connecting the in-memory remote of the examples in the push
    direction: it has no push url, the transport is opened for its url. *)
Lemma connect_attaches_on_success_only_witness :
  let remote := Model.anonymous Model.upstream_fetch in
  let evs := [TransportNew "git://example.com/repo.git" 0; TransportConnect 1 1 0] in
  (0 = 0 ∨ 0 = -1)
  ∧ (0 = -1 → Cases.connected_anonymous = remote)
  ∧ (0 = 0 → ∃ t, Cases.connected_anonymous = set_transport remote (Some t)
                  ∧ TransportFree ∉ evs)
  ∧ (1 ≠ direction_code GIT_DIR_FETCH → 1 ≠ direction_code GIT_DIR_PUSH →
     0 = -1 ∧ evs = [])
  ∧ (∀ url e, TransportNew url e ∈ evs →
       url = if (1 =? direction_code GIT_DIR_PUSH)
             then default (r_url remote) (r_pushurl remote)
             else r_url remote)
  ∧ (∀ check e, TransportConnect check 1 e ∈ evs →
       check = r_check_cert remote ∧ (e < 0 ↔ TransportFree ∈ evs)).
Proof.
  apply (connect_attaches_on_success_only Cases.open_transport Cases.connect_transport
           (Model.anonymous Model.upstream_fetch) 1 0 Cases.connected_anonymous).
  reflexivity.
Defined.

(** The in-memory remote of the examples, built, connected and
    synchronized on the spec's scenario: the branch is written below
    [refs/remotes/upstream/]. *)
Lemma anonymous_remote_follows_no_tags_witness :
  true = true
  ∧ ((1%nat = 0%nat ∧ "refs/remotes/upstream/master" = GIT_FETCH_HEAD_FILE
      ∧ advertised Cases.connected_anonymous !! 0%nat
        = Some (PktRef {| head_name := GIT_HEAD_FILE; head_oid := Model.oid_X |}))
     ∨ ∃ name,
         advertised Cases.connected_anonymous !! 1%nat
         = Some (PktRef {| head_name := name; head_oid := Model.oid_X |})
         ∧ Model.src_matches (r_fetch (Model.anonymous Model.upstream_fetch)) name = true
         ∧ Model.transform_r (r_fetch (Model.anonymous Model.upstream_fetch)) name
           = Some "refs/remotes/upstream/master").
Proof.
  apply (@anonymous_remote_follows_no_tags Model.collaborators
           Cases.open_transport Cases.connect_transport
           Indeterminate "git://example.com/repo.git"
           (Some "+refs/heads/*:refs/remotes/upstream/*")
           (Model.world_of [] []) (Model.anonymous Model.upstream_fetch) (Model.world_of [] [])
           0 Cases.connected_anonymous
           [TransportNew "git://example.com/repo.git" 0; TransportConnect 1 0 0]
           (Model.repository [Model.oid_Y] [] []) Cases.anonymous_run.1.1
           Cases.anonymous_run.1.2 Cases.anonymous_run.2 1 "refs/remotes/upstream/master"
           Model.oid_X true 0).
  - vm_compute. reflexivity.
  - reflexivity.
  - vm_compute. reflexivity.
  - vm_compute. repeat constructor.
Defined.

(** ** Enumeration *)

Lemma append_nil_r (s : string) : s +:+ "" = s.
Proof.
  induction s as [|ch s IH]; [reflexivity|].
  change (String ch (s +:+ "") = String ch s). f_equal. exact IH.
Qed.

Lemma substring_length (s : string) : ∀ m n,
  (m + n ≤ String.length s)%nat → String.length (String.substring m n s) = n.
Proof.
  induction s as [|ch s IH]; intros m n Hle; simpl in Hle.
  - destruct m, n; simpl; lia.
  - destruct m as [|m]; simpl.
    + destruct n as [|n]; simpl; [reflexivity|]. f_equal. apply (IH 0%nat). lia.
    + apply IH. lia.
Qed.

Lemma prefix_append (p s : string) : String.prefix p (p +:+ s) = true.
Proof.
  induction p as [|ch p IH]; simpl; [destruct s; reflexivity|].
  destruct (ascii_dec ch ch); [exact IH|contradiction].
Qed.

Lemma prefix_split (p s : string) :
  String.prefix p s = true → s = p +:+ string_from (String.length p) s.
Proof.
  revert s. induction p as [|ch p IH]; intros s Hprefix.
  - rewrite string_from_0. reflexivity.
  - destruct s as [|ch' s]; simpl in Hprefix; [discriminate|].
    destruct (ascii_dec ch ch') as [->|]; [|discriminate].
    change (String ch' s = String ch' (p +:+ string_from (String.length p) s)).
    f_equal. apply IH, Hprefix.
Qed.

(** The names the pattern of [git_remote_list] matches, and what it
    captures. *)
Lemma remote_url_match_spec (key name : string) :
  remote_url_match key = Some name ↔ key = "remote." +:+ name +:+ ".url".
Proof.
  unfold remote_url_match, has_suffix. split.
  - destruct (String.prefix "remote." key) eqn:Hprefix; [|discriminate].
    destruct (String.length ".url" <=? String.length key)%nat; [|discriminate].
    destruct (String.eqb_spec (string_from (String.length key - String.length ".url") key)
                ".url") as [Hsuffix|]; [|discriminate].
    destruct (Nat.leb_spec (String.length "remote." + String.length ".url")
                (String.length key)) as [Hlong|]; [|discriminate].
    cbn [andb]. intros Heq. injection Heq as <-.
    pose proof (substring_split key (String.length "remote.")
                  (String.length key - String.length "remote." - String.length ".url")) as Hsplit.
    rewrite substring_length in Hsplit by lia. specialize (Hsplit eq_refl).
    replace (String.length "remote."
             + (String.length key - String.length "remote." - String.length ".url"))%nat
      with (String.length key - String.length ".url")%nat in Hsplit by lia.
    rewrite Hsuffix in Hsplit.
    apply prefix_split in Hprefix.
    assert (Hhead : String.substring 0 (String.length "remote.") key = "remote.").
    { rewrite Hprefix at 1.
      rewrite <- (Nat.add_0_r (String.length "remote.")), substring_0_append.
      destruct (string_from _ key); reflexivity. }
    rewrite Hhead in Hsplit. exact Hsplit.
  - intros ->.
    rewrite (prefix_append "remote."). cbn [andb].
    assert (Hlen : String.length ("remote." +:+ name +:+ ".url")
                   = (String.length "remote." + String.length name + String.length ".url")%nat).
    { rewrite !length_append. lia. }
    rewrite Hlen.
    replace (String.length "remote." + String.length name + String.length ".url"
             - String.length ".url")%nat
      with (String.length "remote." + (String.length name + 0))%nat by lia.
    rewrite (string_from_append "remote."), (string_from_append name), string_from_0.
    replace (String.length ".url" <=? _)%nat with true by (symmetry; apply Nat.leb_le; lia).
    replace (String.length "remote." + String.length ".url" <=? _)%nat with true
      by (symmetry; apply Nat.leb_le; lia).
    rewrite String.eqb_refl. cbn [andb]. f_equal.
    replace (String.length "remote." + String.length name + String.length ".url"
             - String.length "remote." - String.length ".url")%nat
      with (String.length name) by lia.
    rewrite <- (Nat.add_0_r (String.length "remote.")) at 1.
    rewrite (substring_skip_append "remote.").
    rewrite <- (Nat.add_0_r (String.length name)) at 1.
    rewrite substring_0_append.
    assert (Hnil : ∀ s, String.substring 0 0 s = "") by (intros []; reflexivity).
    rewrite Hnil. apply append_nil_r.
Qed.

Lemma remote_list_foreach_lists entries : ∀ found,
  remote_list_foreach entries found
  = (0, found ++ omap (λ entry, remote_url_match (fst entry)) entries).
Proof.
  induction entries as [|entry rest IH]; intros found; simpl.
  - rewrite app_nil_r. reflexivity.
  - unfold remote_list_cb. destruct (remote_url_match (fst entry)) as [name|]; simpl.
    + rewrite IH, <- app_assoc. reflexivity.
    + apply IH.
Qed.

Section EnumerationFacts.
Context `{Collaborators}.
Variable git_config_entries : config_t → Z * list (string * string).

(** X27. What [git_remote_list] lists.  Without a configuration the result
    is -1, and when the enumeration of the store fails it is the result of
    the enumeration; the caller's array is then left alone.  Otherwise the
    result is 0 and the array holds, in the order of the entries and once
    for each entry, the names [<n>] of the keys of the form
    [remote.<n>.url], whatever [<n>] is, dots included. *)
Theorem remote_list_holds_the_url_sections remotes_list repo :
  match repo_config repo with
  | None => git_remote_list git_config_entries remotes_list repo = (-1, remotes_list)
  | Some cfg =>
      let '(failed, entries) := git_config_entries cfg in
      if failed <? 0 then
        git_remote_list git_config_entries remotes_list repo
        = (if failed =? GIT_EUSER then -1 else failed, remotes_list)
      else
        ∃ found,
          git_remote_list git_config_entries remotes_list repo = (0, found)
          ∧ found = omap (λ entry, remote_url_match (fst entry)) entries
          ∧ ∀ name, name ∈ found ↔ ∃ value, ("remote." +:+ name +:+ ".url", value) ∈ entries
  end.
Proof.
  unfold git_remote_list. destruct (repo_config repo) as [cfg|]; [|reflexivity].
  destruct (git_config_entries cfg) as [failed entries].
  destruct (failed <? 0) eqn:Hfailed; [rewrite Hfailed; reflexivity|].
  rewrite remote_list_foreach_lists. simpl.
  eexists. split; [reflexivity|]. split; [reflexivity|].
  intros name. rewrite list_elem_of_omap. split.
  - intros ([key value] & Hin & Hmatch). simpl in Hmatch.
    apply remote_url_match_spec in Hmatch as ->. eauto.
  - intros (value & Hin). exists ("remote." +:+ name +:+ ".url", value).
    split; [exact Hin|]. simpl. apply remote_url_match_spec. reflexivity.
Qed.

End EnumerationFacts.

(** The remotes of a configuration with a dotted remote name and a key
    that is too short to match. *)
Example two_remotes_are_listed :
  @git_remote_list Model.collaborators Cases.all_entries []
    (Model.repository [] Cases.listing [])
  = (0, ["origin"; "my.fork"]).
Proof. vm_compute. reflexivity. Qed.
